(** * Codxen: entity/component runtime, physics step, input edges, frame loop

  A shallow embedding of the TypeScript engine:
  - [core/Math.ts]        : [Vector2]
  - [core/components.ts]  : [Transform2D], [Rigidbody2D]
  - [core/Entity.ts]      : [Component], [Entity], [Scene]
  - [input/InputManager.ts]
  - [index.ts]            : [GameEngine]

  JavaScript numbers are IEEE 754 binary64 values and are modelled by the
  kernel's primitive floats.  Objects are modelled by identifiers into a
  store, so that aliasing (an entity reachable from two child lists, a
  component instance replaced in a registry) is visible. *)

From Stdlib Require Import Floats.
From stdpp Require Import gmap strings list fin_maps.

Set Warnings "-inexact-float,-clear-no-such-hyp".

(** ** core/Math.ts *)

Module Vector2.

Record t := mk { x : float; y : float }.

(** [new Vector2()] : both coordinates default to [0]. *)
Definition zero : t := mk 0 0.

Definition add (a v : t) : t := mk (x a + x v) (y a + y v).

Definition subtract (a v : t) : t := mk (x a - x v) (y a - y v).

Definition multiply (a : t) (scalar : float) : t :=
  mk (x a * scalar) (y a * scalar).

Definition dot (a v : t) : float := x a * x v + y a * y v.

End Vector2.

(** ** core/components.ts *)

(** The keys of an entity's component registry are the component
  constructors. *)
Inductive CompClass :=
| Transform2D | Transform3D | Sprite | Circle | Rectangle | Rigidbody2D.

#[global] Instance CompClass_eq_dec : EqDecision CompClass.
Proof. solve_decision. Defined.

(** Object identities of entities and of component instances. *)
Abbreviation EId := nat.
Abbreviation CId := nat.

Module Transform2D.

Record t := mk { position : Vector2.t; scale : Vector2.t; rotation : float }.

Definition new : t := mk Vector2.zero (Vector2.mk 1 1) 0.

Definition translate (offset : Vector2.t) (tr : t) : t :=
  mk (Vector2.add (position tr) offset) (scale tr) (rotation tr).

Definition rotate (angle : float) (tr : t) : t :=
  mk (position tr) (scale tr) (rotation tr + angle).

Definition setPosition (px py : float) (tr : t) : t :=
  mk (Vector2.mk px py) (scale tr) (rotation tr).

End Transform2D.

Module Rigidbody2D.

Record t := mk {
  velocity : Vector2.t;
  acceleration : Vector2.t;
  mass : float;
  friction : float;
  isStatic : bool;
  gravity : float
}.

Definition new : t := mk Vector2.zero Vector2.zero 1 0.1 false 9.8.

Definition with_acceleration (a : Vector2.t) (b : t) : t :=
  mk (velocity b) a (mass b) (friction b) (isStatic b) (gravity b).

Definition with_isStatic (s : bool) (b : t) : t :=
  mk (velocity b) (acceleration b) (mass b) (friction b) s (gravity b).

(** [applyForce]: [acceleration = acceleration.add(force.multiply(1 / mass))]. *)
Definition applyForce (force : Vector2.t) (b : t) : t :=
  let acceleration' := Vector2.multiply force (1 / mass b) in
  with_acceleration (Vector2.add (acceleration b) acceleration') b.

Definition setVelocity (vx vy : float) (b : t) : t :=
  mk (Vector2.mk vx vy) (acceleration b) (mass b) (friction b)
     (isStatic b) (gravity b).

(** The part of [update] that runs once the body is known to be non-static
    and the owner's [Transform2D] has been found: it returns the new body
    and the offset handed to [transform.translate]. *)
Definition integrate (deltaTime : float) (b : t) : t * Vector2.t :=
  (* this.acceleration.y += this.gravity *)
  let acc := Vector2.mk (Vector2.x (acceleration b))
                        (Vector2.y (acceleration b) + gravity b) in
  (* this.velocity = this.velocity.add(this.acceleration.multiply(deltaTime)) *)
  let v1 := Vector2.add (velocity b) (Vector2.multiply acc deltaTime) in
  (* this.velocity = this.velocity.multiply(1 - this.friction) *)
  let v2 := Vector2.multiply v1 (1 - friction b) in
  (* transform.translate(this.velocity.multiply(deltaTime));
     this.acceleration = new Vector2() *)
  (mk v2 Vector2.zero (mass b) (friction b) (isStatic b) (gravity b),
   Vector2.multiply v2 deltaTime).

End Rigidbody2D.

(** A component instance: the fields of the abstract base class and the
  fields of its concrete class.  The classes whose [update] is empty and
  whose fields no modelled method reads carry no payload. *)
Inductive CompBody :=
| BTransform2D (tr : Transform2D.t)
| BRigidbody2D (rb : Rigidbody2D.t)
| BTransform3D
| BSprite
| BCircle
| BRectangle.

Definition classOf (b : CompBody) : CompClass :=
match b with
| BTransform2D _ => Transform2D
| BRigidbody2D _ => Rigidbody2D
| BTransform3D => Transform3D
| BSprite => Sprite
| BCircle => Circle
| BRectangle => Rectangle
end.

(** [new C()] for each constructor [C]. *)
Definition construct (c : CompClass) : CompBody :=
match c with
| Transform2D => BTransform2D Transform2D.new
| Rigidbody2D => BRigidbody2D Rigidbody2D.new
| Transform3D => BTransform3D
| Sprite => BSprite
| Circle => BCircle
| Rectangle => BRectangle
end.

Module Component.
Record t := mk { isEnabled : bool; entity : option EId; body : CompBody }.
End Component.

(** ** JavaScript [Map]: keyed lookup that remembers insertion order *)

Module JsMap.
Section JsMap.
Context {K V : Type} `{EqDecision K}.

(** [m.set(k, v)]: an existing key keeps its place, a new key goes last. *)
Fixpoint set (k : K) (v : V) (m : list (K * V)) : list (K * V) :=
  match m with
  | [] => [(k, v)]
  | (k', v') :: m' =>
      if decide (k = k') then (k, v) :: m' else (k', v') :: set k v m'
  end.

Fixpoint get (k : K) (m : list (K * V)) : option V :=
  match m with
  | [] => None
  | (k', v') :: m' => if decide (k = k') then Some v' else get k m'
  end.

Fixpoint delete (k : K) (m : list (K * V)) : list (K * V) :=
  match m with
  | [] => []
  | (k', v') :: m' =>
      if decide (k = k') then delete k m' else (k', v') :: delete k m'
  end.

Definition values (m : list (K * V)) : list V := m.*2.

End JsMap.
End JsMap.

(** ** JavaScript arrays: [indexOf] and [splice(index, 1)] *)

Fixpoint indexOf (x : EId) (l : list EId) : option nat :=
  match l with
  | [] => None
  | y :: l' => if decide (x = y) then Some 0 else S <$> indexOf x l'
  end.

Definition splice1 (index : nat) (l : list EId) : list EId :=
  take index l ++ drop (S index) l.

(** ** core/Entity.ts : [Entity] *)

Module Entity.

Record t := mk {
  name : string;
  active : bool;
  components : list (CompClass * CId);
  children : list EId;
  parent : option EId
}.

(** [new Entity(name = 'Entity', active = true)]. *)
Definition new (n : string) (a : bool) : t := mk n a [] [] None.

Definition with_name (n : string) (e : t) : t :=
  mk n (active e) (components e) (children e) (parent e).
Definition with_active (a : bool) (e : t) : t :=
  mk (name e) a (components e) (children e) (parent e).
Definition with_components (cs : list (CompClass * CId)) (e : t) : t :=
  mk (name e) (active e) cs (children e) (parent e).
Definition with_children (ch : list EId) (e : t) : t :=
  mk (name e) (active e) (components e) ch (parent e).
Definition with_parent (p : option EId) (e : t) : t :=
  mk (name e) (active e) (components e) (children e) p.

End Entity.

(** The object store.  An entity identifier that was never written denotes
    an entity as [new Entity()] leaves it; component instances exist from
    the [addComponent] call that constructs them. *)
Record World := mkWorld {
  entities : gmap EId Entity.t;
  comps : gmap CId Component.t
}.

Definition emptyWorld : World := mkWorld ∅ ∅.

Definition ent (w : World) (e : EId) : Entity.t :=
  default (Entity.new "Entity" true) (entities w !! e).

Definition setEnt (e : EId) (v : Entity.t) (w : World) : World :=
  mkWorld (<[e := v]> (entities w)) (comps w).

Definition updEnt (e : EId) (f : Entity.t → Entity.t) (w : World) : World :=
  setEnt e (f (ent w e)) w.

Definition setComp (c : CId) (v : Component.t) (w : World) : World :=
  mkWorld (entities w) (<[c := v]> (comps w)).

(** *** Component registry *)

(** [addComponent(C)]: a fresh instance owned by [this], stored under [C]. *)
Definition addComponent (cls : CompClass) (this : EId) (w : World)
  : CId * World :=
  let component := fresh (dom (comps w)) in
  let w1 := setComp component
              (Component.mk true (Some this) (construct cls)) w in
  (component,
   updEnt this (λ e, Entity.with_components
                        (JsMap.set cls component (Entity.components e)) e) w1).

(** [getComponent(C)]: [components.get(C) || null]; an instance is never
    falsy. *)
Definition getComponent (cls : CompClass) (this : EId) (w : World)
  : option CId :=
  JsMap.get cls (Entity.components (ent w this)).

Definition removeComponent (cls : CompClass) (this : EId) (w : World) : World :=
  updEnt this (λ e, Entity.with_components
                       (JsMap.delete cls (Entity.components e)) e) w.

Definition getComponents (this : EId) (w : World) : list CId :=
  JsMap.values (Entity.components (ent w this)).

(** *** Tree structure *)

Definition addChild (this entity : EId) (w : World) : World :=
  (* entity.parent = this *)
  let w1 := updEnt entity (Entity.with_parent (Some this)) w in
  (* this.children.push(entity) *)
  updEnt this (λ e, Entity.with_children (Entity.children e ++ [entity]) e) w1.

Definition removeChild (this entity : EId) (w : World) : World :=
  match indexOf entity (Entity.children (ent w this)) with
  | Some index =>
      let w1 := updEnt this (λ e, Entity.with_children
                                     (splice1 index (Entity.children e)) e) w in
      updEnt entity (Entity.with_parent None) w1
  | None => w
  end.

Definition getChildren (this : EId) (w : World) : list EId :=
  Entity.children (ent w this).

Definition getParent (this : EId) (w : World) : option EId :=
  Entity.parent (ent w this).

Definition destroy (this : EId) (w : World) : World :=
  let w1 := match Entity.parent (ent w this) with
            | Some p => removeChild p this w
            | None => w
            end in
  (* this.components.clear(); this.children = [] *)
  updEnt this (λ e, Entity.with_children []
                      (Entity.with_components [] e)) w1.

(** *** Per-frame update *)

(** [Rigidbody2D.update], run on the instance [this] whose fields are
    [self] and [rb]. *)
Definition Rigidbody2D_update (deltaTime : float) (this : CId)
    (self : Component.t) (rb : Rigidbody2D.t) (w : World) : World :=
  if Rigidbody2D.isStatic rb then w
  else
    (* const transform = this.entity?.getComponent(Transform2D) *)
    match Component.entity self ≫= (λ e, getComponent Transform2D e w) with
    | None => w
    | Some transform =>
        match comps w !! transform with
        | Some (Component.mk en ow (BTransform2D tr)) =>
            let '(rb', offset) := Rigidbody2D.integrate deltaTime rb in
            let w1 := setComp this
                        (Component.mk (Component.isEnabled self)
                           (Component.entity self) (BRigidbody2D rb')) w in
            setComp transform
              (Component.mk en ow
                 (BTransform2D (Transform2D.translate offset tr))) w1
        | _ => w
        end
    end.

(** [component.update(deltaTime)], dispatched on the instance's class; every
    class but [Rigidbody2D] has an empty [update]. *)
Definition Component_update (deltaTime : float) (this : CId) (w : World)
  : World :=
  match comps w !! this with
  | Some self =>
      match Component.body self with
      | BRigidbody2D rb => Rigidbody2D_update deltaTime this self rb w
      | _ => w
      end
  | None => w
  end.

(** The first loop of [Entity.update]: the enabled components, in registry
    order.  The second component of the state lists the instances whose
    [update] was invoked. *)
Definition updateComponents (deltaTime : float) (cs : list CId)
    (st : World * list CId) : World * list CId :=
  foldl (λ '(w, log) component,
           match comps w !! component with
           | Some c =>
               if Component.isEnabled c
               then (Component_update deltaTime component w, log ++ [component])
               else (w, log)
           | None => (w, log)
           end) st cs.

(** [Entity.update].  The recursion follows child references through the
    store, so it is bounded by [fuel]; [None] stands for a call chain that
    does not come back (a cyclic child list). *)
Fixpoint Entity_update (fuel : nat) (deltaTime : float) (this : EId)
    (st : World * list CId) : option (World * list CId) :=
  match fuel with
  | 0 => None
  | S fuel' =>
      if negb (Entity.active (ent st.1 this)) then Some st
      else
        let st1 := updateComponents deltaTime (getComponents this st.1) st in
        foldl (λ acc child, acc ≫= Entity_update fuel' deltaTime child)
              (Some st1) (Entity.children (ent st1.1 this))
  end.

(** ** core/Entity.ts : [Scene] *)

Module Scene.

Record t := mk {
  rootEntities : list EId;
  allEntities : gmap string EId;
  name : string
}.

Definition new : t := mk [] ∅ "Scene".

End Scene.

(** [registerEntity]: the entity, then its children, recursively.  Bounded
    by [fuel] like [Entity_update]. *)
Fixpoint registerEntity (fuel : nat) (w : World) (entity : EId)
    (index : gmap string EId) : option (gmap string EId) :=
  match fuel with
  | 0 => None
  | S fuel' =>
      foldl (λ acc child, acc ≫= registerEntity fuel' w child)
            (Some (<[Entity.name (ent w entity) := entity]> index))
            (getChildren entity w)
  end.

Fixpoint unregisterEntity (fuel : nat) (w : World) (entity : EId)
    (index : gmap string EId) : option (gmap string EId) :=
  match fuel with
  | 0 => None
  | S fuel' =>
      foldl (λ acc child, acc ≫= unregisterEntity fuel' w child)
            (Some (delete (Entity.name (ent w entity)) index))
            (getChildren entity w)
  end.

(** [addEntity(entity, name?)].  [name || entity.name] falls back to the
    entity's own name when the argument is missing or the empty string. *)
Definition addEntity (fuel : nat) (entity : EId) (name : option string)
    (st : World * Scene.t) : option (World * Scene.t) :=
  let '(w, s) := st in
  let entityName :=
    match name with
    | Some n => if decide (n = "") then Entity.name (ent w entity) else n
    | None => Entity.name (ent w entity)
    end in
  let w1 := updEnt entity (Entity.with_name entityName) w in
  let roots := Scene.rootEntities s ++ [entity] in
  index ← registerEntity fuel w1 entity (Scene.allEntities s);
  Some (w1, Scene.mk roots index (Scene.name s)).

Definition removeEntity (fuel : nat) (entity : EId)
    (st : World * Scene.t) : option (World * Scene.t) :=
  let '(w, s) := st in
  match indexOf entity (Scene.rootEntities s) with
  | Some i =>
      index ← unregisterEntity fuel w entity (Scene.allEntities s);
      Some (w, Scene.mk (splice1 i (Scene.rootEntities s)) index (Scene.name s))
  | None => Some (w, s)
  end.

(** [findEntity(name)]: [allEntities.get(name) || null]. *)
Definition findEntity (name : string) (s : Scene.t) : option EId :=
  Scene.allEntities s !! name.


Definition getEntityCount (s : Scene.t) : nat := size (Scene.allEntities s).

(** [Scene.update]: every root, in order. *)
Definition Scene_update (fuel : nat) (deltaTime : float) (s : Scene.t)
    (st : World * list CId) : option (World * list CId) :=
  foldl (λ acc entity, acc ≫= Entity_update fuel deltaTime entity)
        (Some st) (Scene.rootEntities s).

Definition Scene_clear (s : Scene.t) : Scene.t := Scene.mk [] ∅ (Scene.name s).

(** ** input/InputManager.ts *)

Module InputManager.

Record t := mk {
  keysPressed : gset string;
  keysJustPressed : gset string;
  keysJustReleased : gset string;
  mousePosition : float * float;
  mouseButtonsPressed : gset Z;
  mouseButtonsJustPressed : gset Z;
  mouseButtonsJustReleased : gset Z;
  touches : list (Z * (float * float))
}.

Definition new : t := mk ∅ ∅ ∅ (0%float, 0%float) ∅ ∅ ∅ [].

(** One entry of a [TouchList]. *)
Record Touch := mkTouch { identifier : Z; clientX : float; clientY : float }.

(** [canvas.getBoundingClientRect()], read when the event fires. *)
Record Rect := mkRect { left : float; top : float }.

(** The raw events the constructor subscribes to. *)
Inductive Event :=
| KeyDown (key : string)
| KeyUp (key : string)
| MouseMove (clientX clientY : float) (rect : Rect)
| MouseDown (button : Z)
| MouseUp (button : Z)
| MouseOut
| TouchStart (touches : list Touch) (rect : Rect)
| TouchMove (touches : list Touch) (rect : Rect)
| TouchEnd (changedTouches : list Touch).

Definition setTouches (ts : list Touch) (rect : Rect)
    (m : list (Z * (float * float))) : list (Z * (float * float)) :=
  foldl (λ m touch,
           JsMap.set (identifier touch)
             ((clientX touch - left rect)%float,
              (clientY touch - top rect)%float) m) m ts.

(** The listener that runs for each raw event. *)
Definition handle (ev : Event) (s : t) : t :=
  match ev with
  | KeyDown key =>
      let jp := if decide (key ∈ keysPressed s) then keysJustPressed s
                else {[key]} ∪ keysJustPressed s in
      mk ({[key]} ∪ keysPressed s) jp (keysJustReleased s) (mousePosition s)
         (mouseButtonsPressed s) (mouseButtonsJustPressed s)
         (mouseButtonsJustReleased s) (touches s)
  | KeyUp key =>
      mk (keysPressed s ∖ {[key]}) (keysJustPressed s)
         ({[key]} ∪ keysJustReleased s) (mousePosition s)
         (mouseButtonsPressed s) (mouseButtonsJustPressed s)
         (mouseButtonsJustReleased s) (touches s)
  | MouseMove cx cy rect =>
      mk (keysPressed s) (keysJustPressed s) (keysJustReleased s)
         ((cx - left rect)%float, (cy - top rect)%float)
         (mouseButtonsPressed s) (mouseButtonsJustPressed s)
         (mouseButtonsJustReleased s) (touches s)
  | MouseDown button =>
      let jp := if decide (button ∈ mouseButtonsPressed s)
                then mouseButtonsJustPressed s
                else {[button]} ∪ mouseButtonsJustPressed s in
      mk (keysPressed s) (keysJustPressed s) (keysJustReleased s)
         (mousePosition s) ({[button]} ∪ mouseButtonsPressed s) jp
         (mouseButtonsJustReleased s) (touches s)
  | MouseUp button =>
      mk (keysPressed s) (keysJustPressed s) (keysJustReleased s)
         (mousePosition s) (mouseButtonsPressed s ∖ {[button]})
         (mouseButtonsJustPressed s)
         ({[button]} ∪ mouseButtonsJustReleased s) (touches s)
  | MouseOut =>
      mk (keysPressed s) (keysJustPressed s) (keysJustReleased s)
         (mousePosition s) ∅ (mouseButtonsJustPressed s)
         (mouseButtonsJustReleased s) (touches s)
  | TouchStart ts rect | TouchMove ts rect =>
      mk (keysPressed s) (keysJustPressed s) (keysJustReleased s)
         (mousePosition s) (mouseButtonsPressed s) (mouseButtonsJustPressed s)
         (mouseButtonsJustReleased s) (setTouches ts rect (touches s))
  | TouchEnd ts =>
      mk (keysPressed s) (keysJustPressed s) (keysJustReleased s)
         (mousePosition s) (mouseButtonsPressed s) (mouseButtonsJustPressed s)
         (mouseButtonsJustReleased s)
         (foldl (λ m touch, JsMap.delete (identifier touch) m) (touches s) ts)
  end.

Definition isKeyPressed (key : string) (s : t) : bool :=
  bool_decide (key ∈ keysPressed s).

Definition isKeyJustPressed (key : string) (s : t) : bool :=
  bool_decide (key ∈ keysJustPressed s).

Definition isKeyJustReleased (key : string) (s : t) : bool :=
  bool_decide (key ∈ keysJustReleased s).

Definition isMouseButtonPressed (button : Z) (s : t) : bool :=
  bool_decide (button ∈ mouseButtonsPressed s).

Definition isMouseButtonJustPressed (button : Z) (s : t) : bool :=
  bool_decide (button ∈ mouseButtonsJustPressed s).

Definition isMouseButtonJustReleased (button : Z) (s : t) : bool :=
  bool_decide (button ∈ mouseButtonsJustReleased s).

(** [update()]: called once per frame; clears the four edge sets. *)
Definition update (s : t) : t :=
  mk (keysPressed s) ∅ ∅ (mousePosition s) (mouseButtonsPressed s) ∅ ∅
     (touches s).

(** What can happen to an input manager: a raw event or the frame's
    [update()]. *)
Inductive Step := Raw (ev : Event) | Update.

Definition step (x : Step) (s : t) : t :=
  match x with
  | Raw ev => handle ev s
  | Update => update s
  end.

Definition run (xs : list Step) (s : t) : t := foldl (λ s x, step x s) s xs.

End InputManager.

(** ** index.ts : [GameEngine] *)

Inductive RenderMode := Mode2D | Mode3D.

#[global] Instance RenderMode_eq_dec : EqDecision RenderMode.
Proof. solve_decision. Defined.

(** The two shader kinds [createShaderProgram] compiles, in this order. *)
Inductive ShaderType := VertexShader | FragmentShader.

(** What the WebGL context of the page answers to the calls of
    [createShaderProgram] and [compileShader]: whether [createShader] and
    [createProgram] return an object rather than null, and the compile and
    link status flags. *)
Module Gl.

Record t := mk {
  createShader : ShaderType → bool;
  compileStatus : ShaderType → bool;
  createProgram : bool;
  linkStatus : bool
}.

(** A context on which every call succeeds. *)
Definition working : t := mk (λ _, true) (λ _, true) true true.

End Gl.

(** The part of the page the engine touches: for each element id the
    canvases below it in document order, whether a canvas hands out a
    drawing context of either kind, the window size, and what a WebGL
    context answers once handed out. *)
Module Dom.

Record t := mk {
  containers : gmap string (list nat);
  nextCanvas : nat;
  context2d : bool;
  contextWebgl : bool;
  innerWidth : float;
  innerHeight : float;
  gl : Gl.t
}.

(** [document.createElement('canvas')] followed by
    [container.appendChild(canvas)]. *)
Definition appendCanvas (containerId : string) (cs : list nat) (d : t)
  : nat * t :=
  (nextCanvas d,
   mk (<[containerId := cs ++ [nextCanvas d]]> (containers d))
      (S (nextCanvas d)) (context2d d) (contextWebgl d)
      (innerWidth d) (innerHeight d) (gl d)).

(** [container.querySelector('canvas')?.remove()]: the first canvas goes. *)
Definition removeFirstCanvas (containerId : string) (d : t) : t :=
  match containers d !! containerId with
  | Some (_ :: cs) =>
      mk (<[containerId := cs]> (containers d)) (nextCanvas d)
         (context2d d) (contextWebgl d) (innerWidth d) (innerHeight d)
         (gl d)
  | _ => d
  end.

End Dom.

(** A renderer instance of either class: its canvas and its size options. *)
Record Renderer := mkRenderer { canvas : nat; width : float; height : float }.

Inductive Outcome (A : Type) :=
| Ok (a : A)
| Throw (message : string).
Arguments Ok {A} a.
Arguments Throw {A} message.

Definition notFound (containerId : string) : string :=
  "Container with id '" +:+ containerId +:+ "' not found".

(** [new Canvas2DRenderer(containerId, options)]. *)
Definition Canvas2DRenderer_new (containerId : string) (w h : float)
    (d : Dom.t) : Dom.t * Outcome Renderer :=
  match Dom.containers d !! containerId with
  | None => (d, Throw (notFound containerId))
  | Some cs =>
      let '(c, d1) := Dom.appendCanvas containerId cs d in
      if Dom.context2d d then (d1, Ok (mkRenderer c w h))
      else (d1, Throw "Could not get 2D context from canvas")
  end.

(** [WebGLRenderer.compileShader(source, type)]: throws when the context
    gives no shader object or reports a failed compilation. *)
Definition WebGLRenderer_compileShader (type : ShaderType) (gl : Gl.t)
  : Outcome unit :=
  if negb (Gl.createShader gl type) then Throw "Failed to create shader"
  else if negb (Gl.compileStatus gl type)
       then Throw "Shader compilation failed"
       else Ok tt.

(** [WebGLRenderer.createShaderProgram()]: the vertex shader, then the
    fragment shader, then the program and its linking; the first failure
    leaves the method as an exception. *)
Definition WebGLRenderer_createShaderProgram (gl : Gl.t) : Outcome unit :=
  match WebGLRenderer_compileShader VertexShader gl with
  | Throw msg => Throw msg
  | Ok _ =>
      match WebGLRenderer_compileShader FragmentShader gl with
      | Throw msg => Throw msg
      | Ok _ =>
          if negb (Gl.createProgram gl)
          then Throw "Failed to create shader program"
          else if negb (Gl.linkStatus gl)
               then Throw "Failed to link shader program"
               else Ok tt
      end
  end.

(** [new WebGLRenderer(containerId, options)]: the canvas is appended
    before the context is asked for, and the shader program is built last,
    so every failure but the missing container leaves the canvas on the
    page. *)
Definition WebGLRenderer_new (containerId : string) (w h : float)
    (d : Dom.t) : Dom.t * Outcome Renderer :=
  match Dom.containers d !! containerId with
  | None => (d, Throw (notFound containerId))
  | Some cs =>
      let '(c, d1) := Dom.appendCanvas containerId cs d in
      if Dom.contextWebgl d
      then match WebGLRenderer_createShaderProgram (Dom.gl d) with
           | Ok _ => (d1, Ok (mkRenderer c w h))
           | Throw msg => (d1, Throw msg)
           end
      else (d1, Throw "Could not initialize WebGL")
  end.

(** What one call leaves behind outside the engine object. *)
Inductive Effect :=
| Draw (backend : RenderMode) (r : Renderer)
| UpdateUI (fps objects : nat) (mode : RenderMode)
| RequestAnimationFrame.

Module GameEngine.

Record t := mk {
  scene : Scene.t;
  canvas2DRenderer : option Renderer;
  webglRenderer : option Renderer;
  (** the canvas the manager listens on, and the manager's state *)
  inputManager : option (nat * InputManager.t);
  renderMode : RenderMode;
  isRunning : bool;
  lastTime : float;
  frameCount : nat;
  fps : nat;
  fpsUpdateTime : float
}.

Definition initializeRenderer (containerId : string) (st : Dom.t * t)
  : Dom.t * t * option string :=
  let '(d, g) := st in
  match Dom.containers d !! containerId with
  | None => (d, g, Some (notFound containerId))
  | Some _ =>
      let w := Dom.innerWidth d in
      let h := (Dom.innerHeight d - 40)%float in
      match renderMode g with
      | Mode2D =>
          match Canvas2DRenderer_new containerId w h d with
          | (d1, Ok r) =>
              (d1,
               mk (scene g) (Some r) (webglRenderer g)
                  (Some (canvas r, InputManager.new)) (renderMode g)
                  (isRunning g) (lastTime g) (frameCount g) (fps g)
                  (fpsUpdateTime g),
               None)
          | (d1, Throw msg) => (d1, g, Some msg)
          end
      | Mode3D =>
          match WebGLRenderer_new containerId w h d with
          | (d1, Ok r) =>
              (d1,
               mk (scene g) (canvas2DRenderer g) (Some r)
                  (Some (canvas r, InputManager.new)) (renderMode g)
                  (isRunning g) (lastTime g) (frameCount g) (fps g)
                  (fpsUpdateTime g),
               None)
          | (d1, Throw msg) => (d1, g, Some msg)
          end
      end
  end.

(** [new GameEngine(containerId, renderMode = '2d')]. *)
Definition new (containerId : string) (mode : RenderMode) (d : Dom.t)
  : Dom.t * Outcome t :=
  let g0 := mk Scene.new None None None mode false 0 0 0 0 in
  match initializeRenderer containerId (d, g0) with
  | (d1, g, None) => (d1, Ok g)
  | (d1, _, Some msg) => (d1, Throw msg)
  end.

Definition getScene (g : t) : Scene.t := scene g.

Definition getInput (g : t) : option InputManager.t := snd <$> inputManager g.

(** [switchRenderMode(mode)].  The third component is the message of the
    exception that leaves the method, if one does. *)
Definition switchRenderMode (mode : RenderMode) (st : Dom.t * t)
  : Dom.t * t * option string :=
  let '(d, g) := st in
  if decide (mode = renderMode g) then (d, g, None)
  else
    let d1 := Dom.removeFirstCanvas "game-container" d in
    let g1 := mk (scene g) (canvas2DRenderer g) (webglRenderer g)
                 (inputManager g) mode (isRunning g) (lastTime g)
                 (frameCount g) (fps g) (fpsUpdateTime g) in
    initializeRenderer "game-container" (d1, g1).

(** The render step of the frame loop. *)
Definition renderStep (g : t) : list Effect :=
  match canvas2DRenderer g with
  | Some r => [Draw Mode2D r]
  | None =>
      match webglRenderer g with
      | Some r => [Draw Mode3D r]
      | None => []
      end
  end.

(** One run of [gameLoop]; [currentTime] is what [performance.now()]
    returns.  The result carries the store, the engine, the component
    instances whose [update] ran, and the effects in order. *)
Definition gameLoop (fuel : nat) (currentTime : float) (st : World * t)
  : option (World * t * list CId * list Effect) :=
  let '(w, g) := st in
  if negb (isRunning g) then Some (w, g, [], [])
  else
    let deltaTime := ((currentTime - lastTime g) / 1000)%float in
    '(w1, log) ← Scene_update fuel deltaTime (scene g) (w, []);
    let input := (λ '(c, i), (c, InputManager.update i)) <$> inputManager g in
    let frameCount1 := S (frameCount g) in
    let second := PrimFloat.leb 1000 (currentTime - fpsUpdateTime g) in
    let g1 :=
      mk (scene g) (canvas2DRenderer g) (webglRenderer g) input
         (renderMode g) (isRunning g) currentTime
         (if second then 0 else frameCount1)
         (if second then frameCount1 else fps g)
         (if second then currentTime else fpsUpdateTime g) in
    let ui := if second
              then [UpdateUI frameCount1 (getEntityCount (scene g))
                      (renderMode g)]
              else [] in
    Some (w1, g1, log, renderStep g ++ ui ++ [RequestAnimationFrame]).

(** [start()]: [now] is read by [start] itself, [now'] by the first run of
    [gameLoop], which [start] calls before it returns. *)
Definition start (fuel : nat) (now now' : float) (st : World * t)
  : option (World * t * list CId * list Effect) :=
  let '(w, g) := st in
  if isRunning g then Some (w, g, [], [])
  else
    gameLoop fuel now'
      (w, mk (scene g) (canvas2DRenderer g) (webglRenderer g)
             (inputManager g) (renderMode g) true now (frameCount g)
             (fps g) now).

Definition stop (g : t) : t :=
  mk (scene g) (canvas2DRenderer g) (webglRenderer g) (inputManager g)
     (renderMode g) false (lastTime g) (frameCount g) (fps g)
     (fpsUpdateTime g).

Definition getFPS (g : t) : nat := fps g.

End GameEngine.

(** [createEntity(name)]: [new Entity(name)] followed by
    [scene.addEntity(entity, name)]. *)
Definition createEntity (fuel : nat) (name : string)
    (st : World * GameEngine.t) : option (EId * World * GameEngine.t) :=
  let '(w, g) := st in
  let entity := fresh (dom (entities w)) in
  let w1 := setEnt entity (Entity.new name true) w in
  '(w2, s) ← addEntity fuel entity (Some name) (w1, GameEngine.scene g);
  Some (entity, w2,
        GameEngine.mk s (GameEngine.canvas2DRenderer g)
          (GameEngine.webglRenderer g) (GameEngine.inputManager g)
          (GameEngine.renderMode g) (GameEngine.isRunning g)
          (GameEngine.lastTime g) (GameEngine.frameCount g)
          (GameEngine.fps g) (GameEngine.fpsUpdateTime g)).

(** [destroyEntity(entity)]: [scene.removeEntity(entity)], then
    [entity.destroy()]. *)
Definition destroyEntity (fuel : nat) (entity : EId)
    (st : World * GameEngine.t) : option (World * GameEngine.t) :=
  let '(w, g) := st in
  '(w1, s) ← removeEntity fuel entity (w, GameEngine.scene g);
  Some (destroy entity w1,
        GameEngine.mk s (GameEngine.canvas2DRenderer g)
          (GameEngine.webglRenderer g) (GameEngine.inputManager g)
          (GameEngine.renderMode g) (GameEngine.isRunning g)
          (GameEngine.lastTime g) (GameEngine.frameCount g)
          (GameEngine.fps g) (GameEngine.fpsUpdateTime g)).

(** ** Methods and field accesses on instances in the store *)

(** The fields of the [Rigidbody2D] instance [this], if it is one. *)
Definition rigidbody (this : CId) (w : World) : option Rigidbody2D.t :=
  match comps w !! this with
  | Some (Component.mk _ _ (BRigidbody2D rb)) => Some rb
  | _ => None
  end.

(** The fields of the [Transform2D] instance [this], if it is one. *)
Definition transform2D (this : CId) (w : World) : option Transform2D.t :=
  match comps w !! this with
  | Some (Component.mk _ _ (BTransform2D tr)) => Some tr
  | _ => None
  end.

(** A method of [Rigidbody2D] that only touches the instance's own
    fields, run on the instance [this]. *)
Definition onRigidbody (f : Rigidbody2D.t → Rigidbody2D.t) (this : CId)
    (w : World) : World :=
  match comps w !! this with
  | Some (Component.mk en ow (BRigidbody2D rb)) =>
      setComp this (Component.mk en ow (BRigidbody2D (f rb))) w
  | _ => w
  end.

Definition Rigidbody2D_applyForce (force : Vector2.t) : CId → World → World :=
  onRigidbody (Rigidbody2D.applyForce force).

(** The assignment [body.isStatic = s]. *)
Definition Rigidbody2D_setIsStatic (s : bool) : CId → World → World :=
  onRigidbody (Rigidbody2D.with_isStatic s).

(** What a caller does to one body between frames: push it, or let a frame
    call its [update]. *)
Inductive BodyOp :=
| ApplyForce (force : Vector2.t)
| UpdateBody (deltaTime : float).

Definition bodyStep (this : CId) (op : BodyOp) (w : World) : World :=
  match op with
  | ApplyForce force => Rigidbody2D_applyForce force this w
  | UpdateBody deltaTime => Component_update deltaTime this w
  end.

Definition runBody (this : CId) (ops : list BodyOp) (w : World) : World :=
  foldl (λ w op, bodyStep this op w) w ops.

(** The forces among [ops], each divided by [mass], summed onto [a] in call
    order. *)
Definition accumulated (mass : float) (ops : list BodyOp) (a : Vector2.t)
  : Vector2.t :=
  foldl (λ a op,
           match op with
           | ApplyForce force =>
               Vector2.add a (Vector2.multiply force (1 / mass))
           | UpdateBody _ => a
           end) a ops.

(** ** Sequences of tree operations *)

Inductive TreeOp :=
| AddChild (this entity : EId)
| RemoveChild (this entity : EId)
| Destroy (this : EId).

Definition treeStep (op : TreeOp) (w : World) : World :=
  match op with
  | AddChild this entity => addChild this entity w
  | RemoveChild this entity => removeChild this entity w
  | Destroy this => destroy this w
  end.

Definition runTree (ops : list TreeOp) (w : World) : World :=
  foldl (λ w op, treeStep op w) w ops.

(** Child lists and parent references agree: a listed child points back to
    the lister, and an entity with a parent is listed there exactly once. *)
Definition consistent (w : World) : Prop :=
  (∀ p c, c ∈ getChildren p w → getParent c w = Some p) ∧
  (∀ c p, getParent c w = Some p →
          count_occ Nat.eq_dec (getChildren p w) c = 1).

(** The calls under which [consistent] is kept: a child is attached only
    while it has no parent, and an entity is destroyed only while its own
    child list is empty. *)
Definition treePre (op : TreeOp) (w : World) : Prop :=
  match op with
  | AddChild _ entity => getParent entity w = None
  | RemoveChild _ _ => True
  | Destroy this => getChildren this w = []
  end.

Fixpoint treeAllowed (ops : list TreeOp) (w : World) : Prop :=
  match ops with
  | [] => True
  | op :: ops' => treePre op w ∧ treeAllowed ops' (treeStep op w)
  end.

(** ** Sequences of scene operations *)

Inductive SceneOp :=
| AddEntity (entity : EId) (name : option string)
| RemoveEntity (entity : EId).

Definition sceneStep (fuel : nat) (op : SceneOp) (st : World * Scene.t)
  : option (World * Scene.t) :=
  match op with
  | AddEntity entity name => addEntity fuel entity name st
  | RemoveEntity entity => removeEntity fuel entity st
  end.

Definition runScene (fuel : nat) (ops : list SceneOp) (st : World * Scene.t)
  : option (World * Scene.t) :=
  foldl (λ acc op, acc ≫= sceneStep fuel op) (Some st) ops.

(** [d] is [e] or below it in the tree of child lists. *)
Inductive descendant (w : World) : EId → EId → Prop :=
| descendant_self e : descendant w e e
| descendant_child e c d :
    c ∈ getChildren e w → descendant w c d → descendant w e d.

(** The entities a scene holds: its roots and everything below them. *)
Definition registered (st : World * Scene.t) (e : EId) : Prop :=
  ∃ r, r ∈ Scene.rootEntities st.2 ∧ descendant st.1 r e.

(** The entities below [e], itself first, in the order [registerEntity]
    visits them. *)
Fixpoint subtree (fuel : nat) (w : World) (e : EId) : option (list EId) :=
  match fuel with
  | 0 => None
  | S fuel' =>
      foldl (λ acc child,
               l ← acc; l' ← subtree fuel' w child; Some (l ++ l'))
            (Some [e]) (getChildren e w)
  end.

Fixpoint forest (fuel : nat) (w : World) (roots : list EId)
  : option (list EId) :=
  match roots with
  | [] => Some []
  | r :: roots' =>
      l ← subtree fuel w r; R ← forest fuel w roots'; Some (l ++ R)
  end.

Definition names (w : World) (l : list EId) : list string :=
  (λ x, Entity.name (ent w x)) <$> l.

(** The last entity of [l] whose name is [name]. *)
Definition lastNamed (w : World) (name : string) (l : list EId)
  : option EId :=
  last (filter (λ x, Entity.name (ent w x) = name) l).

(** What [findEntity] is to return.  [forest] lists the scene's entities
    in the order they were registered: the roots in the order they were
    pushed, each followed by what is below it in visiting order.
    [findEntity(name)] is to be the last of them whose name is [name], and
    null when there is none. *)
Definition lookupSpec (st : World * Scene.t) : Prop :=
  ∃ fuel R, forest fuel st.1 (Scene.rootEntities st.2) = Some R ∧
            ∀ name, findEntity name st.2 = lastNamed st.1 name R.

(** The name [addEntity] settles on, and the store after the assignment
    [entity.name = entityName]. *)
Definition renamed (entity : EId) (name : option string) (w : World) : World :=
  updEnt entity
    (Entity.with_name
       match name with
       | Some n => if decide (n = "") then Entity.name (ent w entity) else n
       | None => Entity.name (ent w entity)
       end) w.

(** The calls under which the index stays in step with the scene.  An
    [addEntity] must not give a new name to an entity the scene already
    holds (and the walk below the entity must end); a [removeEntity] must
    not take away an entity whose name is also the name of an entity that
    stays. *)
Definition scenePre (fuel : nat) (op : SceneOp) (st : World * Scene.t) : Prop :=
  match op with
  | AddEntity entity name =>
      match forest fuel st.1 (Scene.rootEntities st.2),
            subtree fuel st.1 entity with
      | Some R, Some _ =>
          entity ∈ R →
          Entity.name (ent (renamed entity name st.1) entity)
          = Entity.name (ent st.1 entity)
      | _, _ => False
      end
  | RemoveEntity entity =>
      match indexOf entity (Scene.rootEntities st.2) with
      | None => True
      | Some i =>
          match subtree fuel st.1 entity,
                forest fuel st.1 (splice1 i (Scene.rootEntities st.2)) with
          | Some l, Some R' => ∀ k, k ∈ names st.1 l → k ∉ names st.1 R'
          | _, _ => False
          end
      end
  end.

Fixpoint sceneAllowed (fuel : nat) (ops : list SceneOp)
    (st : World * Scene.t) : Prop :=
  match ops with
  | [] => True
  | op :: ops' =>
      scenePre fuel op st ∧
      match sceneStep fuel op st with
      | Some st' => sceneAllowed fuel ops' st'
      | None => True
      end
  end.

(** ** Index bookkeeping used to state the scene's invariant *)

(** [registerEntity] and [unregisterEntity] over a list of entities in
    visiting order. *)
Definition regAll (w : World) (l : list EId) (index : gmap string EId)
  : gmap string EId :=
  foldl (λ m x, <[Entity.name (ent w x) := x]> m) index l.

Definition unregAll (w : World) (l : list EId) (index : gmap string EId)
  : gmap string EId :=
  foldl (λ m x, delete (Entity.name (ent w x)) m) index l.

(** The index is in step with the scene: under each name it holds the
    entity registered last among the scene's entities of that name. *)
Definition sceneInv (fuel : nat) (st : World * Scene.t) : Prop :=
  ∃ R, forest fuel st.1 (Scene.rootEntities st.2) = Some R ∧
       ∀ k, Scene.allEntities st.2 !! k = lastNamed st.1 k R.

(** Occurrences of an entity in a child list. *)
Abbreviation occ l x := (count_occ Nat.eq_dec l x).

(** ** Example states *)

(** A freshly constructed player: entity 0 with a [Transform2D] and a
    [Rigidbody2D] as their constructors leave them. *)
Definition demoWorld : World :=
  (addComponent Rigidbody2D 0 (addComponent Transform2D 0 emptyWorld).2).2.

(** The same player with a body of mass 2. *)
Definition heavyWorld : World :=
  setComp 1
    (Component.mk true (Some 0)
       (BRigidbody2D
          (Rigidbody2D.mk Vector2.zero Vector2.zero 2 0.1 false 9.8)))
    demoWorld.

(** The player's body made static before anything else happens. *)
Definition staticWorld : World := Rigidbody2D_setIsStatic true 1 demoWorld.

(** The active player of [demoWorld] (entity 0) made a child of entity 5,
    which is switched off. *)
Definition pausedWorld : World :=
  addChild 5 0 (updEnt 5 (Entity.with_active false) demoWorld).

(** A scene holding the player of [demoWorld] as its only root, under the
    name ['Player']. *)
Definition playerScene : option (World * Scene.t) :=
  addEntity 1 0 (Some "Player") (demoWorld, Scene.new).

(** An armed enemy: entity 6, named ['Gun'], is a child of entity 5. *)
Definition armedWorld : World :=
  addChild 5 6 (updEnt 6 (Entity.with_name "Gun") emptyWorld).

(** A page with an empty ['game-container'], both kinds of drawing context
    available, on which shaders compile and link. *)
Definition page : Dom.t :=
  Dom.mk {["game-container" := []]} 0 true true 800 640 Gl.working.

(** The 2D example's life: construct in 2D, [start()], then
    [switchRenderMode('3d')], then the next frame.  The result is the page
    and the engine after the switch, and the effects of the frame that
    follows it. *)
Definition switchTo3D : option (Dom.t * GameEngine.t * list Effect) :=
  match GameEngine.new "game-container" Mode2D page with
  | (d1, Ok g0) =>
      '(w1, g1, _, _) ← GameEngine.start 1 0 16 (emptyWorld, g0);
      match GameEngine.switchRenderMode Mode3D (d1, g1) with
      | (d2, g2, None) =>
          '(_, _, _, effects) ← GameEngine.gameLoop 1 32 (w1, g2);
          Some (d2, g2, effects)
      | _ => None
      end
  | _ => None
  end.

(** ** graphics/Canvas2DRenderer.ts and graphics/WebGLRenderer.ts : [render] *)









(** ** index.ts : [onWindowResize] *)

(** [renderer.resize(width, height)]. *)
Definition Renderer_resize (w h : float) (r : Renderer) : Renderer :=
  mkRenderer (canvas r) w h.

Definition onWindowResize (d : Dom.t) (g : GameEngine.t) : GameEngine.t :=
  let w := Dom.innerWidth d in
  let h := (Dom.innerHeight d - 40)%float in
  match GameEngine.canvas2DRenderer g with
  | Some r =>
      GameEngine.mk (GameEngine.scene g) (Some (Renderer_resize w h r))
        (GameEngine.webglRenderer g) (GameEngine.inputManager g)
        (GameEngine.renderMode g) (GameEngine.isRunning g)
        (GameEngine.lastTime g) (GameEngine.frameCount g)
        (GameEngine.fps g) (GameEngine.fpsUpdateTime g)
  | None =>
      match GameEngine.webglRenderer g with
      | Some r =>
          GameEngine.mk (GameEngine.scene g) None
            (Some (Renderer_resize w h r)) (GameEngine.inputManager g)
            (GameEngine.renderMode g) (GameEngine.isRunning g)
            (GameEngine.lastTime g) (GameEngine.frameCount g)
            (GameEngine.fps g) (GameEngine.fpsUpdateTime g)
      | None => g
      end
  end.

(** ** core/managers/Animation.ts : [Animate] *)

(** The double-quote character of the messages. *)
Definition dquote : string :=
  String (Ascii.Ascii false true false false false true false false)
         EmptyString.

Module Animate.
Section Animate.
(** The type of animation configurations ([any] in the source). *)
Context {Config : Type}.

(** The [animations] map, and what the calls so far wrote to the console,
    oldest first: the text and the configuration logged with it. *)
Record t := mk {
  animations : gmap string Config;
  console : list (string * option Config)
}.

Definition new : t := mk ∅ [].

Definition message (name rest : string) : string :=
  "Animation " +:+ dquote +:+ name +:+ dquote +:+ rest.

Definition startAnimation (name : string) (config : Config) (s : t)
  : t * Outcome unit :=
  if decide (is_Some (animations s !! name))
  then (s, Throw (message name " is already running"))
  else (mk (<[name := config]> (animations s))
           (console s ++ [(message name " started with config:",
                           Some config)]),
        Ok tt).

Definition createAnimation (name : string) (config : Config) (s : t)
  : t * Outcome unit :=
  if decide (is_Some (animations s !! name))
  then (s, Throw (message name " already exists"))
  else (mk (<[name := config]> (animations s))
           (console s ++ [(message name " created with config:",
                           Some config)]),
        Ok tt).

Definition stopAnimation (name : string) (s : t) : t * Outcome unit :=
  if decide (is_Some (animations s !! name))
  then (mk (delete name (animations s))
           (console s ++ [(message name " stopped", None)]),
        Ok tt)
  else (s, Throw (message name " is not running")).

Definition isRunning (name : string) (s : t) : bool :=
  bool_decide (is_Some (animations s !! name)).

(** [getAnimation(name)]: the configuration, or [undefined]. *)
Definition getAnimation (name : string) (s : t) : option Config :=
  animations s !! name.

(** A call that changes the manager. *)
Inductive Call :=
| Start (name : string) (config : Config)
| Create (name : string) (config : Config)
| Stop (name : string).

Definition call (c : Call) (s : t) : t * Outcome unit :=
  match c with
  | Start name config => startAnimation name config s
  | Create name config => createAnimation name config s
  | Stop name => stopAnimation name s
  end.

(** The animation a call is about. *)
Definition callName (c : Call) : string :=
  match c with
  | Start name _ | Create name _ | Stop name => name
  end.

(** A sequence of calls, each in a [try] of its own: an exception leaves
    the manager as it was and the next call goes ahead. *)
Definition calls (cs : list Call) (s : t) : t :=
  foldl (λ s c, (call c s).1) s cs.

End Animate.
Arguments t : clear implicits.
End Animate.

(** ** Sequences of registry operations *)

Inductive RegistryOp :=
| AddComponent (cls : CompClass) (this : EId)
| RemoveComponent (cls : CompClass) (this : EId).

Definition registryStep (op : RegistryOp) (w : World) : World :=
  match op with
  | AddComponent cls this => (addComponent cls this w).2
  | RemoveComponent cls this => removeComponent cls this w
  end.

Definition runRegistry (ops : list RegistryOp) (w : World) : World :=
  foldl (λ w op, registryStep op w) w ops.

(** Every instance a registry names exists, and names its entity as owner. *)
Definition registryOwned (w : World) : Prop :=
  ∀ e cls c, JsMap.get cls (Entity.components (ent w e)) = Some c →
             ∃ en body, comps w !! c = Some (Component.mk en (Some e) body)
                        ∧ classOf body = cls.

(** ** What a frame's update pass may change *)

(** A component body after an update pass, against the body before: the
    same class, and of a [Transform2D] the scale and rotation, of a
    [Rigidbody2D] the mass, friction, static flag and gravity are kept. *)
Definition bodyKept (a b : CompBody) : Prop :=
  match a, b with
  | BTransform2D t, BTransform2D t' =>
      Transform2D.scale t' = Transform2D.scale t ∧
      Transform2D.rotation t' = Transform2D.rotation t
  | BRigidbody2D r, BRigidbody2D r' =>
      Rigidbody2D.mass r' = Rigidbody2D.mass r ∧
      Rigidbody2D.friction r' = Rigidbody2D.friction r ∧
      Rigidbody2D.isStatic r' = Rigidbody2D.isStatic r ∧
      Rigidbody2D.gravity r' = Rigidbody2D.gravity r
  | BTransform3D, BTransform3D
  | BSprite, BSprite
  | BCircle, BCircle
  | BRectangle, BRectangle => True
  | _, _ => False
  end.

(** The store [w'] has the entities of [w] untouched and the same
    component instances, each with its enabled flag and owner as in [w]
    and its body kept in the sense of [bodyKept]. *)
Definition sameShape (w w' : World) : Prop :=
  entities w' = entities w ∧
  ∀ c, match comps w !! c, comps w' !! c with
       | Some a, Some b =>
           Component.isEnabled b = Component.isEnabled a ∧
           Component.entity b = Component.entity a ∧
           bodyKept (Component.body a) (Component.body b)
       | None, None => True
       | _, _ => False
       end.

(** What one state of the update pass is to an earlier one: the store has
    kept its shape and the list of invoked updates has only grown. *)
Definition updateKept (st st' : World * list CId) : Prop :=
  sameShape st.1 st'.1 ∧ ∃ more, st'.2 = st.2 ++ more.

(** [b] is strictly below [a]: reached over one or more child lists. *)
Inductive below (w : World) : EId → EId → Prop :=
| below_child a c : c ∈ getChildren a w → below w a c
| below_step a c b : c ∈ getChildren a w → below w c b → below w a b.

(** The same, over entities whose [active] flag is set: [a] and every
    entity passed on the way down to [b] is active. *)
Inductive belowActive (w : World) : EId → EId → Prop :=
| belowActive_child a c :
    Entity.active (ent w a) = true → c ∈ getChildren a w →
    belowActive w a c
| belowActive_step a c b :
    Entity.active (ent w a) = true → c ∈ getChildren a w →
    belowActive w c b → belowActive w a b.

(** An entity that is its own only child, active by default. *)
Definition loopWorld : World := addChild 3 3 emptyWorld.

(** A body on an entity that has no [Transform2D]. *)
Definition bareBodyWorld : World := (addComponent Rigidbody2D 0 emptyWorld).2.

(** ** Sequences of mode switches *)

(** [switchRenderMode] called with each mode in turn; an exception ends
    the sequence. *)
Definition switchAll (modes : list RenderMode) (st : Dom.t * GameEngine.t)
  : Dom.t * GameEngine.t * option string :=
  foldl (λ '(d, g, err) mode,
           match err with
           | Some _ => (d, g, err)
           | None => GameEngine.switchRenderMode mode (d, g)
           end) (st, None) modes.

(** The page and the engine agree: ['game-container'] holds exactly one
    canvas, the input manager listens on it, and it is the canvas of the
    renderer of the current mode. *)
Definition oneCanvas (st : Dom.t * GameEngine.t) : Prop :=
  ∃ c i,
    Dom.containers st.1 !! "game-container" = Some [c] ∧
    GameEngine.inputManager st.2 = Some (c, i) ∧
    canvas <$> (match GameEngine.renderMode st.2 with
                | Mode2D => GameEngine.canvas2DRenderer st.2
                | Mode3D => GameEngine.webglRenderer st.2
                end) = Some c.

(** * Properties *)

(** ** The store *)

Lemma comps_setComp (c c' : CId) (v : Component.t) (w : World) :
  comps (setComp c v w) !! c' = if decide (c = c') then Some v else comps w !! c'.
Proof. unfold setComp; simpl. apply lookup_insert. Qed.

Lemma entities_setComp (c : CId) (v : Component.t) (w : World) :
  entities (setComp c v w) = entities w.
Proof. reflexivity. Qed.

Lemma ent_setComp (c : CId) (v : Component.t) (w : World) (e : EId) :
  ent (setComp c v w) e = ent w e.
Proof. reflexivity. Qed.

Lemma ent_setEnt (e e' : EId) (v : Entity.t) (w : World) :
  ent (setEnt e v w) e' = if decide (e = e') then v else ent w e'.
Proof.
  unfold ent, setEnt; simpl. rewrite lookup_insert.
  by destruct (decide (e = e')).
Qed.

Lemma ent_updEnt (e e' : EId) (f : Entity.t → Entity.t) (w : World) :
  ent (updEnt e f w) e' = if decide (e = e') then f (ent w e) else ent w e'.
Proof. apply ent_setEnt. Qed.

Lemma comps_updEnt (e : EId) (f : Entity.t → Entity.t) (w : World) :
  comps (updEnt e f w) = comps w.
Proof. reflexivity. Qed.

(** ** Physics step *)

(** A static body's [update] returns at once. *)
Lemma Component_update_static (deltaTime : float) (this : CId) (w : World)
    (rb : Rigidbody2D.t) :
  rigidbody this w = Some rb → Rigidbody2D.isStatic rb = true →
  Component_update deltaTime this w = w.
Proof.
  unfold rigidbody, Component_update. intros Hrb Hst.
  destruct (comps w !! this) as [[en ow [| rb' | | | |]]|]; try done.
  simplify_eq/=. unfold Rigidbody2D_update. by rewrite Hst.
Qed.

(** A non-static body whose owner carries a [Transform2D]: the body gets
    the integrated fields, the transform is translated by the offset. *)
Lemma Component_update_integrates (deltaTime : float) (this transform : CId)
    (owner : EId) (w : World) (en en' : bool) (ow' : option EId)
    (rb : Rigidbody2D.t) (tr : Transform2D.t) :
  comps w !! this = Some (Component.mk en (Some owner) (BRigidbody2D rb)) →
  getComponent Transform2D owner w = Some transform →
  comps w !! transform = Some (Component.mk en' ow' (BTransform2D tr)) →
  Rigidbody2D.isStatic rb = false →
  let w' := Component_update deltaTime this w in
  rigidbody this w' = Some (Rigidbody2D.integrate deltaTime rb).1 ∧
  transform2D transform w' =
    Some (Transform2D.translate (Rigidbody2D.integrate deltaTime rb).2 tr).
Proof.
  intros Hthis Hget Htr Hst.
  assert (this ≠ transform) as Hne by (intros ->; congruence).
  unfold Component_update. rewrite Hthis. simpl.
  unfold Rigidbody2D_update. rewrite Hst. simpl. rewrite Hget, Htr.
  unfold rigidbody, transform2D.
  rewrite !comps_setComp.
  repeat case_decide; simplify_eq. by rewrite Hst.
Qed.

(** C4.  A non-static body with gravity 9.8, zero velocity and zero
    acceleration, owned by an entity that carries a [Transform2D]: one
    [update(1.0)] with friction 0 leaves velocity (0, 9.8) and adds (0, 9.8)
    to the transform's position; with friction 0.1 it leaves velocity
    (0, 8.82).  All arithmetic is binary64. *)
Theorem rigidbody_gravity_step (w : World) (this transform : CId)
    (owner : EId) (en en' : bool) (ow' : option EId)
    (rb : Rigidbody2D.t) (tr : Transform2D.t) :
  comps w !! this = Some (Component.mk en (Some owner) (BRigidbody2D rb)) →
  getComponent Transform2D owner w = Some transform →
  comps w !! transform = Some (Component.mk en' ow' (BTransform2D tr)) →
  Rigidbody2D.isStatic rb = false →
  Rigidbody2D.gravity rb = 9.8%float →
  Rigidbody2D.velocity rb = Vector2.zero →
  Rigidbody2D.acceleration rb = Vector2.zero →
  let w' := Component_update 1 this w in
  (Rigidbody2D.friction rb = 0%float →
     Rigidbody2D.velocity <$> rigidbody this w' = Some (Vector2.mk 0 9.8) ∧
     Transform2D.position <$> transform2D transform w' =
       Some (Vector2.add (Transform2D.position tr) (Vector2.mk 0 9.8))) ∧
  (Rigidbody2D.friction rb = 0.1%float →
     Rigidbody2D.velocity <$> rigidbody this w' = Some (Vector2.mk 0 8.82)).
Proof.
  intros Hthis Hget Htr Hst Hg Hv Ha w'.
  destruct (Component_update_integrates 1 this transform owner w en en' ow'
              rb tr Hthis Hget Htr Hst) as [Hrb Htr'].
  fold w' in Hrb, Htr'. rewrite Hrb, Htr'.
  unfold Rigidbody2D.integrate, Transform2D.translate. simpl.
  rewrite Hg, Hv, Ha. split; intros ->; [split|]; reflexivity.
Qed.

Lemma rigidbody_gravity_step_witness :
  Rigidbody2D.velocity <$> rigidbody 1 (Component_update 1 1 demoWorld)
  = Some (Vector2.mk 0 8.82).
Proof.
  apply (rigidbody_gravity_step demoWorld 1 0 0 true true (Some 0)
           Rigidbody2D.new Transform2D.new);
    reflexivity.
Defined.

(** C9.  On a body of mass 2, [applyForce(new Vector2(10, 0))] adds (5, 0)
    to the acceleration and touches no other field; when the body is not
    static and its owner carries a [Transform2D], the next [update]
    integrates from that acceleration. *)
Theorem applyForce_mass_two (w : World) (this : CId) (en : bool)
    (ow : option EId) (rb : Rigidbody2D.t) :
  comps w !! this = Some (Component.mk en ow (BRigidbody2D rb)) →
  Rigidbody2D.mass rb = 2%float →
  let w' := Rigidbody2D_applyForce (Vector2.mk 10 0) this w in
  rigidbody this w' =
    Some (Rigidbody2D.with_acceleration
            (Vector2.add (Rigidbody2D.acceleration rb) (Vector2.mk 5 0)) rb) ∧
  ∀ deltaTime owner transform en' ow' tr,
    ow = Some owner →
    getComponent Transform2D owner w = Some transform →
    comps w !! transform = Some (Component.mk en' ow' (BTransform2D tr)) →
    Rigidbody2D.isStatic rb = false →
    Rigidbody2D.velocity <$>
      rigidbody this (Component_update deltaTime this w') =
      Some (Vector2.multiply
              (Vector2.add (Rigidbody2D.velocity rb)
                 (Vector2.multiply
                    (Vector2.mk
                       (Vector2.x (Rigidbody2D.acceleration rb) + 5)
                       (Vector2.y (Rigidbody2D.acceleration rb) + 0
                        + Rigidbody2D.gravity rb))
                    deltaTime))
              (1 - Rigidbody2D.friction rb)).
Proof.
  intros Hthis Hm w'.
  assert (comps w' !! this =
            Some (Component.mk en ow
                    (BRigidbody2D
                       (Rigidbody2D.with_acceleration
                          (Vector2.add (Rigidbody2D.acceleration rb)
                             (Vector2.mk 5 0)) rb)))) as Hthis'.
  { unfold w', Rigidbody2D_applyForce, onRigidbody.
    rewrite Hthis, comps_setComp, decide_True by done.
    unfold Rigidbody2D.applyForce. rewrite Hm. reflexivity. }
  split; [unfold rigidbody; by rewrite Hthis'|].
  intros deltaTime owner transform en' ow' tr -> Hget Htr Hst.
  assert (this ≠ transform) as Hne by (intros ->; congruence).
  destruct (Component_update_integrates deltaTime this transform owner w'
              en en' ow' _ tr Hthis') as [Hrb _].
  { unfold w', Rigidbody2D_applyForce, onRigidbody. by rewrite Hthis. }
  { unfold w', Rigidbody2D_applyForce, onRigidbody.
    by rewrite Hthis, comps_setComp, decide_False. }
  { exact Hst. }
  rewrite Hrb. reflexivity.
Qed.

Lemma applyForce_mass_two_witness :
  Rigidbody2D.acceleration <$>
    rigidbody 1 (Rigidbody2D_applyForce (Vector2.mk 10 0) 1 heavyWorld)
  = Some (Vector2.mk 5 0) ∧
  Rigidbody2D.velocity <$>
    rigidbody 1
      (Component_update 1 1
         (Rigidbody2D_applyForce (Vector2.mk 10 0) 1 heavyWorld))
  = Some (Vector2.mk 4.5 8.82).
Proof.
  destruct (applyForce_mass_two heavyWorld 1 true (Some 0)
              (Rigidbody2D.mk Vector2.zero Vector2.zero 2 0.1 false 9.8))
    as [Hacc Hnext]; [reflexivity|reflexivity|].
  split.
  - rewrite Hacc. reflexivity.
  - apply (Hnext 1%float 0 0 true (Some 0) Transform2D.new); reflexivity.
Defined.

Lemma setComp_setComp (c : CId) (v v' : Component.t) (w : World) :
  setComp c v (setComp c v' w) = setComp c v w.
Proof. unfold setComp; simpl. by rewrite insert_insert_eq. Qed.

Lemma setComp_id (c : CId) (v : Component.t) (w : World) :
  comps w !! c = Some v → setComp c v w = w.
Proof. intros H. destruct w as [es cs]. unfold setComp; simpl in *. by rewrite insert_id. Qed.

(** On a static body, any mix of [applyForce] and [update] calls changes
    the acceleration of that body, to the sum of the scaled forces, and
    nothing else in the store. *)
Lemma runBody_static (this : CId) (ops : list BodyOp) (w : World)
    (en : bool) (ow : option EId) (rb : Rigidbody2D.t) :
  comps w !! this = Some (Component.mk en ow (BRigidbody2D rb)) →
  Rigidbody2D.isStatic rb = true →
  runBody this ops w =
    setComp this
      (Component.mk en ow
         (BRigidbody2D
            (Rigidbody2D.with_acceleration
               (accumulated (Rigidbody2D.mass rb) ops
                  (Rigidbody2D.acceleration rb)) rb))) w.
Proof.
  revert w rb. induction ops as [|op ops IH]; intros w rb Hthis Hst.
  - simpl. symmetry. apply setComp_id. by destruct rb.
  - change (runBody this (op :: ops) w)
      with (runBody this ops (bodyStep this op w)).
    destruct op as [force|dt]; simpl.
    + unfold Rigidbody2D_applyForce, onRigidbody. rewrite Hthis.
      erewrite IH; [|by rewrite comps_setComp, decide_True|done].
      by rewrite setComp_setComp.
    + rewrite (Component_update_static dt this w rb);
        [by apply IH| by unfold rigidbody; rewrite Hthis | done].
Qed.

(** C10.  [applyForce] does not look at [isStatic]: on a static body it
    still adds the force divided by the mass, which it computes as
    [force.multiply(1 / mass)], to the acceleration; and the static body's
    [update] returns before the reset.  So over any mix of [applyForce] and
    [update] calls on a static body the forces add up while velocity and
    position stay put, and once [isStatic] is cleared the first [update]
    integrates the whole accumulated acceleration and then resets it. *)
Theorem static_body_accumulates_force (w : World) (this transform : CId)
    (owner : EId) (en en' : bool) (ow' : option EId)
    (rb : Rigidbody2D.t) (tr : Transform2D.t)
    (ops : list BodyOp) (deltaTime : float) :
  comps w !! this = Some (Component.mk en (Some owner) (BRigidbody2D rb)) →
  getComponent Transform2D owner w = Some transform →
  comps w !! transform = Some (Component.mk en' ow' (BTransform2D tr)) →
  Rigidbody2D.isStatic rb = true →
  (∀ force,
     rigidbody this (Rigidbody2D_applyForce force this w) =
       Some (Rigidbody2D.with_acceleration
               (Vector2.add (Rigidbody2D.acceleration rb)
                  (Vector2.multiply force (1 / Rigidbody2D.mass rb))) rb)) ∧
  let acc := accumulated (Rigidbody2D.mass rb) ops
               (Rigidbody2D.acceleration rb) in
  let w1 := runBody this ops w in
  rigidbody this w1 = Some (Rigidbody2D.with_acceleration acc rb) ∧
  transform2D transform w1 = Some tr ∧
  let w2 :=
    Component_update deltaTime this (Rigidbody2D_setIsStatic false this w1) in
  Rigidbody2D.velocity <$> rigidbody this w2 =
    Some (Vector2.multiply
            (Vector2.add (Rigidbody2D.velocity rb)
               (Vector2.multiply
                  (Vector2.mk (Vector2.x acc)
                     (Vector2.y acc + Rigidbody2D.gravity rb)) deltaTime))
            (1 - Rigidbody2D.friction rb)) ∧
  Rigidbody2D.acceleration <$> rigidbody this w2 = Some Vector2.zero ∧
  transform2D transform w2 =
    Some (Transform2D.translate
            (Rigidbody2D.integrate deltaTime
               (Rigidbody2D.with_isStatic false
                  (Rigidbody2D.with_acceleration acc rb))).2 tr).
Proof.
  intros Hthis Hget Htr Hst.
  assert (this ≠ transform) as Hne by (intros ->; congruence).
  split.
  { intros force. unfold Rigidbody2D_applyForce, onRigidbody, rigidbody.
    rewrite Hthis, comps_setComp, decide_True by done. done. }
  intros acc w1.
  assert (w1 = setComp this
                 (Component.mk en (Some owner)
                    (BRigidbody2D (Rigidbody2D.with_acceleration acc rb))) w)
    as Hw1 by (by apply runBody_static).
  split; [|split].
  { unfold rigidbody. by rewrite Hw1, comps_setComp, decide_True. }
  { unfold transform2D. by rewrite Hw1, comps_setComp, decide_False, Htr. }
  intros w2.
  set (rb1 := Rigidbody2D.with_isStatic false
                (Rigidbody2D.with_acceleration acc rb)).
  destruct (Component_update_integrates deltaTime this transform owner
              (Rigidbody2D_setIsStatic false this w1) en en' ow' rb1 tr)
    as [Hrb Htr'].
  { unfold Rigidbody2D_setIsStatic, onRigidbody.
    rewrite Hw1, comps_setComp, decide_True by done.
    by rewrite comps_setComp, decide_True. }
  { unfold Rigidbody2D_setIsStatic, onRigidbody.
    rewrite Hw1, comps_setComp, decide_True by done. exact Hget. }
  { unfold Rigidbody2D_setIsStatic, onRigidbody.
    rewrite Hw1, comps_setComp, decide_True by done.
    by rewrite !comps_setComp, !decide_False. }
  { done. }
  fold w2 in Hrb, Htr'. rewrite Hrb, Htr'. done.
Qed.

Lemma static_body_accumulates_force_witness :
  Rigidbody2D.velocity <$>
    rigidbody 1
      (Component_update 1 1
         (Rigidbody2D_setIsStatic false 1
            (runBody 1 [ApplyForce (Vector2.mk 10 0); UpdateBody 1;
                        ApplyForce (Vector2.mk 2 0)] staticWorld)))
  = Some (Vector2.mk 10.8 8.82).
Proof.
  refine (proj1 (proj2 (proj2 (proj2
            (static_body_accumulates_force staticWorld 1 0 0 true true
               (Some 0) (Rigidbody2D.with_isStatic true Rigidbody2D.new)
               Transform2D.new
               [ApplyForce (Vector2.mk 10 0); UpdateBody 1;
                ApplyForce (Vector2.mk 2 0)] 1 _ _ _ _))))); reflexivity.
Defined.

(** ** Component registry *)

Lemma JsMap_get_set {K V : Type} `{EqDecision K} (k k' : K) (v : V)
    (m : list (K * V)) :
  JsMap.get k' (JsMap.set k v m) =
    if decide (k' = k) then Some v else JsMap.get k' m.
Proof.
  induction m as [|[k0 v0] m IH]; simpl.
  - by destruct (decide (k' = k)).
  - destruct (decide (k = k0)) as [->|Hne]; simpl.
    + by destruct (decide (k' = k0)).
    + destruct (decide (k' = k0)) as [->|Hne']; [|done].
      by rewrite decide_False.
Qed.

Lemma getComponent_addComponent (cls cls' : CompClass) (this : EId)
    (w : World) :
  getComponent cls' this (addComponent cls this w).2 =
    if decide (cls' = cls) then Some (addComponent cls this w).1
    else getComponent cls' this w.
Proof.
  unfold getComponent, addComponent. cbn [fst snd].
  rewrite ent_updEnt, decide_True by done. cbn [Entity.components Entity.with_components].
  by rewrite ent_setComp, JsMap_get_set.
Qed.

(** The instance [addComponent] hands out is new: no instance of the store
    has its identity. *)
Lemma addComponent_fresh (cls : CompClass) (this : EId) (w : World) :
  comps w !! (addComponent cls this w).1 = None ∧
  is_Some (comps (addComponent cls this w).2 !! (addComponent cls this w).1).
Proof.
  unfold addComponent. cbn [fst snd]. split.
  - apply not_elem_of_dom, is_fresh.
  - rewrite comps_updEnt, comps_setComp, decide_True by done. eauto.
Qed.

(** C6.  [getComponent(T)] right after [addComponent(T)] returns the
    instance [addComponent] returned; after a second [addComponent(T)] it
    returns the second instance, which is another object than the first,
    so the first is no longer what [getComponent(T)] returns. *)
Theorem getComponent_after_addComponent (T : CompClass) (this : EId)
    (w : World) :
  let '(first, w1) := addComponent T this w in
  let '(second, w2) := addComponent T this w1 in
  getComponent T this w1 = Some first ∧
  getComponent T this w2 = Some second ∧
  second ≠ first ∧
  getComponent T this w2 ≠ Some first.
Proof.
  pose proof (getComponent_addComponent T T this w) as H1.
  pose proof (addComponent_fresh T this w) as [_ Hin].
  destruct (addComponent T this w) as [first w1] eqn:E1.
  pose proof (getComponent_addComponent T T this w1) as H2.
  pose proof (addComponent_fresh T this w1) as [Hout _].
  destruct (addComponent T this w1) as [second w2] eqn:E2.
  simpl in *. rewrite decide_True in H1, H2 by done.
  assert (second ≠ first) as Hne.
  { intros ->. rewrite Hout in Hin. by destruct Hin. }
  repeat split; try done. rewrite H2. congruence.
Qed.

(** ** Per-frame update *)

(** C7.  [update] on an entity whose [active] flag is false returns at
    once: the store is as before and no component [update] was invoked,
    neither on the entity nor below it, whatever the descendants' flags. *)
Theorem inactive_entity_skips_subtree (fuel : nat) (deltaTime : float)
    (this : EId) (w : World) :
  Entity.active (ent w this) = false →
  Entity_update (S fuel) deltaTime this (w, []) = Some (w, []).
Proof. intros H. simpl. by rewrite H. Qed.

Lemma inactive_entity_skips_subtree_witness :
  Entity_update 3 1 5 (pausedWorld, []) = Some (pausedWorld, []) ∧
  Entity.active (ent pausedWorld 0) = true ∧
  snd <$> Entity_update 3 1 0 (pausedWorld, []) = Some [0; 1].
Proof.
  split; [|split].
  - apply (inactive_entity_skips_subtree 2 1 5 pausedWorld). reflexivity.
  - reflexivity.
  - reflexivity.
Defined.

(** ** Tree operations and the scene index *)

(** ** Input edges *)

Section InputEdges.
Import InputManager.

Lemma run_cons (x : Step) (xs : list Step) (s : t) :
  run (x :: xs) s = run xs (step x s).
Proof. reflexivity. Qed.

Lemma run_app (xs ys : list Step) (s : t) :
  run (xs ++ ys) s = run ys (run xs s).
Proof. apply foldl_app. Qed.

(** Only the key's own release takes it out of the held set. *)
Lemma held_step (key : string) (x : Step) (s : t) :
  x ≠ Raw (KeyUp key) → key ∈ keysPressed s → key ∈ keysPressed (step x s).
Proof.
  intros Hx Hin. destruct x as [[k|k| | | | | | |]|]; simpl; try done.
  - set_solver.
  - assert (k ≠ key) by congruence. set_solver.
Qed.

(** Only [update()] takes a key out of the just-pressed set. *)
Lemma justPressed_step (key : string) (x : Step) (s : t) :
  x ≠ Update → key ∈ keysJustPressed s → key ∈ keysJustPressed (step x s).
Proof.
  intros Hx Hin. destruct x as [[k|k| | | | | | |]|]; simpl; try done.
  case_decide; set_solver.
Qed.

(** A held key is not marked again. *)
Lemma notJustPressed_step (key : string) (x : Step) (s : t) :
  key ∈ keysPressed s → key ∉ keysJustPressed s →
  key ∉ keysJustPressed (step x s).
Proof.
  intros Hheld Hnot. destruct x as [[k|k| | | | | | |]|]; simpl; try done.
  case_decide; set_solver.
Qed.

Lemma held_run (key : string) (xs : list Step) (s : t) :
  Forall (λ x, x ≠ Raw (KeyUp key)) xs →
  key ∈ keysPressed s → key ∈ keysPressed (run xs s).
Proof.
  intros Hxs. revert s. induction Hxs as [|x xs Hx _ IH]; intros s Hin.
  - done.
  - rewrite run_cons. by apply IH, held_step.
Qed.

Lemma justPressed_run (key : string) (xs : list Step) (s : t) :
  Forall (λ x, x ≠ Update) xs →
  key ∈ keysJustPressed s → key ∈ keysJustPressed (run xs s).
Proof.
  intros Hxs. revert s. induction Hxs as [|x xs Hx _ IH]; intros s Hin.
  - done.
  - rewrite run_cons. by apply IH, justPressed_step.
Qed.

Lemma notJustPressed_run (key : string) (xs : list Step) (s : t) :
  Forall (λ x, x ≠ Raw (KeyUp key)) xs →
  key ∈ keysPressed s → key ∉ keysJustPressed s →
  key ∉ keysJustPressed (run xs s).
Proof.
  intros Hxs. revert s. induction Hxs as [|x xs Hx _ IH]; intros s Hheld Hnot.
  - done.
  - rewrite run_cons. apply IH.
    + by apply held_step.
    + by apply notJustPressed_step.
Qed.

(** C5.  A raw press of a key that is not held: [isKeyJustPressed] is true
    from then on through any raw events, up to the next [update()]; after
    that [update()] it is false for as long as the key is not released,
    over any number of further frames and repeated press events; and
    [isKeyPressed] is true from the press until the key's raw release,
    which makes it false. *)
Theorem key_press_edge_lasts_one_update (key : string) (s : t) :
  isKeyPressed key s = false →
  let pressed := handle (KeyDown key) s in
  (∀ xs, Forall (λ x, x ≠ Update) xs →
         isKeyJustPressed key (run xs pressed) = true) ∧
  (∀ xs ys,
     Forall (λ x, x ≠ Update) xs →
     Forall (λ x, x ≠ Raw (KeyUp key)) xs →
     Forall (λ x, x ≠ Raw (KeyUp key)) ys →
     isKeyJustPressed key (run ys (update (run xs pressed))) = false) ∧
  (∀ xs, Forall (λ x, x ≠ Raw (KeyUp key)) xs →
         isKeyPressed key (run xs pressed) = true ∧
         isKeyPressed key (handle (KeyUp key) (run xs pressed)) = false).
Proof.
  intros Hfree pressed.
  apply bool_decide_eq_false in Hfree.
  assert (key ∈ keysPressed pressed) as Hheld by (simpl; set_solver).
  assert (key ∈ keysJustPressed pressed) as Hjust.
  { simpl. rewrite decide_False by done. set_solver. }
  split; [|split].
  - intros xs Hxs. apply bool_decide_eq_true. by apply justPressed_run.
  - intros xs ys Hxs Hup Hys. apply bool_decide_eq_false.
    apply notJustPressed_run; [done| |].
    + simpl. by apply held_run.
    + simpl. set_solver.
  - intros xs Hxs. split.
    + apply bool_decide_eq_true. by apply held_run.
    + apply bool_decide_eq_false. simpl. set_solver.
Qed.

End InputEdges.

(** Jump is pressed, the pointer moves and the key auto-repeats before the
    frame ends; two more frames pass with the key down. *)
Lemma key_press_edge_lasts_one_update_witness :
  let pressed := InputManager.handle (InputManager.KeyDown "w")
                   InputManager.new in
  let moved := [InputManager.Raw
                  (InputManager.MouseMove 3 4 (InputManager.mkRect 1 1));
                InputManager.Raw (InputManager.KeyDown "w")] in
  InputManager.isKeyJustPressed "w" (InputManager.run moved pressed) = true ∧
  InputManager.isKeyJustPressed "w"
    (InputManager.run
       [InputManager.Raw (InputManager.KeyDown "w"); InputManager.Update]
       (InputManager.update (InputManager.run moved pressed))) = false.
Proof.
  intros pressed moved.
  destruct (key_press_edge_lasts_one_update "w" InputManager.new)
    as (Hjust & Hafter & _); [reflexivity|].
  split.
  - apply Hjust. repeat constructor; discriminate.
  - apply Hafter; repeat constructor; discriminate.
Defined.

(** ** Frame loop and render mode *)

(** C3, at the failing input.  After a successful switch from 2D to 3D the
    engine's mode is 3D and a WebGL renderer exists on a canvas of the
    page, yet the next frame draws through the 2D renderer, whose canvas
    the switch took off the page. *)
Theorem frame_after_switch_draws_2d :
  ∃ d g effects r2d r3d,
    switchTo3D = Some (d, g, effects) ∧
    GameEngine.renderMode g = Mode3D ∧
    GameEngine.webglRenderer g = Some r3d ∧
    GameEngine.canvas2DRenderer g = Some r2d ∧
    Dom.containers d !! "game-container" = Some [canvas r3d] ∧
    canvas r2d ≠ canvas r3d ∧
    effects = [Draw Mode2D r2d; RequestAnimationFrame].
Proof.
  eexists _, _, _, _, _. split; [vm_compute; reflexivity|].
  repeat split; try reflexivity. simpl. discriminate.
Qed.

(** The same, for every engine: once a 2D renderer has been built, a
    successful switch to 3D leaves it in place, and the render step keeps
    choosing it. *)
Lemma switch_keeps_2d_renderer (d d' : Dom.t) (g g' : GameEngine.t)
    (r : Renderer) :
  GameEngine.canvas2DRenderer g = Some r →
  GameEngine.renderMode g = Mode2D →
  GameEngine.switchRenderMode Mode3D (d, g) = (d', g', None) →
  GameEngine.renderMode g' = Mode3D ∧
  GameEngine.renderStep g' = [Draw Mode2D r].
Proof.
  intros Hr Hm. unfold GameEngine.switchRenderMode.
  rewrite Hm, decide_False by done.
  unfold GameEngine.initializeRenderer. simpl.
  destruct (Dom.containers _ !! _); [|intros [=]].
  unfold WebGLRenderer_new.
  destruct (Dom.containers _ !! _); [|intros [=]].
  simpl. destruct (Dom.contextWebgl _); [|intros [=]].
  destruct (WebGLRenderer_createShaderProgram _); intros [= <- <-].
  unfold GameEngine.renderStep. simpl. by rewrite Hr.
Qed.

(** ** Parent references and child lists *)

Lemma occ_elem_of (l : list EId) (x : EId) : x ∈ l ↔ occ l x > 0.
Proof. rewrite list_elem_of_In. apply count_occ_In. Qed.

Lemma occ_not_elem_of (l : list EId) (x : EId) : x ∉ l ↔ occ l x = 0.
Proof. rewrite list_elem_of_In. apply count_occ_not_In. Qed.

Lemma indexOf_Some (x : EId) (l : list EId) (i : nat) :
  indexOf x l = Some i → x ∈ l.
Proof.
  revert i. induction l as [|y l IH]; intros i; simpl; [done|].
  destruct (decide (x = y)) as [->|Hne]; [set_solver|].
  destruct (indexOf x l) as [j|]; [|done]. intros _.
  apply elem_of_cons. right. by eapply IH.
Qed.

Lemma indexOf_None (x : EId) (l : list EId) : indexOf x l = None → x ∉ l.
Proof.
  induction l as [|y l IH]; simpl; [set_solver|].
  destruct (decide (x = y)) as [->|Hne]; [done|].
  destruct (indexOf x l) as [j|]; [done|]. intros _.
  apply not_elem_of_cons. split; [done|by apply IH].
Qed.

(** [splice(indexOf(c), 1)] takes out one occurrence of [c] and nothing
    else. *)
Lemma occ_splice1 (c x : EId) (l : list EId) (i : nat) :
  indexOf c l = Some i →
  occ (splice1 i l) x = if decide (x = c) then pred (occ l x) else occ l x.
Proof.
  revert i. induction l as [|y l IH]; intros i; simpl; [done|].
  destruct (decide (c = y)) as [->|Hne].
  - intros [= <-]. unfold splice1; simpl. rewrite drop_0.
    destruct (Nat.eq_dec y x) as [->|Hyx].
    + by rewrite decide_True.
    + rewrite decide_False by congruence; done.
  - destruct (indexOf c l) as [j|] eqn:E; [|done]. intros [= <-].
    change (splice1 (S j) (y :: l)) with (y :: splice1 j l). simpl.
    rewrite (IH j eq_refl).
    destruct (Nat.eq_dec y x) as [->|Hyx]; [|done].
    destruct (decide (x = c)); [congruence|done].
Qed.

Lemma children_addChild (p c q : EId) (w : World) :
  getChildren q (addChild p c w) =
    if decide (q = p) then getChildren p w ++ [c] else getChildren q w.
Proof.
  unfold getChildren, addChild. rewrite !ent_updEnt.
  repeat case_decide; by simplify_eq.
Qed.

Lemma parent_addChild (p c x : EId) (w : World) :
  getParent x (addChild p c w) =
    if decide (x = c) then Some p else getParent x w.
Proof.
  unfold getParent, addChild. rewrite !ent_updEnt.
  repeat case_decide; by simplify_eq.
Qed.

Lemma children_removeChild (p c q : EId) (w : World) (i : nat) :
  indexOf c (getChildren p w) = Some i →
  getChildren q (removeChild p c w) =
    if decide (q = p) then splice1 i (getChildren p w) else getChildren q w.
Proof.
  unfold getChildren, removeChild. intros ->. rewrite !ent_updEnt.
  repeat case_decide; by simplify_eq.
Qed.

Lemma parent_removeChild (p c x : EId) (w : World) (i : nat) :
  indexOf c (getChildren p w) = Some i →
  getParent x (removeChild p c w) =
    if decide (x = c) then None else getParent x w.
Proof.
  unfold getChildren, getParent, removeChild. intros ->. rewrite !ent_updEnt.
  repeat case_decide; by simplify_eq.
Qed.

Lemma consistent_addChild (p c : EId) (w : World) :
  consistent w → getParent c w = None → consistent (addChild p c w).
Proof.
  intros [Hdown Hup] Hfree. split.
  - intros q x. rewrite children_addChild, parent_addChild.
    destruct (decide (x = c)) as [->|Hx].
    + case_decide as Hq; [by subst|].
      intros Hin. apply Hdown in Hin. congruence.
    + case_decide as Hq; [subst q|by apply Hdown].
      rewrite elem_of_app, list_elem_of_singleton.
      intros [Hin|?]; [by apply Hdown|done].
  - intros x q. rewrite children_addChild, parent_addChild.
    destruct (decide (x = c)) as [->|Hx].
    + intros [= <-]. rewrite decide_True by done.
      rewrite count_occ_app. simpl.
      destruct (Nat.eq_dec c c) as [_|]; [|done].
      assert (c ∉ getChildren p w) as Hnot.
      { intros Hin. apply Hdown in Hin. congruence. }
      apply occ_not_elem_of in Hnot. lia.
    + intros Hq. apply Hup in Hq. case_decide as Hqp; [subst q|done].
      rewrite count_occ_app. simpl.
      destruct (Nat.eq_dec c x) as [->|_]; [done|lia].
Qed.

Lemma consistent_removeChild (p c : EId) (w : World) :
  consistent w → consistent (removeChild p c w).
Proof.
  intros [Hdown Hup].
  destruct (indexOf c (getChildren p w)) as [i|] eqn:E;
    [|unfold removeChild, getChildren in *; by rewrite E].
  pose proof (indexOf_Some _ _ _ E) as Hin.
  pose proof (Hdown _ _ Hin) as Hpar.
  pose proof (Hup _ _ Hpar) as Hone.
  split.
  - intros q x.
    rewrite (children_removeChild _ _ _ _ _ E), (parent_removeChild _ _ _ _ _ E).
    case_decide as Hq; [subst q|].
    + rewrite occ_elem_of, (occ_splice1 _ _ _ _ E).
      destruct (decide (x = c)) as [->|Hx]; [lia|].
      rewrite <- occ_elem_of. apply Hdown.
    + intros Hx. destruct (decide (x = c)) as [->|_]; [|by apply Hdown].
      apply Hdown in Hx. congruence.
  - intros x q.
    rewrite (children_removeChild _ _ _ _ _ E), (parent_removeChild _ _ _ _ _ E).
    destruct (decide (x = c)) as [->|Hx]; [done|].
    intros Hq. apply Hup in Hq. case_decide as Hqp; [subst q|done].
    by rewrite (occ_splice1 _ _ _ _ E), decide_False.
Qed.

Lemma consistent_destroy (this : EId) (w : World) :
  consistent w → getChildren this w = [] → consistent (destroy this w).
Proof.
  intros Hc Hleaf. unfold destroy.
  set (w1 := match Entity.parent (ent w this) with
             | Some p => removeChild p this w
             | None => w
             end).
  assert (consistent w1) as [Hdown Hup].
  { unfold w1. destruct (Entity.parent (ent w this));
      [by apply consistent_removeChild|done]. }
  assert (getChildren this w1 = []) as Hleaf1.
  { unfold w1. destruct (Entity.parent (ent w this)) as [p|] eqn:Hp; [|done].
    destruct (indexOf this (getChildren p w)) as [i|] eqn:E;
      [|unfold removeChild, getChildren in *; by rewrite E].
    rewrite (children_removeChild _ _ _ _ _ E).
    case_decide as Hq; [subst p|done].
    rewrite Hleaf in E. done. }
  assert (∀ q, getChildren q
                 (updEnt this (λ e, Entity.with_children []
                                      (Entity.with_components [] e)) w1)
               = getChildren q w1) as Hch.
  { intros q. unfold getChildren in *. rewrite ent_updEnt.
    case_decide; [subst q; simpl; by rewrite Hleaf1|done]. }
  assert (∀ x, getParent x
                 (updEnt this (λ e, Entity.with_children []
                                      (Entity.with_components [] e)) w1)
               = getParent x w1) as Hpa.
  { intros x. unfold getParent. rewrite ent_updEnt.
    case_decide; [by subst x|done]. }
  split.
  - intros p c. rewrite Hch, Hpa. apply Hdown.
  - intros c p. rewrite Hch, Hpa. apply Hup.
Qed.

Lemma consistent_emptyWorld : consistent emptyWorld.
Proof. split; [intros p c Hin; by apply elem_of_nil in Hin|done]. Qed.

(** C2, as amended.  Starting from a consistent store, every sequence of
    [addChild], [removeChild] and [destroy] calls in which [addChild] is
    given only entities without a parent, and [destroy] is called only on
    entities without children, leaves child lists and parent references
    consistent. *)
Theorem tree_consistent_under_guarded_calls (ops : list TreeOp) (w : World) :
  consistent w → treeAllowed ops w → consistent (runTree ops w).
Proof.
  revert w. induction ops as [|op ops IH]; intros w Hc Hok; [done|].
  destruct Hok as [Hpre Hok].
  change (runTree (op :: ops) w) with (runTree ops (treeStep op w)).
  apply IH; [|done].
  destruct op as [p c|p c|e]; simpl in *.
  - by apply consistent_addChild.
  - by apply consistent_removeChild.
  - by apply consistent_destroy.
Qed.

Lemma tree_consistent_under_guarded_calls_witness :
  consistent
    (runTree [AddChild 0 1; AddChild 0 2; AddChild 1 3; RemoveChild 0 1;
              Destroy 2; AddChild 2 1] emptyWorld).
Proof.
  apply tree_consistent_under_guarded_calls.
  - apply consistent_emptyWorld.
  - repeat split; reflexivity.
Defined.

(** C2, as stated, fails: a child handed to a second parent stays in the
    first parent's list while its parent reference names the second. *)
Lemma tree_inconsistent_after_second_addChild :
  ¬ consistent (runTree [AddChild 0 2; AddChild 1 2] emptyWorld).
Proof.
  intros [Hdown _]. specialize (Hdown 0 2).
  assert (2 ∈ getChildren 0 (runTree [AddChild 0 2; AddChild 1 2] emptyWorld))
    as Hin by (apply list_elem_of_singleton; reflexivity).
  apply Hdown in Hin. vm_compute in Hin. discriminate Hin.
Qed.

(** ** The scene's name index *)

Lemma foldl_bind_None {A B : Type} (f : B → A → option A) (l : list B) :
  foldl (λ acc b, acc ≫= f b) None l = None.
Proof. induction l as [|b l IH]; [done|]. simpl. apply IH. Qed.

Lemma foldl_collect_None (f : EId → option (list EId)) (l : list EId) :
  foldl (λ acc b, x ← acc; y ← f b; Some (x ++ y)) None l = None.
Proof. induction l as [|b l IH]; [done|]. simpl. apply IH. Qed.

(** The walk over a child list, spelled out: one sublist per child. *)
Lemma foldl_collect_Some (f : EId → option (list EId)) (ch : list EId)
    (l0 l : list EId) :
  foldl (λ acc b, x ← acc; y ← f b; Some (x ++ y)) (Some l0) ch = Some l ↔
  ∃ ls, Forall2 (λ c lc, f c = Some lc) ch ls ∧ l = l0 ++ concat ls.
Proof.
  revert l0. induction ch as [|c ch IH]; intros l0; simpl.
  - split.
    + intros [= <-]. exists []. split; [constructor|]. simpl. by rewrite app_nil_r.
    + intros (ls & Hls & ->). apply Forall2_nil_inv_l in Hls as ->.
      simpl. by rewrite app_nil_r.
  - destruct (f c) as [lc|] eqn:Ec; simpl.
    + rewrite IH. split.
      * intros (ls & Hls & ->). exists (lc :: ls). split; [by constructor|].
        simpl. by rewrite app_assoc.
      * intros (ls & Hls & ->).
        apply Forall2_cons_inv_l in Hls as (lc' & ls' & Hc & Hls & ->).
        rewrite Ec in Hc. injection Hc as <-.
        exists ls'. split; [done|]. simpl. by rewrite app_assoc.
    + rewrite foldl_collect_None. split; [done|].
      intros (ls & Hls & _).
      apply Forall2_cons_inv_l in Hls as (lc' & ls' & Hc & _ & _).
      congruence.
Qed.

Lemma elem_of_concat {A : Type} (x : A) (ls : list (list A)) :
  x ∈ concat ls ↔ ∃ l, x ∈ l ∧ l ∈ ls.
Proof.
  rewrite list_elem_of_In, in_concat. split.
  - intros (l & Hl & Hx). exists l. by rewrite !list_elem_of_In.
  - intros (l & Hx & Hl). exists l. by rewrite <- !list_elem_of_In.
Qed.

Lemma subtree_head (fuel : nat) (w : World) (e : EId) (l : list EId) :
  subtree fuel w e = Some l → ∃ l', l = e :: l'.
Proof.
  destruct fuel as [|f]; [done|]. simpl.
  intros (ls & _ & ->)%foldl_collect_Some. by eexists.
Qed.

Lemma subtree_descendant (fuel : nat) (w : World) (e x : EId)
    (l : list EId) :
  subtree fuel w e = Some l → x ∈ l → descendant w e x.
Proof.
  revert e l. induction fuel as [|f IH]; intros e l; [done|]. simpl.
  intros (ls & Hls & ->)%foldl_collect_Some.
  rewrite elem_of_app, list_elem_of_singleton.
  intros [->|Hx]; [apply descendant_self|].
  apply elem_of_concat in Hx as (lc & Hx & Hlc).
  apply list_elem_of_lookup in Hlc as [i Hi].
  destruct (Forall2_lookup_r _ _ _ _ _ Hls Hi) as (c & Hc & Hsub).
  eapply descendant_child.
  - apply list_elem_of_lookup. eauto.
  - by eapply IH.
Qed.

Lemma descendant_subtree (w : World) (e x : EId) :
  descendant w e x →
  ∀ fuel l, subtree fuel w e = Some l → x ∈ l.
Proof.
  induction 1 as [e|e c d Hc _ IH]; intros fuel l Hl.
  - apply subtree_head in Hl as [l' ->]. set_solver.
  - destruct fuel as [|f]; [done|]. simpl in Hl.
    apply foldl_collect_Some in Hl as (ls & Hls & ->).
    apply list_elem_of_lookup in Hc as [i Hi].
    destruct (Forall2_lookup_l _ _ _ _ _ Hls Hi) as (lc & Hlc & Hsub).
    apply elem_of_app. right. apply elem_of_concat.
    exists lc. split; [by eapply IH|].
    apply list_elem_of_lookup. eauto.
Qed.

Lemma forest_app (fuel : nat) (w : World) (a b : list EId) :
  forest fuel w (a ++ b) =
    la ← forest fuel w a; lb ← forest fuel w b; Some (la ++ lb).
Proof.
  induction a as [|r a IH]; simpl.
  - by destruct (forest fuel w b).
  - destruct (subtree fuel w r) as [l|]; simpl; [|done].
    rewrite IH. destruct (forest fuel w a) as [la|]; simpl; [|done].
    destruct (forest fuel w b) as [lb|]; simpl; [|done].
    by rewrite app_assoc.
Qed.

Lemma forest_elem_of (fuel : nat) (w : World) (roots R : list EId) (x : EId) :
  forest fuel w roots = Some R →
  x ∈ R ↔ ∃ r, r ∈ roots ∧ descendant w r x.
Proof.
  revert R. induction roots as [|r roots IH]; intros R; simpl.
  - intros [= <-]. set_solver.
  - destruct (subtree fuel w r) as [l|] eqn:El; simpl; [|done].
    destruct (forest fuel w roots) as [R'|]; simpl; [|done].
    intros [= <-]. rewrite elem_of_app, (IH R' eq_refl). split.
    + intros [Hx|(r' & Hr' & Hd)].
      * exists r. split; [set_solver|]. by eapply subtree_descendant.
      * exists r'. split; [set_solver|done].
    + intros (r' & Hr' & Hd). apply elem_of_cons in Hr' as [->|Hr'].
      * left. by eapply descendant_subtree.
      * right. eauto.
Qed.

(** Taking a root out of the root list takes its subtree out of the walk. *)
Lemma forest_splice1 (fuel : nat) (w : World) (e : EId) (roots R : list EId)
    (i : nat) :
  indexOf e roots = Some i → forest fuel w roots = Some R →
  ∃ A l B, R = A ++ l ++ B ∧ subtree fuel w e = Some l ∧
           forest fuel w (splice1 i roots) = Some (A ++ B).
Proof.
  revert i R. induction roots as [|r roots IH]; intros i R; simpl; [done|].
  destruct (subtree fuel w r) as [l|] eqn:El; simpl; [|by destruct (decide _)].
  destruct (forest fuel w roots) as [R'|] eqn:ER; simpl;
    [|by destruct (decide _)].
  destruct (decide (e = r)) as [->|Hne].
  - intros [= <-] [= <-]. exists [], l, R'. unfold splice1. simpl.
    by rewrite drop_0.
  - destruct (indexOf e roots) as [j|]; [|done]. intros [= <-] [= <-].
    destruct (IH j R' eq_refl eq_refl) as (A & le & B & -> & Hle & Hsp).
    exists (l ++ A), le, B. split; [by rewrite <- app_assoc|]. split; [done|].
    change (splice1 (S j) (r :: roots)) with (r :: splice1 j roots).
    simpl. rewrite El, Hsp. simpl. by rewrite <- app_assoc.
Qed.

(** [registerEntity] and [unregisterEntity] are the same walk with another
    action at each entity; what the walk does is shown once. *)
Section Walk.
Variable act : World → EId → gmap string EId → gmap string EId.
Variable visit : nat → World → EId → gmap string EId → option (gmap string EId).
Hypothesis visit_0 : ∀ w e index, visit 0 w e index = None.
Hypothesis visit_S : ∀ fuel w e index,
  visit (S fuel) w e index =
    foldl (λ acc child, acc ≫= visit fuel w child)
          (Some (act w e index)) (getChildren e w).

Lemma visit_subtree (fuel : nat) (w : World) (e : EId)
    (index : gmap string EId) :
  visit fuel w e index =
    (λ l, foldl (λ m x, act w x m) index l) <$> subtree fuel w e.
Proof.
  revert e index. induction fuel as [|f IH]; intros e index.
  - by rewrite visit_0.
  - rewrite visit_S. simpl.
    change (Some (act w e index))
      with (Some (foldl (λ m x, act w x m) index [e])).
    generalize [e] as l0. generalize (getChildren e w) as ch.
    induction ch as [|c ch IHch]; intros l0; [done|]. simpl.
    rewrite IH. destruct (subtree f w c) as [lc|]; simpl.
    + rewrite <- foldl_app. apply IHch.
    + by rewrite foldl_bind_None, foldl_collect_None.
Qed.

End Walk.

Lemma registerEntity_subtree (fuel : nat) (w : World) (e : EId)
    (index : gmap string EId) :
  registerEntity fuel w e index = (λ l, regAll w l index) <$> subtree fuel w e.
Proof.
  apply (visit_subtree (λ w x m, <[Entity.name (ent w x) := x]> m)
           registerEntity); done.
Qed.

Lemma unregisterEntity_subtree (fuel : nat) (w : World) (e : EId)
    (index : gmap string EId) :
  unregisterEntity fuel w e index =
    (λ l, unregAll w l index) <$> subtree fuel w e.
Proof.
  apply (visit_subtree (λ w x m, delete (Entity.name (ent w x)) m)
           unregisterEntity); done.
Qed.

Lemma elem_of_names (w : World) (l : list EId) (k : string) :
  k ∈ names w l ↔ ∃ x, x ∈ l ∧ Entity.name (ent w x) = k.
Proof. unfold names. rewrite list_elem_of_fmap. naive_solver. Qed.

Lemma lastNamed_app (w : World) (k : string) (a b : list EId) :
  lastNamed w k (a ++ b) =
    match lastNamed w k b with Some x => Some x | None => lastNamed w k a end.
Proof. unfold lastNamed. by rewrite filter_app, last_app. Qed.

Lemma lastNamed_cons (w : World) (k : string) (a : EId) (l : list EId) :
  lastNamed w k (a :: l) =
    match lastNamed w k l with
    | Some x => Some x
    | None => if decide (Entity.name (ent w a) = k) then Some a else None
    end.
Proof.
  change (a :: l) with ([a] ++ l). rewrite lastNamed_app.
  unfold lastNamed at 2. rewrite filter_cons. simpl. by case_decide.
Qed.

Lemma lastNamed_None (w : World) (k : string) (l : list EId) :
  lastNamed w k l = None ↔ k ∉ names w l.
Proof.
  induction l as [|a l IH].
  - split; [intros _; apply not_elem_of_nil|done].
  - rewrite lastNamed_cons.
    change (names w (a :: l)) with (Entity.name (ent w a) :: names w l).
    rewrite not_elem_of_cons, <- IH.
    destruct (lastNamed w k l); [naive_solver|].
    case_decide; naive_solver.
Qed.

Lemma lastNamed_Some (w : World) (k : string) (l : list EId) (x : EId) :
  lastNamed w k l = Some x → x ∈ l ∧ Entity.name (ent w x) = k.
Proof.
  unfold lastNamed. intros H%last_Some_elem_of.
  by apply list_elem_of_filter in H as [? ?].
Qed.

(** The name a lookup goes by only depends on the names of the listed
    entities. *)
Lemma lastNamed_ext (w w' : World) (k : string) (l : list EId) :
  (∀ x, x ∈ l → Entity.name (ent w' x) = Entity.name (ent w x)) →
  lastNamed w' k l = lastNamed w k l.
Proof.
  induction l as [|a l IH]; intros H; [done|].
  rewrite !lastNamed_cons, IH, H by set_solver. done.
Qed.

(** After registering the entities of [l] in order, a name goes to the last
    of them that has it, and otherwise to what it went to before. *)
Lemma regAll_lookup (w : World) (l : list EId) (index : gmap string EId)
    (k : string) :
  regAll w l index !! k =
    match lastNamed w k l with Some x => Some x | None => index !! k end.
Proof.
  revert index. induction l as [|a l IH]; intros index; [done|].
  change (regAll w (a :: l) index)
    with (regAll w l (<[Entity.name (ent w a) := a]> index)).
  rewrite IH, lastNamed_cons, lookup_insert.
  destruct (lastNamed w k l); [done|]. by case_decide.
Qed.

(** After unregistering the entities of [l], their names are gone and the
    other names are untouched. *)
Lemma unregAll_lookup (w : World) (l : list EId) (index : gmap string EId)
    (k : string) :
  unregAll w l index !! k =
    match lastNamed w k l with Some _ => None | None => index !! k end.
Proof.
  revert index. induction l as [|a l IH]; intros index; [done|].
  change (unregAll w (a :: l) index)
    with (unregAll w l (delete (Entity.name (ent w a)) index)).
  rewrite IH, lastNamed_cons, lookup_delete.
  destruct (lastNamed w k l); [done|]. by case_decide.
Qed.

(** The assignment to [entity.name] moves no entity. *)
Lemma getChildren_renamed (e : EId) (n : option string) (w : World) (x : EId) :
  getChildren x (renamed e n w) = getChildren x w.
Proof.
  unfold getChildren, renamed. rewrite ent_updEnt. by case_decide; subst.
Qed.

Lemma name_renamed_ne (e : EId) (n : option string) (w : World) (x : EId) :
  x ≠ e → Entity.name (ent (renamed e n w) x) = Entity.name (ent w x).
Proof.
  intros Hne. unfold renamed. by rewrite ent_updEnt, decide_False.
Qed.

Lemma subtree_renamed (fuel : nat) (e : EId) (n : option string) (w : World)
    (x : EId) :
  subtree fuel (renamed e n w) x = subtree fuel w x.
Proof.
  revert x. induction fuel as [|f IH]; intros x; [done|]. simpl.
  rewrite getChildren_renamed.
  generalize (Some [x]) as acc. generalize (getChildren x w) as ch.
  induction ch as [|c ch IHch]; intros acc; [done|]. simpl.
  rewrite IH. apply IHch.
Qed.

Lemma forest_renamed (fuel : nat) (e : EId) (n : option string) (w : World)
    (roots : list EId) :
  forest fuel (renamed e n w) roots = forest fuel w roots.
Proof.
  induction roots as [|r roots IH]; [done|]. simpl.
  by rewrite subtree_renamed, IH.
Qed.

Lemma addEntity_unfold (fuel : nat) (e : EId) (n : option string)
    (w : World) (s : Scene.t) :
  addEntity fuel e n (w, s) =
    index ← registerEntity fuel (renamed e n w) e (Scene.allEntities s);
    Some (renamed e n w,
          Scene.mk (Scene.rootEntities s ++ [e]) index (Scene.name s)).
Proof. reflexivity. Qed.

(** [addEntity] returns and keeps the index in step. *)
Lemma sceneInv_addEntity (fuel : nat) (e : EId) (n : option string)
    (w : World) (s : Scene.t) :
  sceneInv fuel (w, s) → scenePre fuel (AddEntity e n) (w, s) →
  ∃ st', addEntity fuel e n (w, s) = Some st' ∧ sceneInv fuel st'.
Proof.
  intros (R & HR & Hidx) Hpre.
  unfold scenePre in Hpre. cbn [fst snd] in HR, Hidx, Hpre.
  rewrite HR in Hpre.
  destruct (subtree fuel w e) as [l|] eqn:El; [|done].
  rewrite addEntity_unfold, registerEntity_subtree, subtree_renamed, El.
  simpl. eexists. split; [done|]. exists (R ++ l). simpl. split.
  { rewrite forest_app, !forest_renamed, HR. simpl.
    rewrite El. simpl. by rewrite app_nil_r. }
  intros k. rewrite regAll_lookup, lastNamed_app, Hidx.
  destruct (lastNamed (renamed e n w) k l); [done|].
  symmetry. apply lastNamed_ext. intros x Hx.
  destruct (decide (x = e)) as [->|Hne]; [by apply Hpre|].
  by apply name_renamed_ne.
Qed.

(** [removeEntity] returns and keeps the index in step. *)
Lemma sceneInv_removeEntity (fuel : nat) (e : EId) (w : World) (s : Scene.t) :
  sceneInv fuel (w, s) → scenePre fuel (RemoveEntity e) (w, s) →
  ∃ st', removeEntity fuel e (w, s) = Some st' ∧ sceneInv fuel st'.
Proof.
  intros Hinv Hpre. unfold removeEntity, scenePre in *. cbn [fst snd] in Hpre.
  destruct (indexOf e (Scene.rootEntities s)) as [i|] eqn:Ei; [|by eexists].
  destruct Hinv as (R & HR & Hidx). simpl in HR, Hidx.
  destruct (forest_splice1 _ _ _ _ _ _ Ei HR) as (A & l & B & -> & Hl & Hsp).
  rewrite Hl, Hsp in Hpre.
  rewrite unregisterEntity_subtree, Hl. simpl.
  eexists. split; [done|]. exists (A ++ B). simpl. split; [done|].
  intros k. rewrite unregAll_lookup, Hidx.
  destruct (lastNamed w k l) as [x|] eqn:Ek.
  - symmetry. apply lastNamed_None, Hpre.
    apply lastNamed_Some in Ek as [Hx Hn]. apply elem_of_names. eauto.
  - rewrite !lastNamed_app, Ek. by destruct (lastNamed w k B).
Qed.

Lemma sceneInv_run (fuel : nat) (ops : list SceneOp) (st : World * Scene.t) :
  sceneInv fuel st → sceneAllowed fuel ops st →
  ∃ st', runScene fuel ops st = Some st' ∧ sceneInv fuel st'.
Proof.
  revert st. induction ops as [|op ops IH]; intros [w s] Hinv Hok.
  - by eexists.
  - destruct Hok as [Hpre Hok].
    assert (∃ st1, sceneStep fuel op (w, s) = Some st1 ∧ sceneInv fuel st1)
      as (st1 & Hst1 & Hinv1).
    { destruct op as [e n|e]; simpl.
      - by apply sceneInv_addEntity.
      - by apply sceneInv_removeEntity. }
    rewrite Hst1 in Hok.
    destruct (IH st1 Hinv1 Hok) as (st' & Hrun & Hinv').
    exists st'. split; [|done].
    unfold runScene in *. simpl. by rewrite Hst1.
Qed.

Lemma sceneInv_new (fuel : nat) (w : World) : sceneInv fuel (w, Scene.new).
Proof. exists []. simpl. split; [done|]. intros k. apply lookup_empty. Qed.

(** C1, as amended.  Over every sequence of [addEntity] and [removeEntity]
    calls on a new scene in which no [addEntity] gives a new name to an
    entity the scene already holds, and no [removeEntity] takes away an
    entity whose name is also the name of an entity that stays, every call
    returns, and afterwards [findEntity(name)] is the most recently
    registered of the scene's entities whose name is [name]: it is one of
    the entities below the roots, it has that name, and it is null exactly
    when no entity below the roots has that name. *)
Theorem findEntity_returns_last_registered (fuel : nat)
    (ops : list SceneOp) (w : World) :
  sceneAllowed fuel ops (w, Scene.new) →
  ∃ st', runScene fuel ops (w, Scene.new) = Some st' ∧
         lookupSpec st' ∧
         (∀ name e, findEntity name st'.2 = Some e →
                    registered st' e ∧ Entity.name (ent st'.1 e) = name) ∧
         (∀ name, findEntity name st'.2 = None ↔
                  ∀ e, registered st' e → Entity.name (ent st'.1 e) ≠ name).
Proof.
  intros Hok.
  destruct (sceneInv_run fuel ops (w, Scene.new) (sceneInv_new fuel w) Hok)
    as (st' & Hrun & R & HR & Hidx).
  exists st'. split; [done|]. split; [by exists fuel, R|]. split.
  - intros k e He. unfold findEntity in He. rewrite Hidx in He.
    apply lastNamed_Some in He as [He Hn]. split; [|done].
    by apply (forest_elem_of _ _ _ _ _ HR).
  - intros k. unfold findEntity. rewrite Hidx, lastNamed_None, elem_of_names.
    split.
    + intros Hnone e He%(forest_elem_of _ _ _ _ _ HR) Hn. apply Hnone. eauto.
    + intros Hnone (e & He & Hn). eapply Hnone; [|done].
      by apply (forest_elem_of _ _ _ _ _ HR).
Qed.

Lemma findEntity_returns_last_registered_witness :
  ∃ st', runScene 3 [AddEntity 0 (Some "Player"); AddEntity 5 (Some "Enemy");
                     AddEntity 7 (Some "Enemy"); RemoveEntity 0;
                     AddEntity 0 (Some "Hero")]
           (armedWorld, Scene.new) = Some st' ∧
         findEntity "Enemy" st'.2 = Some 7 ∧
         findEntity "Gun" st'.2 = Some 6 ∧
         findEntity "Player" st'.2 = None.
Proof.
  destruct (findEntity_returns_last_registered 3
              [AddEntity 0 (Some "Player"); AddEntity 5 (Some "Enemy");
               AddEntity 7 (Some "Enemy"); RemoveEntity 0;
               AddEntity 0 (Some "Hero")] armedWorld) as (st' & Hrun & _).
  - repeat split; vm_compute; set_solver.
  - exists st'. split; [exact Hrun|].
    vm_compute in Hrun. injection Hrun as <-. repeat split.
Defined.

(** C1, as stated, fails: two entities share a name, the later one is
    removed, and [findEntity] returns null although the earlier one is
    still a root of the scene under that name. *)
Lemma findEntity_null_after_name_clash :
  ∃ st, runScene 1 [AddEntity 0 (Some "x"); AddEntity 1 (Some "x");
                    RemoveEntity 1] (emptyWorld, Scene.new) = Some st ∧
        Scene.rootEntities st.2 = [0] ∧
        Entity.name (ent st.1 0) = "x" ∧
        findEntity "x" st.2 = None ∧
        ¬ lookupSpec st.
Proof.
  eexists. split; [reflexivity|]. repeat split.
  intros (fuel & R & HR & H). specialize (H "x"). cbn [fst snd] in HR.
  destruct fuel as [|f]; [discriminate HR|].
  injection HR as <-. discriminate H.
Qed.

Lemma descendant_trans (w : World) (a b c : EId) :
  descendant w a b → descendant w b c → descendant w a c.
Proof.
  induction 1 as [e|e c' d Hc _ IH]; [done|].
  intros Hbc. eapply descendant_child; [exact Hc|by apply IH].
Qed.

(** Attaching a child takes nothing out of a tree: what was below an
    entity stays below it. *)
Lemma descendant_addChild (p c : EId) (w : World) (r x : EId) :
  descendant w r x → descendant (addChild p c w) r x.
Proof.
  induction 1 as [e|e c' d Hc _ IH]; [apply descendant_self|].
  eapply descendant_child; [|exact IH].
  rewrite children_addChild. case_decide; [subst; set_solver|done].
Qed.

Lemma name_addChild (p c x : EId) (w : World) :
  Entity.name (ent (addChild p c w) x) = Entity.name (ent w x).
Proof.
  unfold addChild. rewrite !ent_updEnt.
  repeat case_decide; by simplify_eq.
Qed.

(** C8.  [addChild] is a method of the parent entity and writes to nothing
    but the two entities; the scene is not within its reach, so the index
    [findEntity] reads after the call is the index from before it.  For a
    parent that is anywhere among the scene's entities, root or not: after
    [parent.addChild(child)] the child is in the parent's list and among
    the scene's entities, no entity left the scene and no name changed.
    When the index was in step with the scene and the child was not among
    the scene's entities, no name leads to the child, and [findEntity] on
    the child's name returns another entity of the scene that holds that
    name, or null when the scene had no such entity.  When the index does
    not hold the child, [findEntity] on its name returns null or another
    entity.  Either way, when it returns null the index is out of step
    with the scene from then on: the child is among the entities but its
    name is not found. *)
Theorem addChild_does_not_index (w : World) (s : Scene.t)
    (parent child : EId) :
  registered (w, s) parent →
  let w' := addChild parent child w in
  child ∈ getChildren parent w' ∧
  registered (w', s) child ∧
  (∀ x, registered (w, s) x → registered (w', s) x) ∧
  (∀ x, Entity.name (ent w' x) = Entity.name (ent w x)) ∧
  (∀ fuel, sceneInv fuel (w, s) → ¬ registered (w, s) child →
     (∀ k, findEntity k s ≠ Some child) ∧
     match findEntity (Entity.name (ent w' child)) s with
     | Some other =>
         other ≠ child ∧ registered (w, s) other ∧
         Entity.name (ent w other) = Entity.name (ent w child)
     | None =>
         ∀ x, registered (w, s) x →
              Entity.name (ent w x) ≠ Entity.name (ent w child)
     end) ∧
  ((∀ k, findEntity k s ≠ Some child) →
   findEntity (Entity.name (ent w' child)) s = None ∨
   ∃ other, other ≠ child ∧
            findEntity (Entity.name (ent w' child)) s = Some other) ∧
  (findEntity (Entity.name (ent w' child)) s = None →
   ∀ fuel, ¬ sceneInv fuel (w', s)).
Proof.
  intros (r & Hr & Hdesc) w'.
  assert (child ∈ getChildren parent w') as Hin.
  { unfold w'. rewrite children_addChild, decide_True by done. set_solver. }
  assert (registered (w', s) child) as Hreg.
  { exists r. split; [done|]. cbn [fst].
    apply descendant_trans with parent.
    - by apply descendant_addChild.
    - eapply descendant_child; [exact Hin|apply descendant_self]. }
  split; [done|]. split; [done|]. split.
  { intros x (r' & Hr' & Hx). exists r'. split; [done|].
    by apply descendant_addChild. }
  split; [intros x; apply name_addChild|]. split; [|split].
  - intros fuel (R & HR & Hidx) Hnew. cbn [fst snd] in HR, Hidx.
    assert (∀ k x, findEntity k s = Some x →
                   registered (w, s) x ∧ Entity.name (ent w x) = k) as Hfound.
    { intros k x Hk. unfold findEntity in Hk. rewrite Hidx in Hk.
      apply lastNamed_Some in Hk as [Hx Hn]. split; [|done].
      by apply (forest_elem_of _ _ _ _ _ HR). }
    split.
    { intros k Hk. apply Hnew. by apply (Hfound k). }
    unfold w'. rewrite name_addChild.
    destruct (findEntity (Entity.name (ent w child)) s) as [other|] eqn:E.
    + destruct (Hfound _ _ E) as [Ho Hn]. split; [|done].
      intros ->. by apply Hnew.
    + intros x Hx%(forest_elem_of _ _ _ _ _ HR) Hn.
      unfold findEntity in E. rewrite Hidx in E.
      apply lastNamed_None in E. apply E, elem_of_names. eauto.
  - intros Hnew.
    destruct (findEntity (Entity.name (ent w' child)) s) as [x|] eqn:E;
      [right|by left].
    exists x. split; [|done]. intros ->. by eapply Hnew.
  - intros Hnone fuel (R & HR & Hidx). cbn [fst snd] in HR, Hidx.
    unfold findEntity in Hnone. rewrite Hidx in Hnone.
    apply lastNamed_None in Hnone. apply Hnone, elem_of_names.
    exists child. split; [|done].
    by apply (forest_elem_of _ _ _ _ _ HR).
Qed.

Lemma addChild_does_not_index_witness :
  ∃ w s, addEntity 2 5 (Some "Enemy") (armedWorld, Scene.new) = Some (w, s) ∧
         (6 ∉ Scene.rootEntities s) ∧
         registered (addChild 6 7 w, s) 7 ∧
         findEntity (Entity.name (ent (addChild 6 7 w) 7)) s = None ∧
         ∀ fuel, ¬ sceneInv fuel (addChild 6 7 w, s).
Proof.
  eexists _, _. split; [reflexivity|].
  split; [vm_compute; set_solver|].
  match goal with
  | |- registered (addChild 6 7 ?w, ?s) 7 ∧ _ =>
      destruct (addChild_does_not_index w s 6 7)
        as (_ & Hreg & _ & _ & _ & _ & Hgap)
  end.
  - exists 5. split; [vm_compute; set_solver|].
    eapply descendant_child; [|apply descendant_self].
    vm_compute. set_solver.
  - split; [exact Hreg|]. split; [reflexivity|].
    apply Hgap. reflexivity.
Defined.

(** * Further properties *)

(** ** Component registry: removal and the instances left behind *)

Lemma JsMap_get_delete {K V : Type} `{EqDecision K} (k k' : K)
    (m : list (K * V)) :
  JsMap.get k' (JsMap.delete k m) =
    if decide (k' = k) then None else JsMap.get k' m.
Proof.
  induction m as [|[k0 v0] m IH]; simpl.
  - by case_decide.
  - destruct (decide (k = k0)) as [->|Hne]; simpl.
    + rewrite IH. destruct (decide (k' = k0)); [done|done].
    + destruct (decide (k' = k0)) as [->|Hne']; [|done].
      by rewrite decide_False by congruence.
Qed.

Lemma JsMap_get_Some_elem_of {K V : Type} `{EqDecision K} (k : K) (v : V)
    (m : list (K * V)) :
  JsMap.get k m = Some v → (k, v) ∈ m.
Proof.
  induction m as [|[k0 v0] m IH]; simpl; [done|].
  destruct (decide (k = k0)) as [->|Hne].
  - intros [= ->]. by left.
  - intros H. right. by apply IH.
Qed.

Lemma JsMap_elem_of_get {K V : Type} `{EqDecision K} (k : K) (v : V)
    (m : list (K * V)) :
  NoDup m.*1 → (k, v) ∈ m → JsMap.get k m = Some v.
Proof.
  induction m as [|[k0 v0] m IH]; simpl.
  - intros _ H. by apply elem_of_nil in H.
  - intros [Hk0 Hnd]%NoDup_cons [[= -> ->]|Hin]%elem_of_cons.
    + by rewrite decide_True.
    + destruct (decide (k = k0)) as [->|Hne]; [|by apply IH].
      exfalso. apply Hk0. apply list_elem_of_fmap. by exists (k0, v).
Qed.

Lemma JsMap_set_keys {K V : Type} `{EqDecision K} (k : K) (v : V)
    (m : list (K * V)) :
  (JsMap.set k v m).*1 = if decide (k ∈ m.*1) then m.*1 else m.*1 ++ [k].
Proof.
  induction m as [|[k0 v0] m IH].
  - destruct (decide (k ∈ ([] : list (K * V)).*1)) as [H|_]; [|done].
    by apply elem_of_nil in H.
  - change (((k0, v0) :: m).*1) with (k0 :: m.*1).
    cbn [JsMap.set]. destruct (decide (k = k0)) as [->|Hne].
    + destruct (decide (k0 ∈ k0 :: m.*1)) as [_|Hnot]; [done|].
      exfalso. apply Hnot. by left.
    + change (((k0, v0) :: JsMap.set k v m).*1)
        with (k0 :: (JsMap.set k v m).*1).
      rewrite IH. destruct (decide (k ∈ m.*1)) as [Hin|Hnot].
      * destruct (decide (k ∈ k0 :: m.*1)) as [_|Hnot]; [done|].
        exfalso. apply Hnot. by right.
      * destruct (decide (k ∈ k0 :: m.*1)) as [Hin|_]; [|done].
        apply elem_of_cons in Hin as [?|?]; [congruence|done].
Qed.

Lemma JsMap_delete_elem_of {K V : Type} `{EqDecision K} (k : K)
    (m : list (K * V)) (p : K * V) :
  p ∈ JsMap.delete k m ↔ p ∈ m ∧ p.1 ≠ k.
Proof.
  induction m as [|[k0 v0] m IH]; simpl.
  - split; [intros H; by apply elem_of_nil in H|].
    intros [H _]. by apply elem_of_nil in H.
  - destruct (decide (k = k0)) as [->|Hne].
    + rewrite IH, elem_of_cons. split; [naive_solver|].
      intros [[->|Hin] Hp]; [done|done].
    + rewrite !elem_of_cons, IH. split; [|naive_solver].
      intros [->|[Hin Hp]]; [|naive_solver].
      split; [by left|]. simpl. congruence.
Qed.

Lemma JsMap_delete_keys_NoDup {K V : Type} `{EqDecision K} (k : K)
    (m : list (K * V)) :
  NoDup m.*1 → NoDup (JsMap.delete k m).*1.
Proof.
  induction m as [|[k0 v0] m IH]; simpl; [done|].
  intros [Hk0 Hnd]%NoDup_cons.
  destruct (decide (k = k0)) as [->|Hne]; [by apply IH|].
  simpl. apply NoDup_cons. split; [|by apply IH].
  intros ([k1 v1] & Hk & Hin)%list_elem_of_fmap. simpl in Hk. subst k1.
  apply JsMap_delete_elem_of in Hin as [Hin _].
  apply Hk0. apply list_elem_of_fmap. by exists (k0, v1).
Qed.

Lemma JsMap_set_keys_NoDup {K V : Type} `{EqDecision K} (k : K) (v : V)
    (m : list (K * V)) :
  NoDup m.*1 → NoDup (JsMap.set k v m).*1.
Proof.
  intros Hnd. rewrite JsMap_set_keys. case_decide; [done|].
  apply NoDup_app. repeat split; [done| |apply NoDup_singleton].
  intros x Hx ->%list_elem_of_singleton. done.
Qed.

Lemma getComponent_removeComponent (cls cls' : CompClass) (this this' : EId)
    (w : World) :
  getComponent cls' this' (removeComponent cls this w) =
    if decide (this' = this ∧ cls' = cls) then None
    else getComponent cls' this' w.
Proof.
  unfold getComponent, removeComponent. rewrite ent_updEnt.
  destruct (decide (this = this')) as [->|Hne].
  - cbn [Entity.components Entity.with_components].
    rewrite JsMap_get_delete.
    destruct (decide (cls' = cls)) as [->|Hc].
    + by rewrite decide_True.
    + rewrite decide_False; [done|]. by intros [_ ?].
  - rewrite decide_False; [done|]. intros [? _]. congruence.
Qed.

(** X1.  [removeComponent(T)] makes [getComponent(T)] null on that entity
    and changes no other lookup, on this entity or another; the removed
    instance itself stays as it was, its [entity] field included. *)
Theorem removeComponent_forgets_only_that_class (T : CompClass) (this : EId)
    (w : World) :
  getComponent T this (removeComponent T this w) = None ∧
  (∀ T' e, (e, T') ≠ (this, T) →
           getComponent T' e (removeComponent T this w) = getComponent T' e w) ∧
  comps (removeComponent T this w) = comps w.
Proof.
  split; [|split].
  - by rewrite getComponent_removeComponent, decide_True.
  - intros T' e Hne. rewrite getComponent_removeComponent, decide_False; [done|].
    intros [-> ->]. done.
  - reflexivity.
Qed.

Lemma classOf_construct (cls : CompClass) : classOf (construct cls) = cls.
Proof. by destruct cls. Qed.

Lemma components_addComponent (cls : CompClass) (this e : EId) (w : World) :
  Entity.components (ent (addComponent cls this w).2 e) =
    if decide (e = this)
    then JsMap.set cls (addComponent cls this w).1
           (Entity.components (ent w this))
    else Entity.components (ent w e).
Proof.
  unfold addComponent. cbn [fst snd]. rewrite ent_updEnt.
  destruct (decide (this = e)) as [->|Hne].
  - by rewrite decide_True.
  - by rewrite decide_False by congruence.
Qed.

Lemma comps_addComponent (cls : CompClass) (this : EId) (w : World) (c : CId) :
  comps (addComponent cls this w).2 !! c =
    if decide (c = (addComponent cls this w).1)
    then Some (Component.mk true (Some this) (construct cls))
    else comps w !! c.
Proof.
  unfold addComponent. cbn [fst snd].
  rewrite comps_updEnt, comps_setComp.
  destruct (decide (fresh (dom (comps w)) = c)) as [<-|Hne].
  - by rewrite decide_True.
  - by rewrite decide_False by congruence.
Qed.

(** Two [addComponent(T)] calls in a row, spelled out. *)
Lemma two_addComponent_calls (T : CompClass) (this : EId)
    (w : World) :
  let '(first, w1) := addComponent T this w in
  let '(second, w2) := addComponent T this w1 in
  getComponent T this w2 = Some second ∧ second ≠ first ∧
  comps w2 !! first = Some (Component.mk true (Some this) (construct T)).
Proof.
  pose proof (addComponent_fresh T this w) as [_ Hin].
  pose proof (comps_addComponent T this w (addComponent T this w).1) as Hc1.
  rewrite decide_True in Hc1 by done.
  destruct (addComponent T this w) as [first w1] eqn:E1.
  pose proof (getComponent_addComponent T T this w1) as H2.
  pose proof (addComponent_fresh T this w1) as [Hout _].
  pose proof (comps_addComponent T this w1 first) as Hc2.
  destruct (addComponent T this w1) as [second w2] eqn:E2.
  simpl in *. rewrite decide_True in H2 by done.
  assert (second ≠ first) as Hne.
  { intros ->. rewrite Hout in Hin. by destruct Hin. }
  rewrite decide_False in Hc2 by congruence.
  split; [done|]. split; [done|]. by rewrite Hc2.
Qed.

(** One registry operation keeps the registries well formed. *)
Lemma registryStep_keeps (op : RegistryOp) (w : World) :
  (∀ e, NoDup (Entity.components (ent w e)).*1) → registryOwned w →
  (∀ e, NoDup (Entity.components (ent (registryStep op w) e)).*1) ∧
  registryOwned (registryStep op w).
Proof.
  intros Hnd Hown. destruct op as [cls this|cls this]; cbn [registryStep].
  - pose proof (addComponent_fresh cls this w) as [Hfresh _].
    split.
    + intros e. rewrite components_addComponent.
      case_decide; [by apply JsMap_set_keys_NoDup|done].
    + intros e cls' c. rewrite components_addComponent.
      destruct (decide (e = this)) as [->|Hne].
      * rewrite JsMap_get_set. destruct (decide (cls' = cls)) as [->|Hc].
        -- intros [= <-]. exists true, (construct cls).
           rewrite comps_addComponent, decide_True by done.
           split; [done|apply classOf_construct].
        -- intros (en & body & Hc' & Hcls)%Hown. exists en, body.
           rewrite comps_addComponent, decide_False; [done|].
           intros ->. congruence.
      * intros (en & body & Hc' & Hcls)%Hown. exists en, body.
        rewrite comps_addComponent, decide_False; [done|].
        intros ->. congruence.
  - split.
    + intros e. unfold removeComponent. rewrite ent_updEnt.
      case_decide; [|done]. subst e. by apply JsMap_delete_keys_NoDup.
    + intros e cls' c Hget.
      change (getComponent cls' e (removeComponent cls this w) = Some c)
        in Hget.
      rewrite getComponent_removeComponent in Hget.
      case_decide; [done|]. by apply Hown.
Qed.

Lemma runRegistry_keeps (ops : list RegistryOp) (w : World) :
  (∀ e, NoDup (Entity.components (ent w e)).*1) → registryOwned w →
  (∀ e, NoDup (Entity.components (ent (runRegistry ops w) e)).*1) ∧
  registryOwned (runRegistry ops w).
Proof.
  revert w. induction ops as [|op ops IH]; intros w Hnd Hown; [done|].
  change (runRegistry (op :: ops) w)
    with (runRegistry ops (registryStep op w)).
  destruct (registryStep_keeps op w Hnd Hown). by apply IH.
Qed.

Lemma registry_emptyWorld :
  (∀ e, NoDup (Entity.components (ent emptyWorld e)).*1) ∧
  registryOwned emptyWorld.
Proof. split; [intros e; constructor|]. intros e cls c H. discriminate H. Qed.

(** X2.  Whatever [addComponent] and [removeComponent] calls were made on
    whatever entities, every registry holds at most one instance per
    class; each instance it holds exists, is of the class it is stored
    under and names that entity as its owner; so no instance is held by
    two registries or under two classes. *)
Theorem registry_one_owned_instance_per_class (ops : list RegistryOp) :
  let w := runRegistry ops emptyWorld in
  (∀ e, NoDup (Entity.components (ent w e)).*1) ∧
  registryOwned w ∧
  (∀ e1 e2 T1 T2 c,
     getComponent T1 e1 w = Some c → getComponent T2 e2 w = Some c →
     e1 = e2 ∧ T1 = T2).
Proof.
  intros w.
  destruct registry_emptyWorld as [Hnd0 Hown0].
  destruct (runRegistry_keeps ops emptyWorld Hnd0 Hown0) as [Hnd Hown].
  split; [done|]. split; [done|].
  intros e1 e2 T1 T2 c (en1 & b1 & Hc1 & Hb1)%Hown (en2 & b2 & Hc2 & Hb2)%Hown.
  rewrite Hc1 in Hc2. injection Hc2 as _ -> ->. by subst.
Qed.

(** X3.  The instance a second [addComponent(T)] replaces is not torn
    down: it stays in the store as constructed, still naming the entity as
    its owner, while no registry of any entity returns it any more. *)
Theorem replaced_instance_keeps_owner (ops : list RegistryOp)
    (T : CompClass) (this : EId) :
  let w := runRegistry ops emptyWorld in
  let '(first, w1) := addComponent T this w in
  let '(second, w2) := addComponent T this w1 in
  comps w2 !! first = Some (Component.mk true (Some this) (construct T)) ∧
  ∀ e cls, getComponent cls e w2 ≠ Some first.
Proof.
  intros w.
  destruct registry_emptyWorld as [Hnd0 Hown0].
  destruct (runRegistry_keeps ops emptyWorld Hnd0 Hown0) as [Hnd Hown].
  fold w in Hnd, Hown.
  destruct (registryStep_keeps (AddComponent T this) w Hnd Hown)
    as [Hnd1 Hown1].
  destruct (registryStep_keeps (AddComponent T this) _ Hnd1 Hown1)
    as [_ Hown2].
  cbn [registryStep] in Hown2.
  pose proof (two_addComponent_calls T this w) as Haux.
  destruct (addComponent T this w) as [first w1] eqn:E1.
  cbn [fst snd] in Hown2.
  destruct (addComponent T this w1) as [second w2] eqn:E2.
  cbn [fst snd] in Hown2. destruct Haux as (Hsecond & Hne & Hfirst).
  split; [done|].
  intros e cls Hget.
  destruct (Hown2 e cls first Hget) as (en & body & Hc & Hcls).
  rewrite Hfirst in Hc. injection Hc as _ <- <-.
  rewrite classOf_construct in Hcls. subst cls.
  rewrite Hsecond in Hget. congruence.
Qed.

(** X4.  [removeComponent(Rigidbody2D)] takes the body out of the
    registry but leaves its [entity] field pointing at the entity: a
    caller that kept the instance and calls its [update] still moves the
    entity's [Transform2D]. *)
Theorem removed_body_still_moves_owner (w : World) (this transform : CId)
    (owner : EId) (en en' : bool) (ow' : option EId)
    (rb : Rigidbody2D.t) (tr : Transform2D.t) (deltaTime : float) :
  comps w !! this = Some (Component.mk en (Some owner) (BRigidbody2D rb)) →
  getComponent Transform2D owner w = Some transform →
  comps w !! transform = Some (Component.mk en' ow' (BTransform2D tr)) →
  Rigidbody2D.isStatic rb = false →
  let w' := removeComponent Rigidbody2D owner w in
  getComponent Rigidbody2D owner w' = None ∧
  Component.entity <$> comps w' !! this = Some (Some owner) ∧
  transform2D transform (Component_update deltaTime this w') =
    Some (Transform2D.translate (Rigidbody2D.integrate deltaTime rb).2 tr).
Proof.
  intros Hthis Hget Htr Hst w'.
  split; [|split].
  - unfold w'. by rewrite getComponent_removeComponent, decide_True.
  - unfold w', removeComponent. rewrite comps_updEnt, Hthis. done.
  - apply (Component_update_integrates deltaTime this transform owner w'
             en en' ow' rb tr); [done| |done|done].
    unfold w'. rewrite getComponent_removeComponent, decide_False; [done|].
    intros [_ [=]].
Qed.

Lemma removed_body_still_moves_owner_witness :
  getComponent Rigidbody2D 0 (removeComponent Rigidbody2D 0 demoWorld) = None ∧
  Transform2D.position <$>
    transform2D 0
      (Component_update 1 1 (removeComponent Rigidbody2D 0 demoWorld))
  = Some (Vector2.mk 0 8.82).
Proof.
  destruct (removed_body_still_moves_owner demoWorld 1 0 0 true true (Some 0)
              Rigidbody2D.new Transform2D.new 1)
    as (Hnone & _ & Hmove); [reflexivity..|].
  split; [exact Hnone|]. rewrite Hmove. reflexivity.
Defined.

(** [update] of a body that finds no [Transform2D] returns at the null
    check. *)
Lemma Component_update_no_transform (deltaTime : float) (this : CId)
    (w : World) (en : bool) (ow : option EId) (rb : Rigidbody2D.t) :
  comps w !! this = Some (Component.mk en ow (BRigidbody2D rb)) →
  ow ≫= (λ e, getComponent Transform2D e w) = None →
  Component_update deltaTime this w = w.
Proof.
  intros Hthis Hnone. unfold Component_update. rewrite Hthis. simpl.
  unfold Rigidbody2D_update. destruct (Rigidbody2D.isStatic rb); [done|].
  simpl. by rewrite Hnone.
Qed.

(** X5.  A body whose owner has no [Transform2D] (or that has no owner) is
    as inert as a static one: its [update] applies no gravity, moves
    nothing and does not reset the acceleration, so over any mix of
    [applyForce] and [update] calls the scaled forces pile up in the
    acceleration and every other field stays as it was. *)
Theorem body_without_transform_piles_up_force (this : CId)
    (ops : list BodyOp) (w : World) (en : bool) (ow : option EId)
    (rb : Rigidbody2D.t) :
  comps w !! this = Some (Component.mk en ow (BRigidbody2D rb)) →
  ow ≫= (λ e, getComponent Transform2D e w) = None →
  runBody this ops w =
    setComp this
      (Component.mk en ow
         (BRigidbody2D
            (Rigidbody2D.with_acceleration
               (accumulated (Rigidbody2D.mass rb) ops
                  (Rigidbody2D.acceleration rb)) rb))) w.
Proof.
  revert w rb. induction ops as [|op ops IH]; intros w rb Hthis Hnone.
  - simpl. symmetry. apply setComp_id. by destruct rb.
  - change (runBody this (op :: ops) w)
      with (runBody this ops (bodyStep this op w)).
    destruct op as [force|dt]; simpl.
    + unfold Rigidbody2D_applyForce, onRigidbody. rewrite Hthis.
      erewrite IH; [|by rewrite comps_setComp, decide_True|exact Hnone].
      by rewrite setComp_setComp.
    + rewrite (Component_update_no_transform dt this w en ow rb Hthis Hnone).
      by apply IH.
Qed.

Lemma body_without_transform_piles_up_force_witness :
  rigidbody 0
    (runBody 0 [UpdateBody 1; ApplyForce (Vector2.mk 3 0); UpdateBody 1;
                ApplyForce (Vector2.mk 4 1)] bareBodyWorld)
  = Some (Rigidbody2D.mk Vector2.zero (Vector2.mk 7 1) 1 0.1 false 9.8).
Proof.
  rewrite (body_without_transform_piles_up_force 0 _ bareBodyWorld true
             (Some 0) Rigidbody2D.new); reflexivity.
Defined.

(** ** What the update pass keeps *)

Lemma bodyKept_refl (a : CompBody) : bodyKept a a.
Proof. destruct a; simpl; auto. Qed.

Lemma bodyKept_trans (a b c : CompBody) :
  bodyKept a b → bodyKept b c → bodyKept a c.
Proof.
  destruct a, b; simpl; try done; destruct c; simpl; try done.
  - intros [-> ->] [-> ->]. done.
  - intros (-> & -> & -> & ->) (-> & -> & -> & ->). done.
Qed.

Lemma sameShape_refl (w : World) : sameShape w w.
Proof.
  split; [done|]. intros c. destruct (comps w !! c); [|done].
  repeat split. apply bodyKept_refl.
Qed.

Lemma sameShape_trans (w1 w2 w3 : World) :
  sameShape w1 w2 → sameShape w2 w3 → sameShape w1 w3.
Proof.
  intros [He1 Hc1] [He2 Hc2]. split; [congruence|].
  intros c. specialize (Hc1 c). specialize (Hc2 c).
  destruct (comps w1 !! c), (comps w2 !! c), (comps w3 !! c); try done.
  destruct Hc1 as (? & ? & ?), Hc2 as (? & ? & ?).
  repeat split; [congruence|congruence|by eapply bodyKept_trans].
Qed.

Lemma ent_sameShape (w w' : World) (e : EId) :
  sameShape w w' → ent w' e = ent w e.
Proof. intros [He _]. unfold ent. by rewrite He. Qed.

Lemma Component_update_sameShape (deltaTime : float) (this : CId) (w : World) :
  sameShape w (Component_update deltaTime this w).
Proof.
  unfold Component_update.
  destruct (comps w !! this) as [[en ow body]|] eqn:Hthis;
    [|apply sameShape_refl].
  destruct body as [| rb | | | |]; simpl; try apply sameShape_refl.
  unfold Rigidbody2D_update. simpl.
  destruct (Rigidbody2D.isStatic rb) eqn:Hst; [apply sameShape_refl|].
  destruct (ow ≫= _) as [transform|]; [|apply sameShape_refl].
  destruct (comps w !! transform) as [[en' ow' [tr| | | | |]]|] eqn:Htr;
    try apply sameShape_refl.
  assert (this ≠ transform) as Hne by (intros ->; congruence).
  split; [done|]. intros c. simpl. rewrite !lookup_insert.
  destruct (decide (transform = c)) as [<-|Hc1].
  - rewrite Htr. repeat split.
  - destruct (decide (this = c)) as [<-|Hc2].
    + rewrite Hthis. repeat split. simpl. by rewrite Hst.
    + destruct (comps w !! c); [|done]. repeat split. apply bodyKept_refl.
Qed.

Lemma updateComponents_sameShape (deltaTime : float) (cs : list CId)
    (st : World * list CId) :
  sameShape st.1 (updateComponents deltaTime cs st).1 ∧
  ∃ more, (updateComponents deltaTime cs st).2 = st.2 ++ more.
Proof.
  revert st. induction cs as [|c cs IH]; intros [w log].
  - split; [apply sameShape_refl|]. exists []. simpl. by rewrite app_nil_r.
  - unfold updateComponents. simpl.
    set (st1 := match comps w !! c with
                | Some c0 =>
                    if Component.isEnabled c0
                    then (Component_update deltaTime c w, log ++ [c])
                    else (w, log)
                | None => (w, log)
                end).
    assert (sameShape w st1.1 ∧ ∃ more, st1.2 = log ++ more)
      as [Hs1 [m1 Hm1]].
    { unfold st1. destruct (comps w !! c) as [c0|];
        [destruct (Component.isEnabled c0)|]; simpl.
      - split; [apply Component_update_sameShape|by eexists].
      - split; [apply sameShape_refl|]. exists []. by rewrite app_nil_r.
      - split; [apply sameShape_refl|]. exists []. by rewrite app_nil_r. }
    destruct (IH st1) as [Hs2 [m2 Hm2]].
    fold (updateComponents deltaTime cs st1).
    split; [by eapply sameShape_trans|].
    exists (m1 ++ m2). rewrite Hm2, Hm1. by rewrite app_assoc.
Qed.

(** A relation kept by every step is kept by a run of steps that comes
    back. *)
Lemma foldl_bind_kept {A B : Type} (R : A → A → Prop)
    (F : B → A → option A) (l : list B) (a a' : A) :
  (∀ a, R a a) → (∀ a b c, R a b → R b c → R a c) →
  (∀ b a a', b ∈ l → F b a = Some a' → R a a') →
  foldl (λ acc b, acc ≫= F b) (Some a) l = Some a' → R a a'.
Proof.
  intros Hrefl Htrans. revert a.
  induction l as [|b l IH]; intros a HF; simpl.
  - intros [= <-]. apply Hrefl.
  - destruct (F b a) as [a1|] eqn:E; simpl.
    + intros Hrest. eapply Htrans.
      * eapply HF; [by left|done].
      * apply IH; [|done]. intros b0 a0 a0' Hb0. apply HF. by right.
    + by rewrite foldl_bind_None.
Qed.

Lemma updateKept_refl (st : World * list CId) : updateKept st st.
Proof. split; [apply sameShape_refl|]. exists []. by rewrite app_nil_r. Qed.

Lemma updateKept_trans (a b c : World * list CId) :
  updateKept a b → updateKept b c → updateKept a c.
Proof.
  intros [Hs1 [m1 Hm1]] [Hs2 [m2 Hm2]]. split; [by eapply sameShape_trans|].
  exists (m1 ++ m2). rewrite Hm2, Hm1. by rewrite app_assoc.
Qed.

Lemma Entity_update_kept (fuel : nat) (deltaTime : float) (this : EId)
    (st st' : World * list CId) :
  Entity_update fuel deltaTime this st = Some st' → updateKept st st'.
Proof.
  revert this st st'. induction fuel as [|f IH]; intros this st st'; [done|].
  simpl. destruct (negb _).
  - intros [= <-]. apply updateKept_refl.
  - intros Hfold. eapply updateKept_trans.
    + apply updateComponents_sameShape.
    + eapply (foldl_bind_kept updateKept); [| | |exact Hfold].
      * apply updateKept_refl.
      * apply updateKept_trans.
      * intros b a a' _. apply IH.
Qed.

(** X6.  A frame's update pass over a scene changes nothing but the
    velocity and acceleration of [Rigidbody2D] instances and the position
    of [Transform2D] instances: entities (names, flags, registries, child
    lists, parents) are untouched, no instance appears or disappears, and
    every instance keeps its enabled flag, its owner, its class and its
    other fields.  The list of invoked updates only grows. *)
Theorem Scene_update_keeps_shape (fuel : nat) (deltaTime : float)
    (s : Scene.t) (w w' : World) (log log' : list CId) :
  Scene_update fuel deltaTime s (w, log) = Some (w', log') →
  sameShape w w' ∧ ∃ more, log' = log ++ more.
Proof.
  intros H.
  apply (foldl_bind_kept updateKept
           (Entity_update fuel deltaTime) (Scene.rootEntities s)
           (w, log) (w', log')); [| | |exact H].
  - apply updateKept_refl.
  - apply updateKept_trans.
  - intros b a a' _. apply Entity_update_kept.
Qed.

Lemma Scene_update_keeps_shape_witness :
  ∃ w' log',
    Scene_update 2 1 (Scene.mk [0] ∅ "Scene") (demoWorld, []) = Some (w', log') ∧
    sameShape demoWorld w' ∧ log' = [0; 1].
Proof.
  eexists _, _. split; [reflexivity|]. split; [|reflexivity].
  apply (Scene_update_keeps_shape 2 1 (Scene.mk [0] ∅ "Scene") demoWorld _
           [] [0; 1]).
  reflexivity.
Defined.

(** ** Cyclic child lists *)

Lemma subtree_child (fuel : nat) (w : World) (a c : EId) (l : list EId) :
  subtree (S fuel) w a = Some l → c ∈ getChildren a w →
  ∃ lc, subtree fuel w c = Some lc.
Proof.
  simpl. intros (ls & Hls & _)%foldl_collect_Some Hc.
  apply list_elem_of_lookup in Hc as [i Hi].
  destruct (Forall2_lookup_l _ _ _ _ _ Hls Hi) as (lc & _ & Hsub). eauto.
Qed.

Lemma subtree_below (w : World) (a b : EId) :
  below w a b →
  ∀ fuel l, subtree fuel w a = Some l →
            ∃ fuel' lb, fuel' < fuel ∧ subtree fuel' w b = Some lb.
Proof.
  induction 1 as [a c Hc|a c b Hc _ IH]; intros fuel l Hl.
  - destruct fuel as [|f]; [done|].
    destruct (subtree_child _ _ _ _ _ Hl Hc) as [lc Hlc].
    exists f, lc. split; [lia|done].
  - destruct fuel as [|f]; [done|].
    destruct (subtree_child _ _ _ _ _ Hl Hc) as [lc Hlc].
    destruct (IH f lc Hlc) as (f' & lb & Hlt & Hlb).
    exists f', lb. split; [lia|done].
Qed.

Lemma subtree_cycle (w : World) (e : EId) (fuel : nat) :
  below w e e → subtree fuel w e = None.
Proof.
  intros Hcyc. induction fuel as [fuel IH] using lt_wf_ind.
  destruct (subtree fuel w e) as [l|] eqn:E; [|done].
  destruct (subtree_below w e e Hcyc fuel l E) as (f' & lb & Hlt & Hlb).
  rewrite (IH f' Hlt) in Hlb. done.
Qed.

Lemma below_renamed (e : EId) (n : option string) (w : World) (a b : EId) :
  below w a b → below (renamed e n w) a b.
Proof.
  induction 1 as [a c Hc|a c b Hc _ IH].
  - apply below_child. by rewrite getChildren_renamed.
  - eapply below_step; [|exact IH]. by rewrite getChildren_renamed.
Qed.

(** X7.  An entity that lies on a cycle of child lists cannot be given to
    a scene: however deep the recursion is allowed to go, [addEntity] on it
    does not come back, and neither does [removeEntity] once it is among
    the roots. *)
Theorem addEntity_diverges_on_cycle (fuel : nat) (entity : EId)
    (name : option string) (w : World) (s : Scene.t) :
  below w entity entity →
  addEntity fuel entity name (w, s) = None ∧
  (entity ∈ Scene.rootEntities s → removeEntity fuel entity (w, s) = None).
Proof.
  intros Hcyc. split.
  - rewrite addEntity_unfold, registerEntity_subtree.
    rewrite subtree_cycle; [done|]. by apply below_renamed.
  - intros Hroot. unfold removeEntity.
    destruct (indexOf entity (Scene.rootEntities s)) as [i|] eqn:Ei.
    + by rewrite unregisterEntity_subtree, subtree_cycle.
    + by apply indexOf_None in Ei.
Qed.

Lemma addEntity_diverges_on_cycle_witness :
  addEntity 1000 3 None (loopWorld, Scene.new) = None.
Proof.
  apply (addEntity_diverges_on_cycle 1000 3 None loopWorld Scene.new).
  apply below_child. apply list_elem_of_singleton. reflexivity.
Defined.

Lemma belowActive_sameShape (w w' : World) (a b : EId) :
  sameShape w w' → belowActive w a b → belowActive w' a b.
Proof.
  intros Hs. induction 1 as [a c Ha Hc|a c b Ha Hc _ IH].
  - apply belowActive_child.
    + by rewrite (ent_sameShape w w').
    + unfold getChildren. by rewrite (ent_sameShape w w').
  - eapply belowActive_step; [| |exact IH].
    + by rewrite (ent_sameShape w w').
    + unfold getChildren. by rewrite (ent_sameShape w w').
Qed.

(** When the loop over a child list comes back, the update of each child
    came back, from a state of the same shape. *)
Lemma children_loop_child (fuel : nat) (deltaTime : float) (w : World)
    (l : list EId) (c : EId) (st st' : World * list CId) :
  sameShape w st.1 →
  foldl (λ acc child, acc ≫= Entity_update fuel deltaTime child) (Some st) l
    = Some st' →
  c ∈ l →
  ∃ st1 st2, sameShape w st1.1 ∧
             Entity_update fuel deltaTime c st1 = Some st2.
Proof.
  revert st. induction l as [|x l IH]; intros st Hs Hfold Hc.
  - by apply elem_of_nil in Hc.
  - simpl in Hfold.
    destruct (Entity_update fuel deltaTime x st) as [st1|] eqn:E;
      [|by rewrite foldl_bind_None in Hfold].
    apply elem_of_cons in Hc as [->|Hc]; [by exists st, st1|].
    apply (IH st1); [|done|done].
    eapply sameShape_trans; [exact Hs|]. by apply Entity_update_kept in E as [? _].
Qed.

Lemma Entity_update_child (fuel : nat) (deltaTime : float) (w : World)
    (a c : EId) (st st' : World * list CId) :
  sameShape w st.1 → Entity.active (ent w a) = true → c ∈ getChildren a w →
  Entity_update (S fuel) deltaTime a st = Some st' →
  ∃ st1 st2, sameShape w st1.1 ∧
             Entity_update fuel deltaTime c st1 = Some st2.
Proof.
  intros Hs Ha Hc. simpl.
  rewrite (ent_sameShape w st.1 a Hs), Ha. simpl.
  pose proof (updateComponents_sameShape deltaTime (getComponents a st.1) st)
    as [Hs1 _].
  set (st1 := updateComponents deltaTime (getComponents a st.1) st) in *.
  assert (sameShape w st1.1) as Hs1' by by eapply sameShape_trans.
  rewrite (ent_sameShape w st1.1 a Hs1'). intros Hfold.
  by eapply children_loop_child.
Qed.

Lemma Entity_update_below (w : World) (a b : EId) :
  belowActive w a b →
  ∀ fuel deltaTime st st',
    sameShape w st.1 → Entity_update fuel deltaTime a st = Some st' →
    ∃ fuel' st1 st2, fuel' < fuel ∧ sameShape w st1.1 ∧
                     Entity_update fuel' deltaTime b st1 = Some st2.
Proof.
  induction 1 as [a c Ha Hc|a c b Ha Hc _ IH]; intros fuel dt st st' Hs Hup.
  - destruct fuel as [|f]; [done|].
    destruct (Entity_update_child f dt w a c st st' Hs Ha Hc Hup)
      as (st1 & st2 & Hs1 & H1).
    exists f, st1, st2. split; [lia|done].
  - destruct fuel as [|f]; [done|].
    destruct (Entity_update_child f dt w a c st st' Hs Ha Hc Hup)
      as (st1 & st2 & Hs1 & H1).
    destruct (IH f dt st1 st2 Hs1 H1) as (f' & st3 & st4 & Hlt & Hs3 & H3).
    exists f', st3, st4. split; [lia|done].
Qed.

(** X8.  An active entity on a cycle of child lists whose entities are all
    active cannot be updated: however deep the recursion is allowed to go,
    [update] on it does not come back. *)
Theorem Entity_update_diverges_on_active_cycle (fuel : nat)
    (deltaTime : float) (this : EId) (w : World) (log : list CId) :
  belowActive w this this →
  Entity_update fuel deltaTime this (w, log) = None.
Proof.
  intros Hcyc.
  assert (∀ fuel st, sameShape w st.1 →
                     Entity_update fuel deltaTime this st = None) as Hall.
  { clear fuel log. intros fuel.
    induction fuel as [fuel IH] using lt_wf_ind. intros st Hs.
    destruct (Entity_update fuel deltaTime this st) as [st'|] eqn:E; [|done].
    destruct (Entity_update_below w this this Hcyc fuel deltaTime st st' Hs E)
      as (f' & st1 & st2 & Hlt & Hs1 & H1).
    rewrite (IH f' Hlt st1 Hs1) in H1. done. }
  apply Hall. apply sameShape_refl.
Qed.

Lemma Entity_update_diverges_on_active_cycle_witness :
  Entity_update 1000 1 3 (loopWorld, []) = None.
Proof.
  apply (Entity_update_diverges_on_active_cycle 1000 1 3 loopWorld []).
  apply belowActive_child; [reflexivity|].
  apply list_elem_of_singleton. reflexivity.
Defined.

(** ** Attaching, detaching and destroying *)

Lemma indexOf_app_new (c : EId) (l : list EId) :
  c ∉ l → indexOf c (l ++ [c]) = Some (length l).
Proof.
  induction l as [|y l IH]; simpl; intros Hc.
  - by rewrite decide_True.
  - apply not_elem_of_cons in Hc as [Hne Hc].
    rewrite decide_False by done. by rewrite IH.
Qed.

Lemma splice1_app_last (c : EId) (l : list EId) :
  splice1 (length l) (l ++ [c]) = l.
Proof.
  unfold splice1. rewrite take_app_length.
  rewrite drop_ge; [by rewrite app_nil_r|]. rewrite length_app. simpl. lia.
Qed.

(** X9.  [removeChild] undoes [addChild]: when the child was not already
    in the parent's list, [parent.addChild(child)] followed by
    [parent.removeChild(child)] puts every child list back as it was and
    leaves the child without a parent; no other parent reference moves. *)
Theorem addChild_removeChild_round_trip (parent child : EId) (w : World) :
  child ∉ getChildren parent w →
  let w' := removeChild parent child (addChild parent child w) in
  (∀ q, getChildren q w' = getChildren q w) ∧
  getParent child w' = None ∧
  (∀ x, x ≠ child → getParent x w' = getParent x w).
Proof.
  intros Hnew w'.
  assert (indexOf child (getChildren parent (addChild parent child w))
          = Some (length (getChildren parent w))) as Hi.
  { rewrite children_addChild, decide_True by done.
    by apply indexOf_app_new. }
  split; [|split].
  - intros q. unfold w'. rewrite (children_removeChild _ _ _ _ _ Hi).
    rewrite !children_addChild.
    destruct (decide (q = parent)) as [->|Hq].
    + rewrite decide_True by done. apply splice1_app_last.
    + done.
  - unfold w'. by rewrite (parent_removeChild _ _ _ _ _ Hi), decide_True.
  - intros x Hx. unfold w'.
    rewrite (parent_removeChild _ _ _ _ _ Hi), decide_False by done.
    by rewrite parent_addChild, decide_False.
Qed.

Lemma addChild_removeChild_round_trip_witness :
  getChildren 0 (removeChild 0 2 (addChild 0 2 (addChild 0 1 emptyWorld)))
  = [1].
Proof.
  destruct (addChild_removeChild_round_trip 0 2 (addChild 0 1 emptyWorld))
    as (Hch & _ & _).
  - intros [[=]|H]%elem_of_cons. by apply elem_of_nil in H.
  - rewrite Hch. reflexivity.
Defined.

(** What [destroy] leaves behind in a consistent tree. *)
Lemma destroy_effects (this : EId) (w : World) :
  consistent w →
  let w' := destroy this w in
  getParent this w' = None ∧
  (∀ q, this ∉ getChildren q w') ∧
  getComponents this w' = [] ∧
  getChildren this w' = [] ∧
  (∀ c, c ∈ getChildren this w → c ≠ this → getParent c w' = Some this).
Proof.
  intros [Hdown Hup] w'. unfold w', destroy.
  set (w1 := match Entity.parent (ent w this) with
             | Some p => removeChild p this w
             | None => w
             end).
  assert (getParent this w1 = None ∧
          (∀ q, this ∉ getChildren q w1) ∧
          (∀ c, c ≠ this → getParent c w1 = getParent c w))
    as (Hp1 & Hin1 & Hoth1).
  { unfold w1. destruct (Entity.parent (ent w this)) as [p|] eqn:Hp.
    - pose proof (Hup this p Hp) as Hone.
      destruct (indexOf this (getChildren p w)) as [i|] eqn:Ei.
      + split; [|split].
        * by rewrite (parent_removeChild _ _ _ _ _ Ei), decide_True.
        * intros q. rewrite (children_removeChild _ _ _ _ _ Ei).
          case_decide as Hq; [subst q|].
          -- apply occ_not_elem_of.
             rewrite (occ_splice1 _ _ _ _ Ei), decide_True by done. lia.
          -- intros Hin. apply Hdown in Hin.
             unfold getParent in Hin. congruence.
        * intros c Hc.
          by rewrite (parent_removeChild _ _ _ _ _ Ei), decide_False.
      + apply indexOf_None, occ_not_elem_of in Ei. lia.
    - split; [done|]. split; [|done].
      intros q Hin. apply Hdown in Hin. unfold getParent in Hin. congruence. }
  split; [|split; [|split; [|split]]].
  - unfold getParent in *. rewrite ent_updEnt, decide_True by done. done.
  - intros q. unfold getChildren. rewrite ent_updEnt.
    case_decide; [apply not_elem_of_nil|apply Hin1].
  - unfold getComponents. by rewrite ent_updEnt, decide_True.
  - unfold getChildren. by rewrite ent_updEnt, decide_True.
  - intros c Hc Hne.
    assert (getParent c w1 = Some this) as Hpc.
    { rewrite Hoth1 by done. by apply Hdown. }
    unfold getParent in *. by rewrite ent_updEnt, decide_False.
Qed.

(** X10.  In a consistent tree [destroy] detaches the entity and empties
    it: afterwards it has no parent, is in no child list, and has no
    components and no children.  Its former children are not told: each
    still names the destroyed entity as its parent. *)
Theorem destroy_detaches_and_orphans (this : EId) (w : World) :
  consistent w →
  let w' := destroy this w in
  getParent this w' = None ∧
  (∀ q, this ∉ getChildren q w') ∧
  getComponents this w' = [] ∧
  getChildren this w' = [] ∧
  (∀ c, c ∈ getChildren this w → c ≠ this → getParent c w' = Some this).
Proof. apply destroy_effects. Qed.

Lemma destroy_detaches_and_orphans_witness :
  let w := addChild 1 2 (addChild 0 1 emptyWorld) in
  getParent 1 (destroy 1 w) = None ∧
  getChildren 0 (destroy 1 w) = [] ∧
  getParent 2 (destroy 1 w) = Some 1.
Proof.
  intros w.
  destruct (destroy_detaches_and_orphans 1 w) as (Hp & _ & _ & _ & Horphan).
  - apply consistent_addChild; [|reflexivity].
    apply consistent_addChild; [apply consistent_emptyWorld|reflexivity].
  - split; [exact Hp|]. split; [reflexivity|].
    apply Horphan; [|discriminate].
    apply list_elem_of_singleton. reflexivity.
Defined.

(** ** Registering with and removing from a scene *)

(** What [addEntity] does to the scene when the walk below the entity
    ends. *)
Lemma addEntity_registers (fuel : nat) (entity : EId)
    (name : option string) (w : World) (s : Scene.t) (l : list EId) :
  subtree fuel w entity = Some l →
  ∃ s', addEntity fuel entity name (w, s) = Some (renamed entity name w, s') ∧
        Scene.rootEntities s' = Scene.rootEntities s ++ [entity] ∧
        (∀ k, findEntity k s' =
              match lastNamed (renamed entity name w) k l with
              | Some x => Some x
              | None => findEntity k s
              end).
Proof.
  intros Hl.
  rewrite addEntity_unfold, registerEntity_subtree, subtree_renamed, Hl.
  simpl. eexists. split; [done|]. split; [done|].
  intros k. unfold findEntity. simpl. apply regAll_lookup.
Qed.

(** X11.  [addEntity] returns whenever the walk below the entity ends.
    The entity becomes the last root; every name held at or below it is
    then found, and goes to the last entity at or below it that holds the
    name, replacing whatever the name went to before; every other name goes
    where it went before. *)
Theorem addEntity_indexes_subtree (fuel : nat) (entity : EId)
    (name : option string) (w : World) (s : Scene.t) (l : list EId) :
  subtree fuel w entity = Some l →
  let w' := renamed entity name w in
  ∃ s', addEntity fuel entity name (w, s) = Some (w', s') ∧
        Scene.rootEntities s' = Scene.rootEntities s ++ [entity] ∧
        (∀ k, findEntity k s' =
              match lastNamed w' k l with
              | Some x => Some x
              | None => findEntity k s
              end) ∧
        (∀ x, x ∈ l →
              ∃ y, findEntity (Entity.name (ent w' x)) s' = Some y ∧
                   y ∈ l ∧ Entity.name (ent w' y) = Entity.name (ent w' x)).
Proof.
  intros Hl w'.
  rewrite addEntity_unfold, registerEntity_subtree, subtree_renamed, Hl.
  simpl. eexists. split; [done|]. split; [done|].
  assert (∀ k, findEntity k
                 (Scene.mk (Scene.rootEntities s ++ [entity])
                    (regAll w' l (Scene.allEntities s)) (Scene.name s)) =
               match lastNamed w' k l with
               | Some x => Some x
               | None => findEntity k s
               end) as Hfind.
  { intros k. unfold findEntity. simpl. apply regAll_lookup. }
  split; [exact Hfind|].
  intros x Hx. rewrite Hfind.
  destruct (lastNamed w' (Entity.name (ent w' x)) l) as [y|] eqn:Ey.
  - exists y. split; [done|]. by apply lastNamed_Some in Ey.
  - apply lastNamed_None in Ey. exfalso. apply Ey, elem_of_names. eauto.
Qed.

Lemma addEntity_indexes_subtree_witness :
  ∃ s', addEntity 2 5 (Some "Enemy") (armedWorld, Scene.new)
          = Some (renamed 5 (Some "Enemy") armedWorld, s') ∧
        findEntity "Gun" s' = Some 6 ∧ findEntity "Enemy" s' = Some 5.
Proof.
  destruct (addEntity_indexes_subtree 2 5 (Some "Enemy") armedWorld Scene.new
              [5; 6] eq_refl) as (s' & Hadd & _ & Hfind & _).
  exists s'. split; [exact Hadd|]. rewrite !Hfind. split; reflexivity.
Defined.

Lemma removeEntity_not_root (fuel : nat) (entity : EId)
    (w : World) (s : Scene.t) :
  entity ∉ Scene.rootEntities s → removeEntity fuel entity (w, s) = Some (w, s).
Proof.
  intros Hnot. unfold removeEntity.
  destruct (indexOf entity (Scene.rootEntities s)) as [i|] eqn:Ei; [|done].
  by apply indexOf_Some in Ei.
Qed.

(** [indexOf] finds the first occurrence, and [splice1] at that index
    takes out that occurrence and keeps the order of the rest. *)
Lemma indexOf_splice1 (x : EId) (l : list EId) (i : nat) :
  indexOf x l = Some i →
  ∃ before after, l = before ++ x :: after ∧ (x ∉ before) ∧
                  length before = i ∧ splice1 i l = before ++ after.
Proof.
  revert i. induction l as [|y l IH]; intros i; simpl; [done|].
  destruct (decide (x = y)) as [->|Hne].
  - intros [= <-]. exists [], l. split; [done|]. split; [set_solver|].
    split; [done|]. unfold splice1. simpl. by rewrite drop_0.
  - destruct (indexOf x l) as [j|] eqn:E; [|done]. intros [= <-].
    destruct (IH j eq_refl) as (before & after & -> & Hnot & Hlen & Hsp).
    exists (y :: before), after. split; [done|].
    split; [by apply not_elem_of_cons|]. split; [by simpl; f_equal|].
    change (splice1 (S j) (y :: before ++ x :: after))
      with (y :: splice1 j (before ++ x :: after)).
    by rewrite Hsp.
Qed.

(** X12.  [removeEntity] only acts on roots.  Given an entity that is not
    in the root list it changes nothing, even when the entity is indexed as
    somebody's descendant.  Given a root whose walk ends, it takes out the
    first occurrence of the root and leaves the other roots in their
    order, and afterwards no name held at or below the root is found,
    whoever else holds it, while every other name goes where it went
    before; the store and the scene's own name are untouched. *)
Theorem removeEntity_unregisters_names (fuel : nat) (entity : EId)
    (w : World) (s : Scene.t) :
  (entity ∉ Scene.rootEntities s → removeEntity fuel entity (w, s) = Some (w, s)) ∧
  (∀ l, entity ∈ Scene.rootEntities s → subtree fuel w entity = Some l →
        ∃ s' before after,
          removeEntity fuel entity (w, s) = Some (w, s') ∧
          Scene.rootEntities s = before ++ entity :: after ∧
          (entity ∉ before) ∧
          Scene.rootEntities s' = before ++ after ∧
          Scene.name s' = Scene.name s ∧
          (∀ k, findEntity k s' =
                if decide (k ∈ names w l) then None else findEntity k s)).
Proof.
  split.
  - intros Hnot. unfold removeEntity.
    destruct (indexOf entity (Scene.rootEntities s)) as [i|] eqn:Ei; [|done].
    by apply indexOf_Some in Ei.
  - intros l Hroot Hl. unfold removeEntity.
    destruct (indexOf entity (Scene.rootEntities s)) as [i|] eqn:Ei;
      [|by apply indexOf_None in Ei].
    rewrite unregisterEntity_subtree, Hl. simpl.
    destruct (indexOf_splice1 _ _ _ Ei)
      as (before & after & Hroots & Hnot & _ & Hsp).
    eexists _, before, after. split; [done|]. split; [done|].
    split; [done|]. split; [done|]. split; [done|].
    intros k. unfold findEntity. simpl. rewrite unregAll_lookup.
    destruct (lastNamed w k l) as [x|] eqn:Ek.
    + rewrite decide_True; [done|].
      apply lastNamed_Some in Ek as [? ?]. apply elem_of_names. eauto.
    + apply lastNamed_None in Ek. by rewrite decide_False.
Qed.

Lemma removeEntity_unregisters_names_witness :
  ∃ s s', addEntity 2 5 (Some "Enemy") (armedWorld, Scene.new)
            = Some (renamed 5 (Some "Enemy") armedWorld, s) ∧
          removeEntity 2 6 (renamed 5 (Some "Enemy") armedWorld, s)
            = Some (renamed 5 (Some "Enemy") armedWorld, s) ∧
          removeEntity 2 5 (renamed 5 (Some "Enemy") armedWorld, s)
            = Some (renamed 5 (Some "Enemy") armedWorld, s') ∧
          findEntity "Gun" s' = None.
Proof.
  exists (Scene.mk [5] (regAll (renamed 5 (Some "Enemy") armedWorld) [5; 6] ∅)
            "Scene").
  destruct (removeEntity_unregisters_names 2 5
              (renamed 5 (Some "Enemy") armedWorld)
              (Scene.mk [5]
                 (regAll (renamed 5 (Some "Enemy") armedWorld) [5; 6] ∅)
                 "Scene")) as [_ Hroot].
  destruct (Hroot [5; 6])
    as (s' & before & after & Hrem & _ & _ & _ & _ & Hfind);
    [apply list_elem_of_singleton; reflexivity|reflexivity|].
  exists s'. split; [reflexivity|]. split; [reflexivity|].
  split; [exact Hrem|]. rewrite Hfind. reflexivity.
Defined.

Lemma length_remove_dups (l : list string) :
  length (remove_dups l) ≤ length l.
Proof.
  induction l as [|x l IH]; simpl; [done|].
  destruct (decide_rel elem_of x l); simpl; lia.
Qed.

(** X13.  [getEntityCount] counts names, not entities.  Over the call
    sequences that keep the index in step with the scene, it is the number
    of distinct names among the scene's entities, so it is at most the
    number of entities, and smaller as soon as two of them share a name. *)
Theorem getEntityCount_counts_names (fuel : nat) (ops : list SceneOp)
    (w : World) :
  sceneAllowed fuel ops (w, Scene.new) →
  ∃ st' R, runScene fuel ops (w, Scene.new) = Some st' ∧
           forest fuel st'.1 (Scene.rootEntities st'.2) = Some R ∧
           getEntityCount st'.2 = length (remove_dups (names st'.1 R)) ∧
           getEntityCount st'.2 ≤ length R.
Proof.
  intros Hok.
  destruct (sceneInv_run fuel ops (w, Scene.new) (sceneInv_new fuel w) Hok)
    as (st' & Hrun & R & HR & Hidx).
  exists st', R. split; [done|]. split; [done|].
  assert (getEntityCount st'.2 = length (remove_dups (names st'.1 R))) as Hn.
  { unfold getEntityCount.
    rewrite <- (size_dom (D:=gset string)).
    rewrite <- (size_list_to_set (C:=gset string))
      by apply NoDup_remove_dups.
    f_equal. apply set_eq. intros k.
    rewrite elem_of_dom, elem_of_list_to_set, elem_of_remove_dups, Hidx.
    rewrite <- not_eq_None_Some, lastNamed_None. split; [|by auto].
    intros H. by destruct (decide (k ∈ names st'.1 R)). }
  split; [done|]. rewrite Hn.
  etrans; [apply length_remove_dups|]. unfold names. by rewrite length_fmap.
Qed.

Lemma getEntityCount_counts_names_witness :
  ∃ st', runScene 1 [AddEntity 0 (Some "Enemy"); AddEntity 1 (Some "Enemy");
                     AddEntity 2 (Some "Player")]
           (emptyWorld, Scene.new) = Some st' ∧
         length (Scene.rootEntities st'.2) = 3 ∧ getEntityCount st'.2 = 2.
Proof.
  destruct (getEntityCount_counts_names 1
              [AddEntity 0 (Some "Enemy"); AddEntity 1 (Some "Enemy");
               AddEntity 2 (Some "Player")] emptyWorld)
    as (st' & R & Hrun & _ & _ & _).
  - repeat split; vm_compute; set_solver.
  - exists st'. split; [exact Hrun|].
    vm_compute in Hrun. injection Hrun as <-. split; reflexivity.
Defined.

(** ** Creating and destroying through the engine *)

Lemma addEntity_keeps_scene_name (fuel : nat) (entity : EId)
    (name : option string) (w w' : World) (s s' : Scene.t) :
  addEntity fuel entity name (w, s) = Some (w', s') →
  Scene.name s' = Scene.name s.
Proof.
  unfold addEntity. intros H.
  destruct (registerEntity _ _ _ _) as [index|]; simpl in H; [|done].
  by injection H as <- <-.
Qed.

(** X14.  [createEntity(name)] always returns: it builds an entity that
    was not in the store, leaves it as the constructor made it (the given
    name, active, no components, children or parent), pushes it as the last
    root and indexes it, so that [findEntity(name)] now returns it,
    whichever entity the name went to before.  No other entity, no other
    name and nothing else of the engine changes: the scene keeps its own
    name, and both renderers, the input manager, the mode, the running
    flag and the frame timers and counters are what they were. *)
Theorem createEntity_registers_new_root (fuel : nat) (name : string)
    (w : World) (g : GameEngine.t) :
  ∃ e w' g',
    createEntity (S fuel) name (w, g) = Some (e, w', g') ∧
    entities w !! e = None ∧
    ent w' e = Entity.new name true ∧
    (∀ x, x ≠ e → ent w' x = ent w x) ∧
    comps w' = comps w ∧
    Scene.rootEntities (GameEngine.scene g')
      = Scene.rootEntities (GameEngine.scene g) ++ [e] ∧
    findEntity name (GameEngine.scene g') = Some e ∧
    (∀ k, k ≠ name →
          findEntity k (GameEngine.scene g')
          = findEntity k (GameEngine.scene g)) ∧
    GameEngine.renderStep g' = GameEngine.renderStep g ∧
    GameEngine.isRunning g' = GameEngine.isRunning g ∧
    Scene.name (GameEngine.scene g') = Scene.name (GameEngine.scene g) ∧
    g' = GameEngine.mk (GameEngine.scene g')
           (GameEngine.canvas2DRenderer g) (GameEngine.webglRenderer g)
           (GameEngine.inputManager g) (GameEngine.renderMode g)
           (GameEngine.isRunning g) (GameEngine.lastTime g)
           (GameEngine.frameCount g) (GameEngine.fps g)
           (GameEngine.fpsUpdateTime g).
Proof.
  unfold createEntity.
  set (e := fresh (dom (entities w))).
  set (w1 := setEnt e (Entity.new name true) w).
  assert (ent w1 e = Entity.new name true) as He1.
  { unfold w1. by rewrite ent_setEnt, decide_True. }
  assert (subtree (S fuel) w1 e = Some [e]) as Hsub.
  { simpl. unfold getChildren. by rewrite He1. }
  assert (ent (renamed e (Some name) w1) e = Entity.new name true) as He2.
  { unfold renamed. rewrite ent_updEnt, decide_True by done.
    rewrite He1. simpl. by case_decide; subst. }
  destruct (addEntity_registers (S fuel) e (Some name) w1
              (GameEngine.scene g) [e] Hsub) as (s' & Hadd & Hroots & Hfind).
  rewrite Hadd. simpl.
  exists e, (renamed e (Some name) w1). eexists. split; [done|].
  split; [apply not_elem_of_dom, is_fresh|].
  split; [done|]. split.
  { intros x Hx. unfold renamed, w1.
    by rewrite ent_updEnt, decide_False, ent_setEnt, decide_False. }
  split; [done|]. split; [done|]. simpl. split.
  - rewrite Hfind. unfold lastNamed. rewrite filter_cons, decide_True; [done|].
    by rewrite He2.
  - split.
    { intros k Hk. rewrite Hfind. unfold lastNamed.
      rewrite filter_cons, decide_False; [done|]. by rewrite He2. }
    split; [done|]. split; [done|].
    split; [exact (addEntity_keeps_scene_name _ _ _ _ _ _ _ Hadd)|done].
Qed.

Lemma descendant_inv (w : World) (r e : EId) :
  descendant w r e → r = e ∨ ∃ q, e ∈ getChildren q w.
Proof.
  induction 1 as [e|e0 c d Hc _ IH]; [by left|].
  right. destruct IH as [->|IH]; [by exists e0|done].
Qed.

(** X15.  [destroyEntity] on an entity that is not a root of the scene
    skips the unregistering ([removeEntity] only knows roots) and goes on
    to [destroy]: in a consistent tree the entity ends up detached from its
    parent, emptied, and no longer among the scene's entities, while
    [findEntity] still returns it under every name it was indexed by. *)
Theorem destroyEntity_child_stays_indexed (fuel : nat) (entity : EId)
    (k : string) (w : World) (g : GameEngine.t) :
  consistent w →
  entity ∉ Scene.rootEntities (GameEngine.scene g) →
  findEntity k (GameEngine.scene g) = Some entity →
  ∃ w' g', destroyEntity fuel entity (w, g) = Some (w', g') ∧
           findEntity k (GameEngine.scene g') = Some entity ∧
           ¬ registered (w', GameEngine.scene g') entity ∧
           getComponents entity w' = [] ∧
           getParent entity w' = None.
Proof.
  intros Hc Hroot Hfind. unfold destroyEntity.
  rewrite (removeEntity_not_root fuel entity w
             (GameEngine.scene g) Hroot). simpl. eexists _, _. split; [done|]. simpl.
  destruct (destroy_effects entity w Hc) as (Hp & Hin & Hcs & _ & _).
  split; [done|]. split; [|done].
  intros (r & Hr & Hd). simpl in Hr, Hd.
  apply descendant_inv in Hd as [->|[q Hq]]; [done|]. by apply Hin in Hq.
Qed.

Lemma destroyEntity_child_stays_indexed_witness :
  let g := GameEngine.mk (Scene.mk [5] {["Gun" := 6]} "Scene")
             None None None Mode2D false 0 0 0 0 in
  ∃ w' g', destroyEntity 0 6 (armedWorld, g) = Some (w', g') ∧
           findEntity "Gun" (GameEngine.scene g') = Some 6 ∧
           getChildren 5 w' = [].
Proof.
  intros g.
  destruct (destroyEntity_child_stays_indexed 0 6 "Gun" armedWorld g)
    as (w' & g' & Hd & Hfind & _).
  - apply consistent_addChild; [|reflexivity]. split.
    + intros p c. unfold getChildren. rewrite ent_updEnt.
      case_decide; intros Hin; by apply elem_of_nil in Hin.
    + intros c p. unfold getParent. rewrite ent_updEnt.
      by case_decide.
  - intros [[=]|H]%elem_of_cons. by apply elem_of_nil in H.
  - reflexivity.
  - exists w', g'. split; [exact Hd|]. split; [exact Hfind|].
    vm_compute in Hd. injection Hd as <- _. reflexivity.
Defined.

(** ** What the renderers draw *)














(** ** More input edges *)

Section MoreInputEdges.
Import InputManager.

Lemma justReleased_step (key : string) (x : Step) (s : t) :
  x ≠ Update → key ∈ keysJustReleased s → key ∈ keysJustReleased (step x s).
Proof.
  intros Hx Hin. destruct x as [[k|k| | | | | | |]|]; simpl; try done.
  set_solver.
Qed.

Lemma notJustReleased_step (key : string) (x : Step) (s : t) :
  x ≠ Raw (KeyUp key) → key ∉ keysJustReleased s →
  key ∉ keysJustReleased (step x s).
Proof.
  intros Hx Hnot. destruct x as [[k|k| | | | | | |]|]; simpl; try done;
    try (assert (k ≠ key) by congruence); set_solver.
Qed.

Lemma notHeld_step (key : string) (x : Step) (s : t) :
  x ≠ Raw (KeyDown key) → key ∉ keysPressed s → key ∉ keysPressed (step x s).
Proof.
  intros Hx Hnot. destruct x as [[k|k| | | | | | |]|]; simpl; try done;
    try (assert (k ≠ key) by congruence); set_solver.
Qed.

Lemma justReleased_run (key : string) (xs : list Step) (s : t) :
  Forall (λ x, x ≠ Update) xs →
  key ∈ keysJustReleased s → key ∈ keysJustReleased (run xs s).
Proof.
  intros Hxs. revert s. induction Hxs as [|x xs Hx _ IH]; intros s Hin.
  - done.
  - rewrite run_cons. by apply IH, justReleased_step.
Qed.

Lemma notJustReleased_run (key : string) (xs : list Step) (s : t) :
  Forall (λ x, x ≠ Raw (KeyUp key)) xs →
  key ∉ keysJustReleased s → key ∉ keysJustReleased (run xs s).
Proof.
  intros Hxs. revert s. induction Hxs as [|x xs Hx _ IH]; intros s Hin.
  - done.
  - rewrite run_cons. by apply IH, notJustReleased_step.
Qed.

Lemma notHeld_run (key : string) (xs : list Step) (s : t) :
  Forall (λ x, x ≠ Raw (KeyDown key)) xs →
  key ∉ keysPressed s → key ∉ keysPressed (run xs s).
Proof.
  intros Hxs. revert s. induction Hxs as [|x xs Hx _ IH]; intros s Hin.
  - done.
  - rewrite run_cons. by apply IH, notHeld_step.
Qed.

(** X18.  A raw release of a key, held or not: [isKeyJustReleased] is true
    from then on through any raw events up to the next [update()]; after
    an [update()] it is false until the key is released again; and
    [isKeyPressed] is false until the key is pressed again.  A key pressed
    and released between two [update()] calls is seen as just pressed and
    just released, but not as held. *)
Theorem key_release_edge_lasts_one_update (key : string) (s : t) :
  let released := handle (KeyUp key) s in
  (∀ xs, Forall (λ x, x ≠ Update) xs →
         isKeyJustReleased key (run xs released) = true) ∧
  (∀ xs ys, Forall (λ x, x ≠ Raw (KeyUp key)) ys →
            isKeyJustReleased key (run ys (update (run xs released)))
            = false) ∧
  (∀ xs, Forall (λ x, x ≠ Raw (KeyDown key)) xs →
         isKeyPressed key (run xs released) = false) ∧
  (isKeyPressed key s = false →
   let tapped := handle (KeyUp key) (handle (KeyDown key) s) in
   isKeyJustPressed key tapped = true ∧
   isKeyJustReleased key tapped = true ∧
   isKeyPressed key tapped = false).
Proof.
  intros released. split; [|split; [|split]].
  - intros xs Hxs. apply bool_decide_eq_true.
    apply justReleased_run; [done|]. simpl. set_solver.
  - intros xs ys Hys. apply bool_decide_eq_false.
    apply notJustReleased_run; [done|]. simpl. set_solver.
  - intros xs Hxs. apply bool_decide_eq_false.
    apply notHeld_run; [done|]. simpl. set_solver.
  - intros Hfree%bool_decide_eq_false tapped. repeat split.
    + apply bool_decide_eq_true. simpl.
      rewrite decide_False by done. set_solver.
    + apply bool_decide_eq_true. simpl. set_solver.
    + apply bool_decide_eq_false. simpl. set_solver.
Qed.

Lemma buttonHeld_step (button : Z) (x : Step) (s : t) :
  x ≠ Raw (MouseUp button) → x ≠ Raw MouseOut →
  button ∈ mouseButtonsPressed s → button ∈ mouseButtonsPressed (step x s).
Proof.
  intros Hx Ho Hin. destruct x as [[| | |b|b| | | |]|]; simpl; try done.
  - set_solver.
  - assert (b ≠ button) by congruence. set_solver.
Qed.

Lemma buttonJustPressed_step (button : Z) (x : Step) (s : t) :
  x ≠ Update → button ∈ mouseButtonsJustPressed s →
  button ∈ mouseButtonsJustPressed (step x s).
Proof.
  intros Hx Hin. destruct x as [[| | |b|b| | | |]|]; simpl; try done.
  case_decide; set_solver.
Qed.

Lemma buttonJustPressed_run (button : Z) (xs : list Step) (s : t) :
  Forall (λ x, x ≠ Update) xs →
  button ∈ mouseButtonsJustPressed s →
  button ∈ mouseButtonsJustPressed (run xs s).
Proof.
  intros Hxs. revert s. induction Hxs as [|x xs Hx _ IH]; intros s Hin.
  - done.
  - rewrite run_cons. by apply IH, buttonJustPressed_step.
Qed.

Lemma buttonHeld_run (button : Z) (xs : list Step) (s : t) :
  Forall (λ x, x ≠ Raw (MouseUp button) ∧ x ≠ Raw MouseOut) xs →
  button ∈ mouseButtonsPressed s → button ∈ mouseButtonsPressed (run xs s).
Proof.
  intros Hxs. revert s. induction Hxs as [|x xs [Hx Ho] _ IH]; intros s Hin.
  - done.
  - rewrite run_cons. by apply IH, buttonHeld_step.
Qed.

(** While the button stays held, neither a frame nor a repeated press
    brings the press edge back. *)
Lemma buttonNotJustPressed_step (button : Z) (x : Step) (s : t) :
  x ≠ Raw (MouseUp button) → x ≠ Raw MouseOut →
  button ∈ mouseButtonsPressed s → button ∉ mouseButtonsJustPressed s →
  button ∉ mouseButtonsJustPressed (step x s).
Proof.
  intros Hx Ho Hheld Hnot.
  destruct x as [[| | |b|b| | | |]|]; simpl; try done.
  case_decide; [done|]. assert (b ≠ button) by set_solver. set_solver.
Qed.

Lemma buttonNotJustPressed_run (button : Z) (xs : list Step) (s : t) :
  Forall (λ x, x ≠ Raw (MouseUp button) ∧ x ≠ Raw MouseOut) xs →
  button ∈ mouseButtonsPressed s → button ∉ mouseButtonsJustPressed s →
  button ∉ mouseButtonsJustPressed (run xs s).
Proof.
  intros Hxs. revert s.
  induction Hxs as [|x xs [Hx Ho] _ IH]; intros s Hheld Hnot; [done|].
  rewrite run_cons. apply IH.
  - by apply buttonHeld_step.
  - by apply buttonNotJustPressed_step.
Qed.

Lemma buttonNotHeld_step (button : Z) (x : Step) (s : t) :
  x ≠ Raw (MouseDown button) → button ∉ mouseButtonsPressed s →
  button ∉ mouseButtonsPressed (step x s).
Proof.
  intros Hx Hnot. destruct x as [[| | |b|b| | | |]|]; simpl; try done;
    try (assert (b ≠ button) by congruence); set_solver.
Qed.

Lemma buttonNotHeld_run (button : Z) (xs : list Step) (s : t) :
  Forall (λ x, x ≠ Raw (MouseDown button)) xs →
  button ∉ mouseButtonsPressed s → button ∉ mouseButtonsPressed (run xs s).
Proof.
  intros Hxs. revert s. induction Hxs as [|x xs Hx _ IH]; intros s Hin.
  - done.
  - rewrite run_cons. by apply IH, buttonNotHeld_step.
Qed.

Lemma buttonJustReleased_step (button : Z) (x : Step) (s : t) :
  x ≠ Update → button ∈ mouseButtonsJustReleased s →
  button ∈ mouseButtonsJustReleased (step x s).
Proof.
  intros Hx Hin. destruct x as [[| | |b|b| | | |]|]; simpl; try done.
  set_solver.
Qed.

Lemma buttonJustReleased_run (button : Z) (xs : list Step) (s : t) :
  Forall (λ x, x ≠ Update) xs →
  button ∈ mouseButtonsJustReleased s →
  button ∈ mouseButtonsJustReleased (run xs s).
Proof.
  intros Hxs. revert s. induction Hxs as [|x xs Hx _ IH]; intros s Hin.
  - done.
  - rewrite run_cons. by apply IH, buttonJustReleased_step.
Qed.

Lemma buttonNotJustReleased_step (button : Z) (x : Step) (s : t) :
  x ≠ Raw (MouseUp button) → button ∉ mouseButtonsJustReleased s →
  button ∉ mouseButtonsJustReleased (step x s).
Proof.
  intros Hx Hnot. destruct x as [[| | |b|b| | | |]|]; simpl; try done;
    try (assert (b ≠ button) by congruence); set_solver.
Qed.

Lemma buttonNotJustReleased_run (button : Z) (xs : list Step) (s : t) :
  Forall (λ x, x ≠ Raw (MouseUp button)) xs →
  button ∉ mouseButtonsJustReleased s →
  button ∉ mouseButtonsJustReleased (run xs s).
Proof.
  intros Hxs. revert s. induction Hxs as [|x xs Hx _ IH]; intros s Hin.
  - done.
  - rewrite run_cons. by apply IH, buttonNotJustReleased_step.
Qed.

(** X19.  A raw press of a mouse button that is not held:
    [isMouseButtonJustPressed] is true up to the next [update()] and false
    after an [update()] for as long as the button stays held, over any
    further frames and repeated press events; [isMouseButtonPressed] is
    true until the button's release or until the pointer leaves the
    canvas.  The release makes [isMouseButtonPressed] false until the next
    press and [isMouseButtonJustReleased] true up to the next [update()],
    after which it is false until the button is released again.  Leaving
    the canvas drops every held button without marking it released and
    without touching the keys; the button then stays not pressed until its
    next press, which counts as a new press. *)
Theorem mouse_press_edge_and_mouseout (button : Z) (s : t) :
  isMouseButtonPressed button s = false →
  let pressed := handle (MouseDown button) s in
  (∀ xs, Forall (λ x, x ≠ Update) xs →
         isMouseButtonJustPressed button (run xs pressed) = true) ∧
  (∀ xs ys,
     Forall (λ x, x ≠ Raw (MouseUp button) ∧ x ≠ Raw MouseOut) xs →
     Forall (λ x, x ≠ Raw (MouseUp button) ∧ x ≠ Raw MouseOut) ys →
     isMouseButtonJustPressed button (run ys (update (run xs pressed)))
     = false) ∧
  (∀ xs, Forall (λ x, x ≠ Raw (MouseUp button) ∧ x ≠ Raw MouseOut) xs →
         isMouseButtonPressed button (run xs pressed) = true) ∧
  (∀ xs, let released := handle (MouseUp button) (run xs pressed) in
         (∀ ys, Forall (λ x, x ≠ Raw (MouseDown button)) ys →
                isMouseButtonPressed button (run ys released) = false) ∧
         (∀ ys, Forall (λ x, x ≠ Update) ys →
                isMouseButtonJustReleased button (run ys released) = true) ∧
         (∀ ys zs, Forall (λ x, x ≠ Raw (MouseUp button)) zs →
                   isMouseButtonJustReleased button
                     (run zs (update (run ys released))) = false)) ∧
  (∀ xs, let out := handle MouseOut (run xs pressed) in
         (∀ b, isMouseButtonPressed b out = false) ∧
         (∀ ys, Forall (λ x, x ≠ Raw (MouseDown button)) ys →
                isMouseButtonPressed button (run ys out) = false) ∧
         mouseButtonsJustReleased out
           = mouseButtonsJustReleased (run xs pressed) ∧
         keysPressed out = keysPressed (run xs pressed) ∧
         isMouseButtonJustPressed button
           (handle (MouseDown button) (update out)) = true).
Proof.
  intros Hfree%bool_decide_eq_false pressed.
  assert (button ∈ mouseButtonsPressed pressed) as Hheld
    by (simpl; set_solver).
  assert (button ∈ mouseButtonsJustPressed pressed) as Hjust.
  { simpl. rewrite decide_False by done. set_solver. }
  split; [|split; [|split; [|split]]].
  - intros xs Hxs. apply bool_decide_eq_true.
    by apply buttonJustPressed_run.
  - intros xs ys Hxs Hys. apply bool_decide_eq_false.
    apply buttonNotJustPressed_run; [done| |].
    + simpl. by apply buttonHeld_run.
    + simpl. set_solver.
  - intros xs Hxs. apply bool_decide_eq_true. by apply buttonHeld_run.
  - intros xs released. split; [|split].
    + intros ys Hys. apply bool_decide_eq_false.
      apply buttonNotHeld_run; [done|]. simpl. set_solver.
    + intros ys Hys. apply bool_decide_eq_true.
      apply buttonJustReleased_run; [done|]. simpl. set_solver.
    + intros ys zs Hzs. apply bool_decide_eq_false.
      apply buttonNotJustReleased_run; [done|]. simpl. set_solver.
  - intros xs out. split; [|split; [|split; [|split]]]; [| |done|done|].
    + intros b. apply bool_decide_eq_false. simpl. set_solver.
    + intros ys Hys. apply bool_decide_eq_false.
      apply buttonNotHeld_run; [done|]. simpl. set_solver.
    + apply bool_decide_eq_true. simpl.
      rewrite decide_False by set_solver. set_solver.
Qed.

Lemma mouse_press_edge_and_mouseout_witness :
  isMouseButtonPressed 0
    (run [Raw (MouseMove 5 5 (mkRect 0 0)); Update; Raw (KeyDown "a")]
       (handle (MouseDown 0) new)) = true ∧
  isMouseButtonJustPressed 0
    (run [Raw (MouseDown 0)] (update (handle (MouseDown 0) new))) = false ∧
  isMouseButtonPressed 0
    (handle MouseOut (run [Update] (handle (MouseDown 0) new))) = false.
Proof.
  destruct (mouse_press_edge_and_mouseout 0 new eq_refl)
    as (_ & Hedge & Hheld & _ & Hout).
  split; [|split].
  - apply Hheld. repeat constructor; discriminate.
  - apply (Hedge [] [Raw (MouseDown 0)]); repeat constructor; discriminate.
  - apply (Hout [Update]).
Defined.

Lemma touches_set (ts : list Touch) (rect : Rect)
    (m : list (Z * (float * float))) (id : Z) :
  JsMap.get id (setTouches ts rect m) =
    match last (filter (λ touch, identifier touch = id) ts) with
    | Some touch =>
        Some ((clientX touch - left rect)%float,
              (clientY touch - top rect)%float)
    | None => JsMap.get id m
    end.
Proof.
  revert m. induction ts as [|a ts IH]; intros m; [done|].
  unfold setTouches in *. simpl. rewrite IH, JsMap_get_set, filter_cons.
  destruct (decide (identifier a = id)) as [Ha|Ha].
  - rewrite last_cons. rewrite decide_True by done.
    by destruct (last (filter _ ts)).
  - rewrite decide_False by congruence. done.
Qed.

Lemma touches_delete (ts : list Touch) (m : list (Z * (float * float)))
    (id : Z) :
  JsMap.get id (foldl (λ m touch, JsMap.delete (identifier touch) m) m ts) =
    if decide (id ∈ identifier <$> ts) then None else JsMap.get id m.
Proof.
  revert m. induction ts as [|a ts IH]; intros m.
  - destruct (decide (id ∈ identifier <$> [])) as [H|_]; [|done].
    by apply elem_of_nil in H.
  - rewrite fmap_cons. cbn [foldl]. rewrite IH, JsMap_get_delete.
    destruct (decide (id ∈ identifier <$> ts)) as [Hin|Hnot].
    + destruct (decide (id ∈ identifier a :: (identifier <$> ts)))
        as [_|Hn]; [done|]. exfalso. apply Hn. by right.
    + destruct (decide (id = identifier a)) as [->|Hne].
      * destruct (decide (identifier a ∈ identifier a :: (identifier <$> ts)))
          as [_|Hn]; [done|]. exfalso. apply Hn. by left.
      * destruct (decide (id ∈ identifier a :: (identifier <$> ts)))
          as [[?|?]%elem_of_cons|_]; done.
Qed.

(** X20.  Touch points are tracked by identifier.  After a touch-start or
    touch-move event each identifier in the event's list is at the
    position of that touch relative to the canvas (the last one, should an
    identifier occur twice) and the other identifiers are where they were;
    after a touch-end event the identifiers of its changed touches are gone
    and the others are where they were.  Neither [update()] nor the pointer
    leaving the canvas forgets a touch. *)
Theorem touches_tracked_by_identifier (s : t) (ts : list Touch)
    (rect : Rect) (id : Z) :
  JsMap.get id (touches (handle (TouchStart ts rect) s)) =
    match last (filter (λ touch, identifier touch = id) ts) with
    | Some touch =>
        Some ((clientX touch - left rect)%float,
              (clientY touch - top rect)%float)
    | None => JsMap.get id (touches s)
    end ∧
  touches (handle (TouchMove ts rect) s)
    = touches (handle (TouchStart ts rect) s) ∧
  JsMap.get id (touches (handle (TouchEnd ts) s)) =
    (if decide (id ∈ identifier <$> ts) then None
     else JsMap.get id (touches s)) ∧
  touches (update s) = touches s ∧
  touches (handle MouseOut s) = touches s.
Proof.
  split; [apply touches_set|]. split; [done|].
  split; [apply touches_delete|]. done.
Qed.

End MoreInputEdges.

Lemma key_release_edge_lasts_one_update_witness :
  InputManager.isKeyJustReleased "w"
    (InputManager.run [InputManager.Raw (InputManager.KeyDown "w")]
       (InputManager.handle (InputManager.KeyUp "w") InputManager.new))
  = true.
Proof.
  destruct (key_release_edge_lasts_one_update "w" InputManager.new)
    as (Hjust & _).
  apply Hjust. repeat constructor; discriminate.
Defined.

(** ** Building the engine and switching its mode *)

(** The shader program is built exactly when the context hands out both
    shader objects and the program object and reports both compilations
    and the linking as successful. *)
Lemma createShaderProgram_Ok (gl : Gl.t) :
  WebGLRenderer_createShaderProgram gl = Ok tt ↔
  Gl.createShader gl VertexShader = true ∧
  Gl.compileStatus gl VertexShader = true ∧
  Gl.createShader gl FragmentShader = true ∧
  Gl.compileStatus gl FragmentShader = true ∧
  Gl.createProgram gl = true ∧
  Gl.linkStatus gl = true.
Proof.
  unfold WebGLRenderer_createShaderProgram, WebGLRenderer_compileShader.
  destruct (Gl.createShader gl VertexShader),
    (Gl.compileStatus gl VertexShader),
    (Gl.createShader gl FragmentShader),
    (Gl.compileStatus gl FragmentShader),
    (Gl.createProgram gl), (Gl.linkStatus gl); simpl; naive_solver.
Qed.

Lemma createShaderProgram_Throw (gl : Gl.t) (msg : string) :
  WebGLRenderer_createShaderProgram gl = Throw msg →
  msg ∈ ["Failed to create shader"; "Shader compilation failed";
         "Failed to create shader program"; "Failed to link shader program"].
Proof.
  unfold WebGLRenderer_createShaderProgram, WebGLRenderer_compileShader.
  destruct (Gl.createShader gl VertexShader),
    (Gl.compileStatus gl VertexShader),
    (Gl.createShader gl FragmentShader),
    (Gl.compileStatus gl FragmentShader),
    (Gl.createProgram gl), (Gl.linkStatus gl); simpl;
    intros [= <-]; set_solver.
Qed.

(** A construction that goes through, spelled out. *)
Lemma GameEngine_new_succeeds (containerId : string) (mode : RenderMode)
    (d : Dom.t) (cs : list nat) :
  Dom.containers d !! containerId = Some cs →
  (if mode is Mode2D then Dom.context2d d else Dom.contextWebgl d) = true →
  (mode = Mode3D → WebGLRenderer_createShaderProgram (Dom.gl d) = Ok tt) →
  ∃ d' g r, GameEngine.new containerId mode d = (d', Ok g) ∧
            Dom.containers d' !! containerId
            = Some (cs ++ [Dom.nextCanvas d]) ∧
            canvas r = Dom.nextCanvas d ∧
            GameEngine.renderStep g = [Draw mode r] ∧
            GameEngine.inputManager g
            = Some (Dom.nextCanvas d, InputManager.new) ∧
            GameEngine.renderMode g = mode ∧
            canvas <$> (match mode with
                        | Mode2D => GameEngine.canvas2DRenderer g
                        | Mode3D => GameEngine.webglRenderer g
                        end) = Some (Dom.nextCanvas d) ∧
            Dom.context2d d' = Dom.context2d d ∧
            Dom.contextWebgl d' = Dom.contextWebgl d ∧
            Dom.gl d' = Dom.gl d ∧
            GameEngine.isRunning g = false ∧
            GameEngine.scene g = Scene.new.
Proof.
  unfold GameEngine.new, GameEngine.initializeRenderer.
  intros Hc Hctx Hgl. rewrite Hc. simpl.
  destruct mode; simpl in *;
    unfold Canvas2DRenderer_new, WebGLRenderer_new; rewrite Hc; simpl;
    rewrite Hctx, ?(Hgl eq_refl);
    eexists _, _, (mkRenderer (Dom.nextCanvas d) (Dom.innerWidth d)
                     (Dom.innerHeight d - 40)%float);
    (split; [done|]); simpl; rewrite lookup_insert_eq; repeat split.
Qed.

(** X21.  What [new GameEngine(containerId, mode)] does on a page.  Without
    the container it throws the not-found error and leaves the page alone.
    With the container but without the drawing context of the mode it
    throws the message of that renderer, after the new canvas was
    appended, which stays on the page.  In 3D mode with a context whose
    shader program does not build (a shader or the program object is not
    handed out, a compilation or the linking fails) it throws the message
    of that failure, again with the canvas left on the page.  Otherwise,
    and only then, it returns an engine that is not running, has an empty
    scene and an input manager on the new canvas, and whose render step
    draws through the backend of the requested mode on that canvas. *)
Theorem GameEngine_new_outcomes (containerId : string) (mode : RenderMode)
    (d : Dom.t) (cs : list nat) :
  (Dom.containers d !! containerId = None →
   GameEngine.new containerId mode d = (d, Throw (notFound containerId))) ∧
  (Dom.containers d !! containerId = Some cs →
   (if mode is Mode2D then Dom.context2d d else Dom.contextWebgl d) = false →
   ∃ d', GameEngine.new containerId mode d
         = (d', Throw (if mode is Mode2D
                       then "Could not get 2D context from canvas"
                       else "Could not initialize WebGL")) ∧
         Dom.containers d' !! containerId
         = Some (cs ++ [Dom.nextCanvas d])) ∧
  (∀ msg, Dom.containers d !! containerId = Some cs →
          mode = Mode3D → Dom.contextWebgl d = true →
          WebGLRenderer_createShaderProgram (Dom.gl d) = Throw msg →
          ∃ d', GameEngine.new containerId mode d = (d', Throw msg) ∧
                Dom.containers d' !! containerId
                = Some (cs ++ [Dom.nextCanvas d]) ∧
                msg ∈ ["Failed to create shader"; "Shader compilation failed";
                       "Failed to create shader program";
                       "Failed to link shader program"]) ∧
  (WebGLRenderer_createShaderProgram (Dom.gl d) = Ok tt ↔
   Gl.createShader (Dom.gl d) VertexShader = true ∧
   Gl.compileStatus (Dom.gl d) VertexShader = true ∧
   Gl.createShader (Dom.gl d) FragmentShader = true ∧
   Gl.compileStatus (Dom.gl d) FragmentShader = true ∧
   Gl.createProgram (Dom.gl d) = true ∧
   Gl.linkStatus (Dom.gl d) = true) ∧
  (Dom.containers d !! containerId = Some cs →
   (if mode is Mode2D then Dom.context2d d else Dom.contextWebgl d) = true →
   (mode = Mode3D → WebGLRenderer_createShaderProgram (Dom.gl d) = Ok tt) →
   ∃ d' g r, GameEngine.new containerId mode d = (d', Ok g) ∧
             Dom.containers d' !! containerId
             = Some (cs ++ [Dom.nextCanvas d]) ∧
             canvas r = Dom.nextCanvas d ∧
             GameEngine.renderStep g = [Draw mode r] ∧
             GameEngine.inputManager g
             = Some (Dom.nextCanvas d, InputManager.new) ∧
             GameEngine.renderMode g = mode ∧
             GameEngine.isRunning g = false ∧
             GameEngine.scene g = Scene.new).
Proof.
  split; [|split; [|split; [|split]]].
  - unfold GameEngine.new, GameEngine.initializeRenderer. intros ->. done.
  - unfold GameEngine.new, GameEngine.initializeRenderer.
    intros Hc Hctx. rewrite Hc. simpl.
    destruct mode; simpl in *;
      unfold Canvas2DRenderer_new, WebGLRenderer_new; rewrite Hc; simpl;
      rewrite Hctx; eexists; (split; [done|]); simpl;
      by rewrite lookup_insert_eq.
  - unfold GameEngine.new, GameEngine.initializeRenderer.
    intros msg Hc -> Hctx Hgl. rewrite Hc. simpl.
    unfold WebGLRenderer_new. rewrite Hc. simpl. rewrite Hctx, Hgl.
    eexists. split; [done|]. simpl. rewrite lookup_insert_eq.
    split; [done|]. by eapply createShaderProgram_Throw.
  - apply createShaderProgram_Ok.
  - intros Hc Hctx Hgl.
    destruct (GameEngine_new_succeeds containerId mode d cs Hc Hctx Hgl)
      as (d' & g & r & Hnew & Hd' & Hr & Hstep & Hin & Hmode & _ & _ & _ & _
          & Hrun & Hscene).
    by exists d', g, r.
Qed.

Lemma GameEngine_new_outcomes_witness :
  ∃ d',
    GameEngine.new "game-container" Mode3D
      (Dom.mk {["game-container" := []]} 0 true true 800 640
         (Gl.mk (λ _, true) (λ _, true) true false))
    = (d', Throw "Failed to link shader program") ∧
    Dom.containers d' !! "game-container" = Some [0].
Proof.
  destruct (GameEngine_new_outcomes "game-container" Mode3D
              (Dom.mk {["game-container" := []]} 0 true true 800 640
                 (Gl.mk (λ _, true) (λ _, true) true false)) [])
    as (_ & _ & Hfail & _).
  destruct (Hfail "Failed to link shader program")
    as (d' & Hnew & Hd' & _); try reflexivity.
  exists d'. split; [exact Hnew|exact Hd'].
Defined.

(** A switch that goes through, spelled out. *)
Lemma switchRenderMode_ok (mode : RenderMode) (d d' : Dom.t)
    (g g' : GameEngine.t) :
  mode ≠ GameEngine.renderMode g →
  GameEngine.switchRenderMode mode (d, g) = (d', g', None) →
  ∃ cs r,
    Dom.containers (Dom.removeFirstCanvas "game-container" d)
      !! "game-container" = Some cs ∧
    Dom.containers d' = <["game-container" := cs ++ [Dom.nextCanvas d]]>
                          (Dom.containers
                             (Dom.removeFirstCanvas "game-container" d)) ∧
    canvas r = Dom.nextCanvas d ∧
    GameEngine.renderMode g' = mode ∧
    GameEngine.inputManager g' = Some (Dom.nextCanvas d, InputManager.new) ∧
    GameEngine.canvas2DRenderer g'
    = (if mode is Mode2D then Some r else GameEngine.canvas2DRenderer g) ∧
    GameEngine.webglRenderer g'
    = (if mode is Mode3D then Some r else GameEngine.webglRenderer g) ∧
    GameEngine.scene g' = GameEngine.scene g ∧
    GameEngine.isRunning g' = GameEngine.isRunning g ∧
    Dom.context2d d' = Dom.context2d d ∧
    Dom.contextWebgl d' = Dom.contextWebgl d ∧
    Dom.gl d' = Dom.gl d.
Proof.
  intros Hne. unfold GameEngine.switchRenderMode.
  rewrite decide_False by done.
  unfold GameEngine.initializeRenderer.
  set (d1 := Dom.removeFirstCanvas "game-container" d).
  assert (Dom.nextCanvas d1 = Dom.nextCanvas d ∧
          Dom.context2d d1 = Dom.context2d d ∧
          Dom.contextWebgl d1 = Dom.contextWebgl d ∧
          Dom.gl d1 = Dom.gl d) as (Hn & H2 & H3 & H4).
  { unfold d1, Dom.removeFirstCanvas.
    by destruct (Dom.containers d !! "game-container") as [[|? ?]|]. }
  destruct (Dom.containers d1 !! "game-container") as [cs|] eqn:Hc;
    [|intros [=]].
  cbn [GameEngine.renderMode].
  destruct mode; unfold Canvas2DRenderer_new, WebGLRenderer_new;
    rewrite Hc; cbn [Dom.appendCanvas].
  - destruct (Dom.context2d d1); intros [= <- <-].
    eexists cs, _. rewrite Hn. simpl. repeat split; done.
  - destruct (Dom.contextWebgl d1); [|intros [=]].
    destruct (WebGLRenderer_createShaderProgram _); intros [= <- <-].
    eexists cs, _. rewrite Hn. simpl. repeat split; done.
Qed.

(** X22.  A switch to 2D is honoured: after [switchRenderMode('2d')] went
    through on an engine in 3D mode, the render step draws through a 2D
    renderer built by the switch, on the canvas the switch appended to
    ['game-container'] and the input manager now listens on. *)
Theorem switch_to_2d_draws_on_new_canvas (d d' : Dom.t)
    (g g' : GameEngine.t) :
  GameEngine.renderMode g = Mode3D →
  GameEngine.switchRenderMode Mode2D (d, g) = (d', g', None) →
  ∃ r cs, GameEngine.renderStep g' = [Draw Mode2D r] ∧
          GameEngine.renderMode g' = Mode2D ∧
          canvas r = Dom.nextCanvas d ∧
          Dom.containers d' !! "game-container" = Some (cs ++ [canvas r]) ∧
          GameEngine.inputManager g' = Some (canvas r, InputManager.new).
Proof.
  intros Hm Hsw.
  destruct (switchRenderMode_ok Mode2D d d' g g') as
    (cs & r & Hcs & Hd' & Hr & Hmode & Hin & H2d & _); [congruence|done|].
  exists r, cs. unfold GameEngine.renderStep. rewrite H2d, Hd', Hr.
  by rewrite lookup_insert_eq.
Qed.

Lemma switch_to_2d_draws_on_new_canvas_witness :
  ∃ d0 g0 d' g' r,
    GameEngine.new "game-container" Mode3D page = (d0, Ok g0) ∧
    GameEngine.switchRenderMode Mode2D (d0, g0) = (d', g', None) ∧
    GameEngine.renderStep g' = [Draw Mode2D r] ∧
    Dom.containers d' !! "game-container" = Some [canvas r].
Proof.
  eexists _, _, _, _, _. split; [reflexivity|]. split; [reflexivity|].
  destruct (switch_to_2d_draws_on_new_canvas
              (GameEngine.new "game-container" Mode3D page).1
              (GameEngine.switchRenderMode Mode2D
                 ((GameEngine.new "game-container" Mode3D page).1,
                  GameEngine.mk Scene.new None
                    (Some (mkRenderer 0 800 600))
                    (Some (0, InputManager.new)) Mode3D false 0 0 0 0)).1.1
              (GameEngine.mk Scene.new None (Some (mkRenderer 0 800 600))
                 (Some (0, InputManager.new)) Mode3D false 0 0 0 0)
              (GameEngine.switchRenderMode Mode2D
                 ((GameEngine.new "game-container" Mode3D page).1,
                  GameEngine.mk Scene.new None
                    (Some (mkRenderer 0 800 600))
                    (Some (0, InputManager.new)) Mode3D false 0 0 0 0)).1.2)
    as (r & cs & Hstep & _); [reflexivity|reflexivity|].
  split; reflexivity.
Defined.

(** X23.  [switchRenderMode] looks for ['game-container'] whatever
    container the engine was built in.  When the page has no such element
    and another mode is asked for, the call throws the not-found error
    after the mode field was already changed: page and renderers are as
    before, but the engine reports the new mode, and asking for that mode
    again is then a silent no-op on any page, so the switch cannot be
    retried. *)
Theorem switch_without_game_container (mode : RenderMode) (d : Dom.t)
    (g : GameEngine.t) :
  Dom.containers d !! "game-container" = None →
  mode ≠ GameEngine.renderMode g →
  ∃ g', GameEngine.switchRenderMode mode (d, g)
        = (d, g', Some (notFound "game-container")) ∧
        GameEngine.renderMode g' = mode ∧
        GameEngine.renderStep g' = GameEngine.renderStep g ∧
        GameEngine.inputManager g' = GameEngine.inputManager g ∧
        ∀ d1, GameEngine.switchRenderMode mode (d1, g') = (d1, g', None).
Proof.
  intros Hc Hne. unfold GameEngine.switchRenderMode.
  rewrite decide_False by done.
  unfold Dom.removeFirstCanvas, GameEngine.initializeRenderer.
  rewrite Hc. cbn [fst snd]. rewrite Hc.
  eexists. split; [done|]. repeat split.
  intros d1. simpl. by rewrite decide_True.
Qed.

Lemma switch_without_game_container_witness :
  ∃ d0 g0 g',
    GameEngine.new "app" Mode2D
      (Dom.mk {["app" := []]} 0 true true 800 640 Gl.working) = (d0, Ok g0) ∧
    GameEngine.switchRenderMode Mode3D (d0, g0)
    = (d0, g', Some (notFound "game-container")) ∧
    GameEngine.renderMode g' = Mode3D.
Proof.
  eexists _, _.
  destruct (switch_without_game_container Mode3D
              (GameEngine.new "app" Mode2D
                 (Dom.mk {["app" := []]} 0 true true 800 640 Gl.working)).1
              (GameEngine.mk Scene.new (Some (mkRenderer 0 800 600)) None
                 (Some (0, InputManager.new)) Mode2D false 0 0 0 0))
    as (g' & Hsw & Hmode & _); [reflexivity|discriminate|].
  exists g'. split; [reflexivity|]. split; [exact Hsw|exact Hmode].
Defined.

Lemma oneCanvas_switch (mode : RenderMode) (d d' : Dom.t)
    (g g' : GameEngine.t) :
  oneCanvas (d, g) →
  GameEngine.switchRenderMode mode (d, g) = (d', g', None) →
  oneCanvas (d', g') ∧ GameEngine.renderMode g' = mode.
Proof.
  intros (c & i & Hc & Hi & Hr) Hsw. simpl in Hc, Hi, Hr.
  destruct (decide (mode = GameEngine.renderMode g)) as [->|Hne].
  - unfold GameEngine.switchRenderMode in Hsw.
    rewrite decide_True in Hsw by done. injection Hsw as <- <-.
    split; [|done]. by exists c, i.
  - destruct (switchRenderMode_ok mode d d' g g' Hne Hsw) as
      (cs & r & Hcs & Hd' & Hcr & Hmode & Hin & H2d & H3d & _).
    unfold Dom.removeFirstCanvas in Hcs, Hd'. rewrite Hc in Hcs, Hd'.
    simpl in Hcs, Hd'. rewrite lookup_insert_eq in Hcs.
    injection Hcs as <-. split; [|done].
    exists (Dom.nextCanvas d), InputManager.new. simpl.
    split; [by rewrite Hd', lookup_insert_eq|]. split; [done|].
    rewrite Hmode. destruct mode.
    + by rewrite H2d, <- Hcr.
    + by rewrite H3d, <- Hcr.
Qed.

(** One more switch on a page where both contexts are to be had and the
    shader program builds. *)
Lemma switchRenderMode_succeeds (mode : RenderMode) (d : Dom.t)
    (g : GameEngine.t) :
  oneCanvas (d, g) → Dom.context2d d = true → Dom.contextWebgl d = true →
  WebGLRenderer_createShaderProgram (Dom.gl d) = Ok tt →
  ∃ d' g', GameEngine.switchRenderMode mode (d, g) = (d', g', None) ∧
           Dom.context2d d' = true ∧ Dom.contextWebgl d' = true ∧
           Dom.gl d' = Dom.gl d.
Proof.
  intros (c & i & Hc & _) H2 H3 H4. simpl in Hc.
  unfold GameEngine.switchRenderMode.
  destruct (decide (mode = GameEngine.renderMode g)); [by eexists _, _|].
  unfold Dom.removeFirstCanvas, GameEngine.initializeRenderer.
  rewrite Hc. simpl. rewrite lookup_insert_eq.
  destruct mode; unfold Canvas2DRenderer_new, WebGLRenderer_new; simpl;
    rewrite lookup_insert_eq; simpl; rewrite ?H2, ?H3, ?H4; by eexists _, _.
Qed.

Lemma switchAll_snoc (modes : list RenderMode) (mode : RenderMode)
    (st : Dom.t * GameEngine.t) :
  switchAll (modes ++ [mode]) st =
    match switchAll modes st with
    | (d, g, Some e) => (d, g, Some e)
    | (d, g, None) => GameEngine.switchRenderMode mode (d, g)
    end.
Proof.
  unfold switchAll. rewrite foldl_app. cbn [foldl].
  by destruct (foldl _ _ modes) as [[d g] [e|]].
Qed.

(** X24.  On a page whose ['game-container'] starts empty, where both
    drawing contexts are to be had and the WebGL context builds the shader
    program, an engine built there and switched back and forth any number
    of times never throws, and the page always holds exactly one canvas:
    the one the input manager listens on, which is the canvas of the
    renderer of the mode the engine is in, the last mode asked for.  Where
    the shader program does not build, the first switch to 3D of an engine
    built in 2D throws instead, leaving the engine in 3D mode with the 2D
    renderer and the input manager on the canvas that was taken off the
    page. *)
Theorem switching_keeps_one_canvas (mode : RenderMode)
    (modes : list RenderMode) (d : Dom.t) :
  Dom.containers d !! "game-container" = Some [] →
  Dom.context2d d = true → Dom.contextWebgl d = true →
  (WebGLRenderer_createShaderProgram (Dom.gl d) = Ok tt →
   ∃ d0 g0 d' g',
     GameEngine.new "game-container" mode d = (d0, Ok g0) ∧
     switchAll modes (d0, g0) = (d', g', None) ∧
     oneCanvas (d', g') ∧
     GameEngine.renderMode g' = default mode (last modes)) ∧
  (∀ msg, WebGLRenderer_createShaderProgram (Dom.gl d) = Throw msg →
     ∃ d0 g0 d' g' r,
       GameEngine.new "game-container" Mode2D d = (d0, Ok g0) ∧
       GameEngine.switchRenderMode Mode3D (d0, g0) = (d', g', Some msg) ∧
       GameEngine.renderMode g' = Mode3D ∧
       GameEngine.webglRenderer g' = None ∧
       GameEngine.renderStep g' = [Draw Mode2D r] ∧
       GameEngine.inputManager g' = Some (canvas r, InputManager.new) ∧
       Dom.containers d' !! "game-container" = Some [S (canvas r)] ∧
       ¬ oneCanvas (d', g')).
Proof.
  intros Hc H2 H3. split.
  - intros H4.
    destruct (GameEngine_new_succeeds "game-container" mode d [] Hc)
      as (d0 & g0 & r & Hnew & Hc0 & Hr & Hstep & Hin & Hmode & Hcan & H20
          & H30 & H40 & _); [by destruct mode|done|].
    exists d0, g0. rewrite Hnew.
    assert (oneCanvas (d0, g0)) as Hone.
    { exists (Dom.nextCanvas d), InputManager.new. simpl.
      split; [done|]. split; [done|]. by rewrite Hmode. }
    clear Hcan.
    rewrite H2 in H20. rewrite H3 in H30. rewrite <- H40 in H4.
    clear Hnew Hc Hc0 Hstep Hin Hr H40. rewrite <- Hmode. clear Hmode.
    assert (∃ d' g', switchAll modes (d0, g0) = (d', g', None) ∧
                     oneCanvas (d', g') ∧
                     GameEngine.renderMode g'
                     = default (GameEngine.renderMode g0) (last modes) ∧
                     Dom.context2d d' = true ∧ Dom.contextWebgl d' = true ∧
                     Dom.gl d' = Dom.gl d0)
      as (d' & g' & Hall & Hone' & Hm' & _).
    { induction modes as [|m modes IH] using rev_ind.
      - exists d0, g0. by repeat split.
      - destruct IH as (d1 & g1 & Hall & Hone1 & _ & H21 & H31 & H41).
        destruct (switchRenderMode_succeeds m d1 g1 Hone1 H21 H31)
          as (d' & g' & Hsw & H2' & H3' & H4'); [by rewrite H41|].
        exists d', g'. rewrite switchAll_snoc, Hall. split; [done|].
        destruct (oneCanvas_switch m d1 d' g1 g' Hone1 Hsw) as [Hone' Hm'].
        split; [done|]. rewrite last_snoc.
        repeat split; [done..|]. by rewrite H4'. }
    by exists d', g'.
  - intros msg H4.
    set (r := mkRenderer (Dom.nextCanvas d) (Dom.innerWidth d)
                (Dom.innerHeight d - 40)%float).
    exists (Dom.appendCanvas "game-container" [] d).2,
      (GameEngine.mk Scene.new (Some r) None
         (Some (Dom.nextCanvas d, InputManager.new)) Mode2D false 0 0 0 0).
    assert (GameEngine.new "game-container" Mode2D d
            = ((Dom.appendCanvas "game-container" [] d).2,
               Ok (GameEngine.mk Scene.new (Some r) None
                     (Some (Dom.nextCanvas d, InputManager.new))
                     Mode2D false 0 0 0 0))) as ->.
    { unfold GameEngine.new, GameEngine.initializeRenderer.
      rewrite Hc. simpl. unfold Canvas2DRenderer_new. rewrite Hc. simpl.
      by rewrite H2. }
    unfold GameEngine.switchRenderMode. rewrite decide_False by done.
    unfold Dom.removeFirstCanvas at 1. simpl. rewrite lookup_insert_eq.
    simpl. unfold GameEngine.initializeRenderer. simpl.
    rewrite lookup_insert_eq. simpl.
    unfold WebGLRenderer_new. simpl. rewrite lookup_insert_eq. simpl.
    rewrite H3, H4.
    eexists _, _, r.
    split; [done|]. split; [done|]. simpl.
    rewrite lookup_insert_eq. repeat split.
    intros (c & i & Hc' & Hi & _). simpl in Hc', Hi.
    rewrite lookup_insert_eq in Hc'. injection Hc' as <-.
    injection Hi as Hi _. lia.
Qed.

Lemma switching_keeps_one_canvas_witness :
  ∃ d0 g0 d' g',
    GameEngine.new "game-container" Mode2D page = (d0, Ok g0) ∧
    switchAll [Mode3D; Mode3D; Mode2D; Mode3D] (d0, g0) = (d', g', None) ∧
    oneCanvas (d', g') ∧
    GameEngine.renderMode g' = Mode3D.
Proof.
  destruct (switching_keeps_one_canvas Mode2D
              [Mode3D; Mode3D; Mode2D; Mode3D] page) as [Hok _];
    [reflexivity..|].
  apply Hok. reflexivity.
Defined.

(** X25.  Once a 2D renderer was built, window resizes go to it and to
    nothing else: after a switch from 2D to 3D went through,
    [onWindowResize] gives the new size to the 2D renderer the switch left
    behind and leaves the WebGL renderer at the size it was built with. *)
Theorem resize_after_switch_misses_webgl (d d' d2 : Dom.t)
    (g g' : GameEngine.t) (r : Renderer) :
  GameEngine.canvas2DRenderer g = Some r →
  GameEngine.renderMode g = Mode2D →
  GameEngine.switchRenderMode Mode3D (d, g) = (d', g', None) →
  GameEngine.webglRenderer (onWindowResize d2 g')
  = GameEngine.webglRenderer g' ∧
  is_Some (GameEngine.webglRenderer g') ∧
  GameEngine.canvas2DRenderer (onWindowResize d2 g')
  = Some (mkRenderer (canvas r) (Dom.innerWidth d2)
            (Dom.innerHeight d2 - 40)%float).
Proof.
  intros Hr Hm Hsw.
  destruct (switchRenderMode_ok Mode3D d d' g g') as
    (cs & r3 & _ & _ & _ & _ & _ & H2d & H3d & _); [congruence|done|].
  unfold onWindowResize. rewrite H2d, Hr. simpl. rewrite H3d.
  split; [done|]. split; [by eexists|done].
Qed.

Lemma resize_after_switch_misses_webgl_witness :
  ∃ d g,
    switchTo3D = Some (d, g, [Draw Mode2D (mkRenderer 0 800 600);
                              RequestAnimationFrame]) ∧
    GameEngine.webglRenderer
      (onWindowResize (Dom.mk ∅ 0 true true 1024 808 Gl.working) g)
    = Some (mkRenderer 1 800 600) ∧
    GameEngine.canvas2DRenderer
      (onWindowResize (Dom.mk ∅ 0 true true 1024 808 Gl.working) g)
    = Some (mkRenderer 0 1024 768).
Proof.
  eexists _, _. split; [reflexivity|].
  destruct (resize_after_switch_misses_webgl
              (GameEngine.new "game-container" Mode2D page).1
              (Dom.mk {["game-container" := [1]]} 2 true true 800 640 Gl.working)
              (Dom.mk ∅ 0 true true 1024 808 Gl.working)
              (GameEngine.mk Scene.new (Some (mkRenderer 0 800 600)) None
                 (Some (0, InputManager.update InputManager.new))
                 Mode2D true 16 1 0 0)
              (GameEngine.mk Scene.new (Some (mkRenderer 0 800 600))
                 (Some (mkRenderer 1 800 600))
                 (Some (1, InputManager.new))
                 Mode3D true 16 1 0 0)
              (mkRenderer 0 800 600))
    as (Hgl & _ & H2d); [reflexivity|reflexivity|reflexivity|].
  split; [exact Hgl|exact H2d].
Defined.

(** ** The animation registry *)

Section AnimateProps.
Context {Config : Type}.
Implicit Types (s : Animate.t Config) (c : Animate.Call (Config:=Config)).

Lemma Animate_call_isRunning c s (name : string) :
  Animate.isRunning name (Animate.call c s).1 =
    if decide (Animate.callName c = name)
    then (match c with Animate.Stop _ => false | _ => true end)
    else Animate.isRunning name s.
Proof.
  unfold Animate.isRunning.
  destruct c as [n cfg|n cfg|n]; simpl;
    unfold Animate.startAnimation, Animate.createAnimation,
      Animate.stopAnimation;
    destruct (decide (is_Some (Animate.animations s !! n))) as [Hs|Hn];
    simpl; destruct (decide (n = name)) as [->|Hne];
    rewrite ?lookup_insert_eq, ?lookup_delete_eq,
      ?lookup_insert_ne, ?lookup_delete_ne by done;
    try done;
    first [by apply bool_decide_eq_true|by apply bool_decide_eq_false].
Qed.

(** X26.  [createAnimation] and [startAnimation] write to the same map: a
    name that was created counts as running, [startAnimation] on it throws
    the already-running error, and neither call ever replaces the
    configuration stored first; a failed call changes nothing, console
    included. *)
Theorem Animate_created_cannot_be_started s (name : string)
    (c1 c2 : Config) :
  Animate.animations s !! name = None →
  let s1 := (Animate.createAnimation name c1 s).1 in
  Animate.isRunning name s1 = true ∧
  Animate.getAnimation name s1 = Some c1 ∧
  Animate.startAnimation name c2 s1
  = (s1, Throw (Animate.message name " is already running")) ∧
  Animate.createAnimation name c2 s1
  = (s1, Throw (Animate.message name " already exists")) ∧
  Animate.console s1
  = Animate.console s ++ [(Animate.message name " created with config:",
                           Some c1)].
Proof.
  intros Hnone s1.
  assert (s1 = Animate.mk (<[name := c1]> (Animate.animations s))
                 (Animate.console s
                  ++ [(Animate.message name " created with config:",
                       Some c1)])) as ->.
  { unfold s1, Animate.createAnimation.
    rewrite decide_False; [done|]. rewrite Hnone. by intros [? ?]. }
  unfold Animate.isRunning, Animate.getAnimation, Animate.startAnimation,
    Animate.createAnimation. simpl. rewrite lookup_insert_eq.
  rewrite !decide_True by eauto. repeat split.
Qed.

(** X27.  After any sequence of [startAnimation], [createAnimation] and
    [stopAnimation] calls, thrown errors caught, [isRunning(name)] tells
    what the last call about [name] was, whether it threw or not: true
    after a start or a create, false after a stop, and as before when no
    call was about [name]. *)
Theorem Animate_isRunning_follows_last_call s
    (cs : list (Animate.Call (Config:=Config))) (name : string) :
  Animate.isRunning name (Animate.calls cs s) =
    match last (filter (λ c, Animate.callName c = name) cs) with
    | Some (Animate.Stop _) => false
    | Some _ => true
    | None => Animate.isRunning name s
    end.
Proof.
  revert s. induction cs as [|c cs IH]; intros s; [done|].
  change (Animate.calls (c :: cs) s)
    with (Animate.calls cs (Animate.call c s).1).
  rewrite IH, filter_cons, Animate_call_isRunning.
  destruct (decide (Animate.callName c = name)) as [Hc|Hc].
  - rewrite last_cons. by destruct (last (filter _ cs)).
  - done.
Qed.

End AnimateProps.

Lemma Animate_created_cannot_be_started_witness :
  Animate.startAnimation "walk" 2
    (Animate.createAnimation "walk" 1 (Animate.new (Config:=nat))).1
  = ((Animate.createAnimation "walk" 1 Animate.new).1,
     Throw (Animate.message "walk" " is already running")).
Proof.
  destruct (Animate_created_cannot_be_started (Animate.new (Config:=nat))
              "walk" 1 2 eq_refl) as (_ & _ & Hstart & _).
  exact Hstart.
Defined.
